(** * genie-kb: the knowledge-base store of [kb.py] ([KB] and [FactKB])

    A shallow embedding of the two classes of [src/kb.py] and the
    properties of the store that its specification states.

    Conventions of the embedding:
    - Python [int] is [Z]; [len] is [Z.of_nat (length _)].
    - [list] and [array('I')] are Rocq lists read with Python's indexing
      rules (negative indices count from the end, slices clamp);
      appending to an [array('I')] raises [OverflowError] outside
      [0 .. UINT_MAX].
    - [dict] keyed by strings is [gmap string _].
    - a method is a function from the object's state to an outcome
      (an exception or a value) together with the state it leaves behind;
      the locks are not modelled, calls are sequential. *)

From stdpp Require Import gmap strings list fin_maps sorting.
From Stdlib Require Import ZArith Lia.

Open Scope Z_scope.

(** ** Python sequences *)

Module Py.

Inductive exn := AssertionError | KeyError | IndexError | OverflowError.

Definition len {A} (l : list A) : Z := Z.of_nat (length l).

(** [l[i]]: a negative index counts from the end; [None] is
    [IndexError]. *)
Definition getitem {A} (l : list A) (i : Z) : option A :=
  if 0 <=? i then l !! Z.to_nat i
  else if - len l <=? i then l !! Z.to_nat (len l + i)
  else None.

(** [l[i] = x], with the same index rules. *)
Definition setitem {A} (l : list A) (i : Z) (x : A) : option (list A) :=
  if 0 <=? i then
    if i <? len l then Some (<[Z.to_nat i := x]> l) else None
  else if - len l <=? i then Some (<[Z.to_nat (len l + i) := x]> l)
  else None.

(** A slice bound, as [PySlice_AdjustIndices] normalises it for a
    step of one. *)
Definition clamp {A} (l : list A) (i : Z) : Z :=
  if i <? 0 then Z.max (i + len l) 0 else Z.min i (len l).

(** [l[a:b]]. *)
Definition slice {A} (l : list A) (a b : Z) : list A :=
  let a' := clamp l a in
  let b' := clamp l b in
  take (Z.to_nat (b' - a')) (drop (Z.to_nat a') l).

(** The largest value an [array('I')] slot holds (C [unsigned int]). *)
Definition UINT_MAX : Z := 4294967295.

(** [a.append(v)] on an [array('I')]. *)
Definition array_append (a : list Z) (v : Z) : option (list Z) :=
  if (0 <=? v) && (v <=? UINT_MAX) then Some (a ++ [v]) else None.

(** ['_'.join(ws)]. *)
Fixpoint join (sep : string) (ws : list string) : string :=
  match ws with
  | [] => ""
  | [w] => w
  | w :: ws' => w +:+ sep +:+ join sep ws'
  end.

End Py.

Import Py.

(** ** The state of a [KB] object *)

Record KB := mkKB {
  contexts : gmap string (list Z);
  starts : gmap string (list Z);
  ends : gmap string (list Z);
  answers_ : gmap string (list Z);
  context_offsets : gmap string (list Z);
  span_offsets : gmap string (list Z);
  vocab : list string;
  answer_vocab : list string;
  count : list Z;
  answer_count : list Z;
  ids : gmap string Z;
  answer_ids : gmap string Z;
  max_context_length : Z;
  max_span_length : Z;
  ordered : bool
}.

(** [KB.__init__]. *)
Definition KB_init : KB :=
  mkKB ∅ ∅ ∅ ∅ ∅ ∅ [] [] [] [] ∅ ∅ 0 0 false.

Definition set_contexts (f : gmap string (list Z) → gmap string (list Z)) (s : KB) : KB :=
  mkKB (f (contexts s)) (starts s) (ends s) (answers_ s) (context_offsets s)
       (span_offsets s) (vocab s) (answer_vocab s) (count s) (answer_count s)
       (ids s) (answer_ids s) (max_context_length s) (max_span_length s) (ordered s).

Definition set_starts (f : gmap string (list Z) → gmap string (list Z)) (s : KB) : KB :=
  mkKB (contexts s) (f (starts s)) (ends s) (answers_ s) (context_offsets s)
       (span_offsets s) (vocab s) (answer_vocab s) (count s) (answer_count s)
       (ids s) (answer_ids s) (max_context_length s) (max_span_length s) (ordered s).

Definition set_ends (f : gmap string (list Z) → gmap string (list Z)) (s : KB) : KB :=
  mkKB (contexts s) (starts s) (f (ends s)) (answers_ s) (context_offsets s)
       (span_offsets s) (vocab s) (answer_vocab s) (count s) (answer_count s)
       (ids s) (answer_ids s) (max_context_length s) (max_span_length s) (ordered s).

Definition set_answers (f : gmap string (list Z) → gmap string (list Z)) (s : KB) : KB :=
  mkKB (contexts s) (starts s) (ends s) (f (answers_ s)) (context_offsets s)
       (span_offsets s) (vocab s) (answer_vocab s) (count s) (answer_count s)
       (ids s) (answer_ids s) (max_context_length s) (max_span_length s) (ordered s).

Definition set_context_offsets (f : gmap string (list Z) → gmap string (list Z)) (s : KB) : KB :=
  mkKB (contexts s) (starts s) (ends s) (answers_ s) (f (context_offsets s))
       (span_offsets s) (vocab s) (answer_vocab s) (count s) (answer_count s)
       (ids s) (answer_ids s) (max_context_length s) (max_span_length s) (ordered s).

Definition set_span_offsets (f : gmap string (list Z) → gmap string (list Z)) (s : KB) : KB :=
  mkKB (contexts s) (starts s) (ends s) (answers_ s) (context_offsets s)
       (f (span_offsets s)) (vocab s) (answer_vocab s) (count s) (answer_count s)
       (ids s) (answer_ids s) (max_context_length s) (max_span_length s) (ordered s).

Definition set_words (v : list string) (c : list Z) (i : gmap string Z) (s : KB) : KB :=
  mkKB (contexts s) (starts s) (ends s) (answers_ s) (context_offsets s)
       (span_offsets s) v (answer_vocab s) c (answer_count s)
       i (answer_ids s) (max_context_length s) (max_span_length s) (ordered s).

Definition set_answer_words (v : list string) (c : list Z) (i : gmap string Z) (s : KB) : KB :=
  mkKB (contexts s) (starts s) (ends s) (answers_ s) (context_offsets s)
       (span_offsets s) (vocab s) v (count s) c
       (ids s) i (max_context_length s) (max_span_length s) (ordered s).

Definition set_max_lengths (c sp : Z) (s : KB) : KB :=
  mkKB (contexts s) (starts s) (ends s) (answers_ s) (context_offsets s)
       (span_offsets s) (vocab s) (answer_vocab s) (count s) (answer_count s)
       (ids s) (answer_ids s) c sp (ordered s).

Definition set_ordered (b : bool) (s : KB) : KB :=
  mkKB (contexts s) (starts s) (ends s) (answers_ s) (context_offsets s)
       (span_offsets s) (vocab s) (answer_vocab s) (count s) (answer_count s)
       (ids s) (answer_ids s) (max_context_length s) (max_span_length s) b.

(** ** Methods as state transformers that may raise *)

Definition M (S A : Type) : Type := S → (exn + A) * S.

Definition ret {S A} (x : A) : M S A := fun s => (inr x, s).
Definition raise {S A} (e : exn) : M S A := fun s => (inl e, s).
Definition bind {S A B} (m : M S A) (k : A → M S B) : M S B :=
  fun s => match m s with
           | (inr x, s') => k x s'
           | (inl e, s') => (inl e, s')
           end.
Definition get_state {S} : M S S := fun s => (inr s, s).
Definition modify {S} (f : S → S) : M S unit := fun s => (inr tt, f s).
(** [assert b]. *)
Definition assert {S} (b : bool) : M S unit :=
  if b then ret tt else raise AssertionError.
(** A lookup that raises [e] when it finds nothing. *)
Definition lift {S A} (e : exn) (o : option A) : M S A :=
  match o with Some x => ret x | None => raise e end.

Notation "'do' x <- m ; k" := (bind m (fun x => k))
  (at level 10, x name, m at level 100, k at level 200).
Notation "m ;; k" := (bind m (fun _ => k))
  (at level 100, k at level 200, right associativity).

(** [for x in xs: body x]. *)
Fixpoint for_each {S A} (xs : list A) (body : A → M S unit) : M S unit :=
  match xs with
  | [] => ret tt
  | x :: xs' => body x ;; for_each xs' body
  end.

(** ** [KB.__add_to_vocab] and [KB.__add_to_answer_vocab] *)

Definition add_to_vocab (key : string) : M KB Z :=
  do s <- get_state;
  (match ids s !! key with
   | None =>
       modify (set_words (vocab s ++ [key]) (count s ++ [0])
                         (<[key := len (vocab s)]> (ids s)))
   | Some _ => ret tt
   end) ;;
  do s <- get_state;
  do i <- lift KeyError (ids s !! key);
  do c <- lift IndexError (getitem (count s) i);
  do count' <- lift IndexError (setitem (count s) i (c + 1));
  modify (set_words (vocab s) count' (ids s)) ;;
  ret i.

Definition add_to_answer_vocab (key : string) : M KB Z :=
  do s <- get_state;
  (match answer_ids s !! key with
   | None =>
       modify (set_answer_words (answer_vocab s ++ [key]) (answer_count s ++ [0])
                                (<[key := len (answer_vocab s)]> (answer_ids s)))
   | Some _ => ret tt
   end) ;;
  do s <- get_state;
  do i <- lift KeyError (answer_ids s !! key);
  do c <- lift IndexError (getitem (answer_count s) i);
  do count' <- lift IndexError (setitem (answer_count s) i (c + 1));
  modify (set_answer_words (answer_vocab s) count' (answer_ids s)) ;;
  ret i.

(** ** [KB.num_contexts] *)

Definition num_contexts (s : KB) (dataset : string) : Z :=
  len (default [] (context_offsets s !! dataset)).

(** ** [KB.add] *)

(** [d[dataset].append(v)] on a dict of plain lists. *)
Definition list_append_in (rd : KB → gmap string (list Z))
    (wr : (gmap string (list Z) → gmap string (list Z)) → KB → KB)
    (dataset : string) (v : Z) : M KB unit :=
  do s <- get_state;
  do a <- lift KeyError (rd s !! dataset);
  modify (wr (<[dataset := a ++ [v]]>)).

(** [d[dataset].append(v)] on a dict of [array('I')]. *)
Definition array_append_in (rd : KB → gmap string (list Z))
    (wr : (gmap string (list Z) → gmap string (list Z)) → KB → KB)
    (dataset : string) (v : Z) : M KB unit :=
  do s <- get_state;
  do a <- lift KeyError (rd s !! dataset);
  do a' <- lift OverflowError (array_append a v);
  modify (wr (<[dataset := a']>)).

(** [len(d[dataset])]. *)
Definition len_in (rd : KB → gmap string (list Z)) (dataset : string) : M KB Z :=
  do s <- get_state;
  do a <- lift KeyError (rd s !! dataset);
  ret (len a).

(** The block under [if dataset not in self.__contexts]. *)
Definition ensure_partition (dataset : string) : M KB unit :=
  do s <- get_state;
  match contexts s !! dataset with
  | None =>
      modify (set_contexts (<[dataset := []]>)) ;;
      modify (set_starts (<[dataset := []]>)) ;;
      modify (set_ends (<[dataset := []]>)) ;;
      modify (set_answers (<[dataset := []]>)) ;;
      modify (set_context_offsets (<[dataset := []]>)) ;;
      modify (set_span_offsets (<[dataset := []]>))
  | Some _ => ret tt
  end.

(** The two offset-table appends. *)
Definition record_offsets (dataset : string) : M KB unit :=
  do n <- len_in contexts dataset;
  list_append_in context_offsets set_context_offsets dataset n ;;
  do n <- len_in starts dataset;
  list_append_in span_offsets set_span_offsets dataset n.

(** [self.__contexts[dataset].extend(self.__add_to_vocab(w) for w in
    context)]: the array is looked up once, then every token is
    interned and its id appended. *)
Definition extend_contexts (context : list string) (dataset : string) : M KB unit :=
  do s <- get_state;
  lift KeyError (contexts s !! dataset) ;;
  for_each context (fun w =>
    do i <- add_to_vocab w;
    array_append_in contexts set_contexts dataset i).

(** [for span in spans]. *)
Definition append_spans (spans : list (Z * Z)) (dataset : string) : M KB unit :=
  for_each spans (fun span =>
    array_append_in starts set_starts dataset (fst span) ;;
    array_append_in ends set_ends dataset (snd span)).

(** The block under [if answers is not None and self.__answers]; the
    second operand is the truth value of the dict [self.__answers],
    false only when that dict has no key. *)
Definition append_answers (answers : option (list string)) (spans : list (Z * Z))
    (dataset : string) : M KB unit :=
  do s <- get_state;
  match answers with
  | Some answers =>
      if decide (answers_ s = ∅) then ret tt
      else
        assert (len answers =? len spans) ;;
        for_each answers (fun answer =>
          do s <- get_state;
          lift KeyError (answers_ s !! dataset) ;;
          do i <- add_to_answer_vocab answer;
          array_append_in answers_ set_answers dataset i ;;
          do _ <- add_to_vocab answer;
          ret tt)
  | None => ret tt
  end.

Definition update_max (context : list string) (spans : list (Z * Z)) : M KB unit :=
  do s <- get_state;
  modify (set_max_lengths (Z.max (max_context_length s) (len context))
                          (Z.max (max_span_length s) (len spans))).

(** The body of [add] between [try:] and [finally:]. *)
Definition add_body (context : list string) (spans : list (Z * Z))
    (answers : option (list string)) (dataset : string) : M KB unit :=
  assert (0 <? len spans) ;;
  ensure_partition dataset ;;
  record_offsets dataset ;;
  extend_contexts context dataset ;;
  append_spans spans dataset ;;
  append_answers answers spans dataset ;;
  update_max context spans.

Definition add (context : list string) (spans : list (Z * Z))
    (answers : option (list string)) (dataset : string) : M KB Z :=
  modify (set_ordered false) ;;
  add_body context spans answers dataset ;;
  do s <- get_state;
  ret (num_contexts s dataset - 1).

(** ** [KB.context], [KB.spans], [KB.answers] *)

Definition context (s : KB) (i : Z) (dataset : string) : exn + list Z :=
  match context_offsets s !! dataset with
  | None => inl KeyError
  | Some offs =>
      match getitem offs i with
      | None => inl IndexError
      | Some offset =>
          let end_ :=
            if i + 1 <? len offs then
              match getitem offs (i + 1) with
              | None => inl IndexError
              | Some e => inr e
              end
            else
              match contexts s !! dataset with
              | None => inl KeyError
              | Some c => inr (len c)
              end in
          match end_ with
          | inl e => inl e
          | inr end_ =>
              match contexts s !! dataset with
              | None => inl KeyError
              | Some c => inr (slice c offset end_)
              end
          end
      end
  end.

Definition spans (s : KB) (i : Z) (dataset : string) : exn + (list Z * list Z) :=
  match span_offsets s !! dataset with
  | None => inl KeyError
  | Some offs =>
      match getitem offs i with
      | None => inl IndexError
      | Some offset =>
          let end_ :=
            if i + 1 <? len offs then
              match getitem offs (i + 1) with
              | None => inl IndexError
              | Some e => inr e
              end
            else
              match starts s !! dataset with
              | None => inl KeyError
              | Some c => inr (len c)
              end in
          match end_ with
          | inl e => inl e
          | inr end_ =>
              match starts s !! dataset, ends s !! dataset with
              | Some st, Some en => inr (slice st offset end_, slice en offset end_)
              | _, _ => inl KeyError
              end
          end
      end
  end.

(** In the branch taken when the answer dict is empty the source
    evaluates [self.context(dataset, i)], with the two arguments in the
    opposite order of [context]'s parameters: [context] then looks the
    integer [i] up in a dict whose keys are dataset names and raises
    [KeyError], once for the first position of the comprehension. *)
Definition answers (s : KB) (i : Z) (dataset : string) : exn + list Z :=
  match span_offsets s !! dataset with
  | None => inl KeyError
  | Some offs =>
      match getitem offs i with
      | None => inl IndexError
      | Some offset =>
          let end_ :=
            if i + 1 <? len offs then
              match getitem offs (i + 1) with
              | None => inl IndexError
              | Some e => inr e
              end
            else
              match answers_ s !! dataset with
              | None => inl KeyError
              | Some c => inr (len c)
              end in
          match end_ with
          | inl e => inl e
          | inr end_ =>
              if decide (answers_ s = ∅) then
                match starts s !! dataset with
                | None => inl KeyError
                | Some st =>
                    match slice st (offset * 2) (end_ * 2) with
                    | [] => inr []
                    | _ :: _ => inl KeyError
                    end
                end
              else
                match answers_ s !! dataset with
                | None => inl KeyError
                | Some a => inr (slice a offset end_)
                end
          end
      end
  end.

(** [[vocab[k] for k in ks]]: a stored context read back as tokens. *)
Definition decode (s : KB) (ks : list Z) : option (list string) :=
  mapM (getitem (vocab s)) ks.


(** ** [KB.order_vocab_by_freq] *)

(** [x] fits an [array('I')] slot. *)
Definition fits_uint (x : Z) : bool := (0 <=? x) && (x <=? UINT_MAX).

(** The loop [for i, k in enumerate(sorted)], from position [i] on. *)
Fixpoint reorder_loop (v : list string) (c : list Z) (sorted : list nat) (i : Z)
    (mapping : list Z) (new_vocab : list string) (new_counts : list Z)
    : option (list Z * list string * list Z) :=
  match sorted with
  | [] => Some (mapping, new_vocab, new_counts)
  | k :: rest =>
      mapping' ← setitem mapping (Z.of_nat k) i;
      w ← getitem v (Z.of_nat k);
      x ← getitem c (Z.of_nat k);
      reorder_loop v c rest (i + 1) mapping' (new_vocab ++ [w]) (new_counts ++ [x])
  end.

(** [for i in range(len(ctxt)): ctxt[i] = mapping[ctxt[i]]] on one
    [array('I')]. *)
Definition remap_array (mapping : list Z) (ctxt : list Z) : option (list Z) :=
  mapM (λ x, v ← getitem mapping x; if fits_uint v then Some v else None) ctxt.

(** A loop over the items of a dict that replaces every value; [None]
    when the replacement of some value raises. *)
Definition dict_mapM {A B} (f : A → option B) (m : gmap string A)
    : option (gmap string B) :=
  if decide (map_Forall (λ _ x, is_Some (f x)) m) then Some (omap f m) else None.

Section Reordering.

(** [np.argsort] belongs to NumPy, not to this repository: it is a
    parameter. Its result lists the positions of the array it is
    given. *)
Variable argsort : list Z → list nat.

(** [None]: the call raised ([IndexError] or [OverflowError]); the
    state a raising call leaves behind is not described. *)
Definition order_vocab_by_freq (s : KB) : option KB :=
  if ordered s then Some s
  else
    let sorted := reverse (argsort (count s)) in
    let mapping := replicate (length (vocab s)) 0 in
    '(mapping, new_vocab, new_counts) ←
       reorder_loop (vocab s) (count s) sorted 0 mapping [] [];
    ids' ← dict_mapM (getitem mapping) (ids s);
    contexts' ← dict_mapM (remap_array mapping) (contexts s);
    Some (set_ordered true
            (set_contexts (λ _, contexts') (set_words new_vocab new_counts ids' s))).

End Reordering.

(** An [np.argsort] that keeps equal counts in their original order
    (insertion sort, which NumPy's default sort runs on short arrays). *)
Fixpoint insert_by (c : list Z) (k : nat) (ks : list nat) : list nat :=
  match ks with
  | [] => [k]
  | j :: ks' =>
      if bool_decide (default 0 (c !! j) ≤ default 0 (c !! k))
      then j :: insert_by c k ks'
      else k :: j :: ks'
  end.

Definition stable_argsort (c : list Z) : list nat :=
  foldl (λ acc k, insert_by c k acc) [] (seq 0 (length c)).

(** ** The state of a [FactKB] object *)

Record FactKB := mkFactKB {
  kb : KB;
  entity_vocab : list string;
  entity_ids : gmap string Z;
  entity_ctxt : gmap string (list (list Z));
  entity_ctxt_span : gmap string (list (list (Z * Z)));
  facts : gmap string (list Z)
}.

(** [FactKB.__init__]; [kb=None] is [FactKB_init KB_init]. *)
Definition FactKB_init (k : KB) : FactKB := mkFactKB k [] ∅ ∅ ∅ ∅.

Definition set_kb (k : KB) (s : FactKB) : FactKB :=
  mkFactKB k (entity_vocab s) (entity_ids s) (entity_ctxt s) (entity_ctxt_span s) (facts s).

Definition set_entities (v : list string) (i : gmap string Z) (s : FactKB) : FactKB :=
  mkFactKB (kb s) v i (entity_ctxt s) (entity_ctxt_span s) (facts s).

Definition set_entity_ctxt (f : gmap string (list (list Z)) → gmap string (list (list Z)))
    (s : FactKB) : FactKB :=
  mkFactKB (kb s) (entity_vocab s) (entity_ids s) (f (entity_ctxt s)) (entity_ctxt_span s) (facts s).

Definition set_entity_ctxt_span
    (f : gmap string (list (list (Z * Z))) → gmap string (list (list (Z * Z))))
    (s : FactKB) : FactKB :=
  mkFactKB (kb s) (entity_vocab s) (entity_ids s) (entity_ctxt s) (f (entity_ctxt_span s)) (facts s).

Definition set_facts (f : gmap string (list Z) → gmap string (list Z)) (s : FactKB) : FactKB :=
  mkFactKB (kb s) (entity_vocab s) (entity_ids s) (entity_ctxt s) (entity_ctxt_span s) (f (facts s)).

(** A call of a method of [self.__kb]. *)
Definition on_kb {A} (m : M KB A) : M FactKB A :=
  fun s => let '(r, k) := m (kb s) in (r, set_kb k s).

(** ** [FactKB.add] *)

(** [d[dataset].append(x)] on a dict of lists. *)
Definition append_in {A} (rd : FactKB → gmap string (list A))
    (wr : (gmap string (list A) → gmap string (list A)) → FactKB → FactKB)
    (dataset : string) (x : A) : M FactKB unit :=
  do s <- get_state;
  do l <- lift KeyError (rd s !! dataset);
  modify (wr (<[dataset := l ++ [x]]>)).

(** [d[dataset][id].append(x)] on a dict of lists of lists. *)
Definition append_at {A} (rd : FactKB → gmap string (list (list A)))
    (wr : (gmap string (list (list A)) → gmap string (list (list A))) → FactKB → FactKB)
    (dataset : string) (id : Z) (x : A) : M FactKB unit :=
  do s <- get_state;
  do l <- lift KeyError (rd s !! dataset);
  do mentions <- lift IndexError (getitem l id);
  do l' <- lift IndexError (setitem l id (mentions ++ [x]));
  modify (wr (<[dataset := l']>)).

(** The datasets of [self.__entity_ctxt], as the loop [for ds in
    self.__entity_ctxt] visits them. Python visits them in insertion
    order, this list has them in key order: the loop body touches only
    the entry of [ds], so the order shows only in the state that a
    [KeyError] raised half way would leave. *)
Definition datasets_of (s : FactKB) : list string :=
  (map_to_list (entity_ctxt s)).*1.

(** The body of [add] after the call of [self.__kb.add]. *)
Definition index_fact (fact_id : Z) (entities : list string)
    (entity_spans : list (Z * Z)) (dataset : string) : M FactKB unit :=
  do s <- get_state;
  (match facts s !! dataset with
   | None =>
       modify (set_facts (<[dataset := []]>)) ;;
       modify (set_entity_ctxt (<[dataset := replicate (size (entity_ids s)) []]>)) ;;
       modify (set_entity_ctxt_span (<[dataset := replicate (size (entity_ids s)) []]>))
   | Some _ => ret tt
   end) ;;
  for_each (zip entities entity_spans) (fun e_span =>
    let e := fst e_span in
    do s <- get_state;
    (match entity_ids s !! e with
     | None =>
         modify (set_entities (entity_vocab s ++ [e])
                              (<[e := len (entity_vocab s)]> (entity_ids s))) ;;
         for_each (datasets_of s) (fun ds =>
           append_in entity_ctxt set_entity_ctxt ds [] ;;
           append_in entity_ctxt_span set_entity_ctxt_span ds [])
     | Some _ => ret tt
     end) ;;
    do s <- get_state;
    do id <- lift KeyError (entity_ids s !! e);
    append_at entity_ctxt set_entity_ctxt dataset id fact_id ;;
    append_at entity_ctxt_span set_entity_ctxt_span dataset id (snd e_span) ;;
    append_in facts set_facts dataset fact_id).

(** The parameter [fact] is the token list: the branch that splits a
    string at white space first is not part of the model. *)
Definition fact_add (fact : list string) (entity_spans : list (Z * Z))
    (entities : option (list string)) (dataset : string) : M FactKB Z :=
  assert (match entities with
          | None => true
          | Some es => len es =? len entity_spans
          end) ;;
  let entities :=
    match entities with
    | None => map (λ span, join "_" (slice fact (fst span) (snd span))) entity_spans
    | Some es => es
    end in
  do fact_id <- on_kb (add fact entity_spans (Some entities) dataset);
  index_fact fact_id entities entity_spans dataset ;;
  ret fact_id.

(** ** [FactKB.facts_about], [FactKB.fact_from_id], [FactKB.fact_entities] *)

(** [entity] is a name ([inl]) or an id ([inr]). *)
Definition facts_about (s : FactKB) (entity : string + Z) (dataset : string)
    : exn + list Z :=
  let id := match entity with
            | inl name => entity_ids s !! name
            | inr id => Some id
            end in
  match id with
  | None => inr []
  | Some id =>
      match entity_ctxt s !! dataset with
      | None => inl KeyError
      | Some l => match getitem l id with
                  | None => inl IndexError
                  | Some fs => inr fs
                  end
      end
  end.

Definition fact_from_id (s : FactKB) (fact_id : Z) (dataset : string) : exn + list Z :=
  context (kb s) fact_id dataset.

Definition fact_entities (s : FactKB) (fact_id : Z) (dataset : string)
    : exn + (list Z * list (Z * Z)) :=
  match entity_ctxt s !! dataset with
  | None => inl KeyError
  | Some l =>
      match getitem l fact_id with
      | None => inl IndexError
      | Some fs =>
          match entity_ctxt_span s !! dataset with
          | None => inl KeyError
          | Some l' =>
              match getitem l' fact_id with
              | None => inl IndexError
              | Some sps => inr (fs, sps)
              end
          end
      end
  end.

(** ** Well-formed stores and the stores a program can build *)

(** The word vocabulary: one count per symbol, and [ids] the inverse of
    [vocab]. *)
Definition wf_words (v : list string) (c : list Z) (m : gmap string Z) : Prop :=
  length v = length c ∧
  ∀ w k, m !! w = Some k ↔ 0 ≤ k ∧ v !! Z.to_nat k = Some w.

(** Every stored token id is an index of the vocabulary. *)
Definition ctx_in_range (v : list string) (C : gmap string (list Z)) : Prop :=
  ∀ ds c, C !! ds = Some c → Forall (λ k, 0 ≤ k < len v) c.

Definition wf_vocab (s : KB) : Prop :=
  wf_words (vocab s) (count s) (ids s) ∧ ctx_in_range (vocab s) (contexts s).

(** [for all i < j, c[i] >= c[j]]. *)
Definition sorted_desc (c : list Z) : Prop :=
  ∀ i j x y, (i < j)%nat → c !! i = Some x → c !! j = Some y → y ≤ x.

Definition kb_wf (s : KB) : Prop :=
  wf_vocab s ∧ (ordered s = true → sorted_desc (count s)).

(** What NumPy documents of [np.argsort]: the result is a permutation
    of the positions of its argument, along which the values ascend. *)
Definition argsort_contract (argsort : list Z → list nat) : Prop :=
  (∀ c, argsort c ≡ₚ seq 0 (length c)) ∧
  (∀ c i j a b x y, (i ≤ j)%nat →
     argsort c !! i = Some a → argsort c !! j = Some b →
     c !! a = Some x → c !! b = Some y → x ≤ y).

(** The stores reached from [KB()] by calls of [add], whatever their
    outcome, and by calls of [order_vocab_by_freq] that return. *)
Inductive reachable (argsort : list Z → list nat) : KB → Prop :=
| reach_init : reachable argsort KB_init
| reach_add s context spans answers dataset :
    reachable argsort s →
    reachable argsort (snd (add context spans answers dataset s))
| reach_order s s' :
    reachable argsort s →
    order_vocab_by_freq argsort s = Some s' →
    reachable argsort s'.

(** The tokens of stored context [i]. *)
Definition decode_context (s : KB) (i : Z) (dataset : string) : option (list string) :=
  match context s i dataset with
  | inr ks => decode s ks
  | inl _ => None
  end.

(** A run of [add] calls into one partition: for each call its outcome
    and the value of [num_contexts] when it returned. *)
Definition call : Type := list string * list (Z * Z) * option (list string).

Fixpoint run_adds (dataset : string) (calls : list call) (s : KB)
    : list ((exn + Z) * Z) * KB :=
  match calls with
  | [] => ([], s)
  | (c, sp, a) :: rest =>
      let '(r, s1) := add c sp a dataset s in
      let '(rs, s2) := run_adds dataset rest s1 in
      ((r, num_contexts s1 dataset) :: rs, s2)
  end.

Definition succeeded {A} (r : exn + A) : Prop :=
  match r with inr _ => True | inl _ => False end.

(** The start offsets of the blocks [xs] laid out one after the other. *)
Definition offsets {A} (xs : list (list A)) : list Z :=
  (λ k, len (concat (take k xs))) <$> seq 0 (length xs).

(** The entity index of a [FactKB]: every per-partition mention array
    has one slot per entity. *)
Definition aligned (s : FactKB) : Prop :=
  ∀ ds,
    (∀ l, entity_ctxt s !! ds = Some l → length l = length (entity_vocab s)) ∧
    (∀ l, entity_ctxt_span s !! ds = Some l → length l = length (entity_vocab s)).

Definition fkb_inv (s : FactKB) : Prop :=
  size (entity_ids s) = length (entity_vocab s) ∧
  (∀ e id, entity_ids s !! e = Some id → 0 ≤ id < len (entity_vocab s)) ∧
  (∀ ds, is_Some (facts s !! ds) ↔ is_Some (entity_ctxt s !! ds)) ∧
  (∀ ds, is_Some (entity_ctxt s !! ds) ↔ is_Some (entity_ctxt_span s !! ds)) ∧
  aligned s.

(** The index while the loop [for ds in self.__entity_ctxt] runs for a
    new entity: the entity is in the vocabulary, the partitions in
    [done_c] (resp. [done_s]) have their new slot in [entity_ctxt]
    (resp. [entity_ctxt_span]), the others of [keys] still lack it. *)
Definition backfilling (keys done_c done_s : list string) (s : FactKB) : Prop :=
  size (entity_ids s) = length (entity_vocab s) ∧
  (∀ e id, entity_ids s !! e = Some id → 0 ≤ id < len (entity_vocab s)) ∧
  (∀ ds, is_Some (facts s !! ds) ↔ is_Some (entity_ctxt s !! ds)) ∧
  (∀ ds, is_Some (entity_ctxt s !! ds) ↔ is_Some (entity_ctxt_span s !! ds)) ∧
  (∀ ds, is_Some (entity_ctxt s !! ds) ↔ ds ∈ keys) ∧
  (∀ ds l, entity_ctxt s !! ds = Some l →
     (length l + (if decide (ds ∈ done_c) then 0 else 1))%nat
     = length (entity_vocab s)) ∧
  (∀ ds l, entity_ctxt_span s !! ds = Some l →
     (length l + (if decide (ds ∈ done_s) then 0 else 1))%nat
     = length (entity_vocab s)).

(** A store with two partitions, the second created when entities
    exist already. *)
Definition two_partitions : FactKB :=
  snd (fact_add ["Rome"; "in"; "Italy"] [(0, 1); (2, 3)] None "valid"
        (snd (fact_add ["Paris"; "in"; "France"] [(0, 1); (2, 3)] None "train"
               (FactKB_init KB_init)))).

(** The stores reached from [FactKB(kb)] by calls of [add], whatever
    their outcome. *)
Inductive fkb_reachable : FactKB → Prop :=
| fkb_reach_init k : fkb_reachable (FactKB_init k)
| fkb_reach_add s fact entity_spans entities dataset :
    fkb_reachable s →
    fkb_reachable (snd (fact_add fact entity_spans entities dataset s)).

(** A renumbering of the vocabulary: [sorted] lists the old ids in the
    order of their new ids, [mapping] sends an old id to its new id. *)
Record renumbered (sorted : list nat) (mapping : list Z) (s s' : KB) : Prop := {
  rn_vocab : Forall2 (λ k w, vocab s !! k = Some w) sorted (vocab s');
  rn_count : Forall2 (λ k x, count s !! k = Some x) sorted (count s');
  rn_mapping : ∀ j k, sorted !! j = Some k → mapping !! k = Some (Z.of_nat j);
  rn_ids : ∀ w, ids s' !! w = ids s !! w ≫= getitem mapping;
  rn_contexts : ∀ ds, contexts s' !! ds = contexts s !! ds ≫= remap_array mapping
}.

(** The order [stable_argsort] sorts along. *)
Definition count_le (c : list Z) (a b : nat) : Prop :=
  default 0 (c !! a) ≤ default 0 (c !! b).

(** A store in which ["a"] and ["b"] have the same count. *)
Definition tied : KB := snd (add ["a"; "b"] [(0, 1)] None "train" KB_init).

(** A store with two partitions in which ["a"] and ["c"] have the same
    count. *)
Definition sample : KB :=
  snd (add ["c"; "b"; "a"; "c"; "d"; "c"] [(1, 2)] None "valid"
        (snd (add ["a"; "b"; "a"] [(1, 2)] None "train" KB_init))).

(** The arrays of partition [ds]: the packed context array [cs] reads
    as the tokens [ws] through the vocabulary, and the four other
    arrays are as given. *)
Definition arrays (ds : string) (cs : list Z) (ws : list string)
    (offs sts ens soffs : list Z) (s : KB) : Prop :=
  wf_vocab s ∧
  contexts s !! ds = Some cs ∧
  Forall2 (λ k w, getitem (vocab s) k = Some w) cs ws ∧
  context_offsets s !! ds = Some offs ∧
  starts s !! ds = Some sts ∧
  ends s !! ds = Some ens ∧
  span_offsets s !! ds = Some soffs.

(** The start positions and the end positions of span lists. *)
Definition span_starts (sps : list (list (Z * Z))) : list (list Z) :=
  fmap (M := list) (fmap (M := list) fst) sps.

Definition span_ends (sps : list (list (Z * Z))) : list (list Z) :=
  fmap (M := list) (fmap (M := list) snd) sps.

(** Partition [ds] holds the contexts [toks] with the span lists [sps],
    one block per context. *)
Definition holds (ds : string) (toks : list (list string))
    (sps : list (list (Z * Z))) (s : KB) : Prop :=
  ∃ cs, arrays ds cs (concat toks) (offsets toks)
          (concat (span_starts sps)) (concat (span_ends sps))
          (offsets (span_starts sps)) s.

(** The same, or nothing was stored and the partition does not exist. *)
Definition stored (ds : string) (toks : list (list string))
    (sps : list (list (Z * Z))) (s : KB) : Prop :=
  (toks = [] ∧ sps = [] ∧ contexts s !! ds = None ∧ wf_vocab s) ∨
  holds ds toks sps s.

(** What every statement of [add] keeps, once the flag is reset. *)
Definition unordered_wf (s : KB) : Prop := wf_vocab s ∧ ordered s = false.

(** A store with two contexts in ["train"]. *)
Definition two_contexts : KB :=
  snd (add ["c"] [(0, 1)] None "train"
        (snd (add ["a"; "b"] [(0, 1)] None "train" KB_init))).

(** ** [KB.id], [KB.answer_id], [KB.answer_id_to_word_id] *)

(** [KB.id]: the id of [word], or [fallback]. *)
Definition kb_id (s : KB) (word : string) (fallback : Z) : Z :=
  default fallback (ids s !! word).

Definition answer_id (s : KB) (answer : string) (fallback : Z) : Z :=
  default fallback (answer_ids s !! answer).

(** [self.id(w)] is called with the default [fallback], -1. *)
Definition answer_id_to_word_id (s : KB) (a : Z) : exn + Z :=
  match getitem (answer_vocab s) a with
  | None => inl IndexError
  | Some w => inr (kb_id s w (-1))
  end.

(** [FactKB.id]. *)
Definition entity_id (s : FactKB) (entity : string) (fallback : Z) : Z :=
  default fallback (entity_ids s !! entity).

(** ** [KB.values], [KB.load_values], [FactKB.values], [FactKB.load_values] *)

(** The list [values()] returns, as a tuple with the fields in the
    order of the source. *)
Definition KB_values : Type :=
  gmap string (list Z) * gmap string (list Z) * gmap string (list Z) *
  gmap string (list Z) *
  list string * gmap string Z * list string * gmap string Z *
  list Z * list Z *
  gmap string (list Z) * gmap string (list Z) * bool * Z * Z.

Definition values (s : KB) : KB_values :=
  (contexts s, starts s, ends s, answers_ s,
   vocab s, ids s, answer_vocab s, answer_ids s,
   count s, answer_count s,
   context_offsets s, span_offsets s, ordered s,
   max_context_length s, max_span_length s).

Definition load_values (v : KB_values) : KB :=
  let '(contexts', starts', ends', answers',
        vocab', ids', answer_vocab', answer_ids',
        count', answer_count',
        context_offsets', span_offsets', ordered',
        max_context_length', max_span_length') := v in
  mkKB contexts' starts' ends' answers' context_offsets' span_offsets'
       vocab' answer_vocab' count' answer_count' ids' answer_ids'
       max_context_length' max_span_length' ordered'.

(** The first five items, then the items of [self.__kb.values()]. *)
Definition FactKB_values : Type :=
  list string * gmap string Z * gmap string (list (list Z)) *
  gmap string (list (list (Z * Z))) * gmap string (list Z) * KB_values.

Definition fact_values (s : FactKB) : FactKB_values :=
  (entity_vocab s, entity_ids s, entity_ctxt s, entity_ctxt_span s, facts s,
   values (kb s)).

Definition fact_load_values (v : FactKB_values) : FactKB :=
  let '(entity_vocab', entity_ids', entity_ctxt', entity_ctxt_span', facts', kbv) := v in
  mkFactKB (load_values kbv) entity_vocab' entity_ids' entity_ctxt'
           entity_ctxt_span' facts'.

(** ** More properties of stores *)

(** How often [w] occurs in [l]. *)
Definition occurrences (w : string) (l : list string) : Z :=
  len (filter (λ x, x = w) l).

(** [count[id(w)]], 0 for a symbol without id. *)
Definition count_of (s : KB) (w : string) : Z :=
  match ids s !! w with
  | Some k => default 0 (getitem (count s) k)
  | None => 0
  end.

(** The six dicts of a [KB] have the same datasets. *)
Definition same_partitions (s : KB) : Prop :=
  ∀ ds,
    (is_Some (contexts s !! ds) ↔ is_Some (starts s !! ds)) ∧
    (is_Some (contexts s !! ds) ↔ is_Some (ends s !! ds)) ∧
    (is_Some (contexts s !! ds) ↔ is_Some (answers_ s !! ds)) ∧
    (is_Some (contexts s !! ds) ↔ is_Some (context_offsets s !! ds)) ∧
    (is_Some (contexts s !! ds) ↔ is_Some (span_offsets s !! ds)).

(** Every recorded context offset is a position of the packed array. *)
Definition offsets_in_range (s : KB) : Prop :=
  ∀ ds offs cs,
    context_offsets s !! ds = Some offs → contexts s !! ds = Some cs →
    Forall (λ o, 0 ≤ o ≤ len cs) offs.

(** Every answer whose id fits an array slot is a word too; [pending]
    is an answer that is being added. *)
Definition answers_known (pending : option (string * Z)) (s : KB) : Prop :=
  ∀ (k : nat) w,
    answer_vocab s !! k = Some w → Z.of_nat k ≤ UINT_MAX →
    is_Some (ids s !! w) ∨ pending = Some (w, Z.of_nat k).

Definition consistent_with (pending : option (string * Z)) (s : KB) : Prop :=
  wf_vocab s ∧
  wf_words (answer_vocab s) (answer_count s) (answer_ids s) ∧
  same_partitions s ∧
  offsets_in_range s ∧
  answers_known pending s.

Definition kb_consistent (s : KB) : Prop := consistent_with None s.

(** [x] fits a slot of an [array('I')]. *)
Definition fits (x : Z) : Prop := 0 ≤ x ≤ UINT_MAX.

(** The entity vocabulary: [entity_ids] is the inverse of
    [entity_vocab]. *)
Definition entities_wf (s : FactKB) : Prop :=
  ∀ e k, entity_ids s !! e = Some k ↔ 0 ≤ k ∧ entity_vocab s !! Z.to_nat k = Some e.

(** A store whose contexts came with answers. *)
Definition answered : KB :=
  snd (add ["b"; "c"; "a"] [(1, 2); (2, 3)] (Some ["y"; "x"]) "train"
        (snd (add ["a"; "b"] [(0, 1)] (Some ["x"]) "train" KB_init))).

(** The partition [ds] exists in all six dicts, with [m] recorded
    contexts; both vocabularies are well formed, the answer vocabulary
    has at most [na] strings. *)
Definition ready (ds : string) (m na : Z) (s : KB) : Prop :=
  wf_words (vocab s) (count s) (ids s) ∧
  wf_words (answer_vocab s) (answer_count s) (answer_ids s) ∧
  is_Some (contexts s !! ds) ∧ is_Some (starts s !! ds) ∧
  is_Some (ends s !! ds) ∧ is_Some (answers_ s !! ds) ∧
  is_Some (span_offsets s !! ds) ∧
  (∃ offs, context_offsets s !! ds = Some offs ∧ len offs = m) ∧
  len (answer_vocab s) ≤ na.

(** The word vocabulary is well formed, the answer array of [ds]
    exists, and the counts are those of [f]. *)
Definition counted (ds : string) (f : string → Z) (s : KB) : Prop :=
  wf_words (vocab s) (count s) (ids s) ∧
  is_Some (answers_ s !! ds) ∧
  ∀ w, count_of s w = f w.

(** ** Stored answers *)

(** [[answer_vocab[k] for k in ks]]: stored answer ids read back as
    strings. *)
Definition decode_answers (s : KB) (ks : list Z) : option (list string) :=
  mapM (getitem (answer_vocab s)) ks.

(** The answer array [as_] of partition [ds] reads as the strings [ws]
    through the answer vocabulary; [sts] is the array of span starts
    and [soffs] the table of span offsets. *)
Definition answer_arrays (ds : string) (as_ : list Z) (ws : list string)
    (sts soffs : list Z) (s : KB) : Prop :=
  wf_words (answer_vocab s) (answer_count s) (answer_ids s) ∧
  is_Some (contexts s !! ds) ∧
  answers_ s !! ds = Some as_ ∧
  Forall2 (λ k w, 0 ≤ k ∧ answer_vocab s !! Z.to_nat k = Some w) as_ ws ∧
  starts s !! ds = Some sts ∧
  span_offsets s !! ds = Some soffs.

(** Partition [ds] holds the answers [anss], one block per context and
    one answer per span; or nothing was stored and the partition does
    not exist. *)
Definition answers_stored (ds : string) (anss : list (list string)) (s : KB) : Prop :=
  (anss = [] ∧ contexts s !! ds = None ∧
   wf_words (answer_vocab s) (answer_count s) (answer_ids s)) ∨
  ∃ as_ sts, answer_arrays ds as_ (concat anss) sts (offsets anss) s ∧
             length sts = length as_.

(** The answers a run of [add] calls was given. *)
Definition given_answers (calls : list call) : list (list string) :=
  (λ c : call, default [] c.2) <$> calls.

(** ** The context a call of [add] is storing *)

(** Partition [ds] while [add] runs: the packed array was [cs] and the
    offset table [offs] when the call began; the offset of the new
    context is recorded, and the ids [new] stored behind [cs] read as
    the tokens [ws]. *)
Definition new_block (ds : string) (cs offs new : list Z) (ws : list string)
    (s : KB) : Prop :=
  wf_words (vocab s) (count s) (ids s) ∧
  contexts s !! ds = Some (cs ++ new) ∧
  context_offsets s !! ds = Some (offs ++ [len cs]) ∧
  Forall2 (λ k w, 0 ≤ k ∧ vocab s !! Z.to_nat k = Some w) new ws.

(** ** The entity index of a [FactKB] *)

(** The entity names [FactKB.add] uses: those given, or for every span
    the tokens of the span joined with ["_"]. *)
Definition entity_names (fact : list string) (entity_spans : list (Z * Z))
    (entities : option (list string)) : list string :=
  match entities with
  | None => map (λ span, join "_" (slice fact (fst span) (snd span))) entity_spans
  | Some es => es
  end.

(** Slot [id] of partition [ds] of a mention table holds [x]. *)
Definition slot_has {A} (tbl : gmap string (list (list A))) (ds : string)
    (id : Z) (x : A) : Prop :=
  ∃ l m, tbl !! ds = Some l ∧ l !! Z.to_nat id = Some m ∧ x ∈ m.

(** Entity [e] has an id, and its slots of partition [ds] hold the
    fact [fact_id] and the span [sp]. *)
Definition indexed (ds : string) (fact_id : Z) (e : string) (sp : Z * Z)
    (s : FactKB) : Prop :=
  ∃ id, entity_ids s !! e = Some id ∧ 0 ≤ id ∧
        slot_has (entity_ctxt s) ds id fact_id ∧
        slot_has (entity_ctxt_span s) ds id sp.

(** No entity id is negative. *)
Definition ids_nonneg (s : FactKB) : Prop :=
  ∀ e id, entity_ids s !! e = Some id → 0 ≤ id.

(** Every slot of [l] is a slot of [l'], with more mentions behind
    those it had. *)
Definition slots_grow {A} (l l' : list (list A)) : Prop :=
  ∀ i m, l !! i = Some m → ∃ m', l' !! i = Some m' ∧ m `prefix_of` m'.

Definition table_grows {A} (T0 T : gmap string (list (list A))) : Prop :=
  ∀ p l, T0 !! p = Some l → ∃ l', T !! p = Some l' ∧ slots_grow l l'.

(** The entity index of [s] extends that of [s0]: the entities of
    [s0] have their ids, and the mention tables have grown. *)
Definition index_grows (s0 s : FactKB) : Prop :=
  entity_ids s0 ⊆ entity_ids s ∧
  table_grows (entity_ctxt s0) (entity_ctxt s) ∧
  table_grows (entity_ctxt_span s0) (entity_ctxt_span s).

(** The mention table [T] has, for partition [p], the slots it had in
    [T0], and maybe new ones behind them. *)
Definition slots_kept {A} (p : string) (T0 T : gmap string (list (list A))) : Prop :=
  match T0 !! p with
  | None => T !! p = None
  | Some l0 => ∃ l, T !! p = Some l ∧ l0 `prefix_of` l
  end.

(** Partition [p] of [s] is as in [s0]: the entities of [s0] have their
    ids, the slots of [p] are kept, and the [KB] reads the same
    contexts. *)
Definition partition_kept (p : string) (s0 s : FactKB) : Prop :=
  entity_ids s0 ⊆ entity_ids s ∧
  slots_kept p (entity_ctxt s0) (entity_ctxt s) ∧
  slots_kept p (entity_ctxt_span s0) (entity_ctxt_span s) ∧
  ∀ i, context (kb s) i p = context (kb s0) i p.

(** ** Hoare triples for methods

    [triple P m Q E]: from a state in [P], [m] either returns [x] in a
    state in [Q x] or raises in a state in [E]. *)
Definition triple {S A} (P : S → Prop) (m : M S A) (Q : A → S → Prop)
    (E : S → Prop) : Prop :=
  ∀ s, P s → match m s with
             | (inr x, s') => Q x s'
             | (inl _, s') => E s'
             end.

(** * Properties *)

(** ** Python sequences *)

Section PySeq.
Context {A : Type}.
Implicit Types (l : list A) (i : Z).

Lemma getitem_nonneg l i : 0 ≤ i → getitem l i = l !! Z.to_nat i.
Proof. intros H. unfold getitem. destruct (Z.leb_spec 0 i); [done | lia]. Qed.

Lemma getitem_of_nat l (k : nat) : getitem l (Z.of_nat k) = l !! k.
Proof. rewrite getitem_nonneg by lia. by rewrite Nat2Z.id. Qed.

Lemma getitem_neg l i : - len l ≤ i < 0 → getitem l i = getitem l (len l + i).
Proof.
  intros H. rewrite (getitem_nonneg _ (len l + i)) by lia.
  unfold getitem. destruct (Z.leb_spec 0 i); [lia |].
  destruct (Z.leb_spec (- len l) i); [done | lia].
Qed.

Lemma getitem_out_of_range l i : i < - len l ∨ len l ≤ i → getitem l i = None.
Proof.
  intros H. unfold getitem, len in *.
  destruct (Z.leb_spec 0 i).
  - apply lookup_ge_None. lia.
  - destruct (Z.leb_spec (- Z.of_nat (length l)) i); [lia | done].
Qed.

Lemma getitem_in_range l i : - len l ≤ i < len l → is_Some (getitem l i).
Proof.
  intros H. unfold getitem, len in *.
  destruct (Z.leb_spec 0 i).
  - apply lookup_lt_is_Some. lia.
  - destruct (Z.leb_spec (- Z.of_nat (length l)) i); [| lia].
    apply lookup_lt_is_Some. lia.
Qed.

Lemma setitem_of_nat l (k : nat) x :
  (k < length l)%nat → setitem l (Z.of_nat k) x = Some (<[k := x]> l).
Proof.
  intros H. unfold setitem, len.
  destruct (Z.leb_spec 0 (Z.of_nat k)); [| lia].
  destruct (Z.ltb_spec (Z.of_nat k) (Z.of_nat (length l))); [| lia].
  by rewrite Nat2Z.id.
Qed.

Lemma setitem_nonneg l i x :
  0 ≤ i < len l → setitem l i x = Some (<[Z.to_nat i := x]> l).
Proof.
  intros H. rewrite <- (Z2Nat.id i) at 1 by lia.
  apply setitem_of_nat. unfold len in H. lia.
Qed.

Lemma slice_nonneg l (a b : nat) :
  (a ≤ b ≤ length l)%nat →
  slice l (Z.of_nat a) (Z.of_nat b) = take (b - a) (drop a l).
Proof.
  intros H. unfold slice, clamp, len.
  destruct (Z.ltb_spec (Z.of_nat a) 0); [lia |].
  destruct (Z.ltb_spec (Z.of_nat b) 0); [lia |].
  rewrite !Z.min_l by lia. f_equal; [lia |]. f_equal. lia.
Qed.

End PySeq.

(** ** Rules for triples *)

Section Triples.
Context {S : Type}.
Implicit Types (P E : S → Prop).

Lemma triple_ret {A} P (Q : A → S → Prop) E x :
  (∀ s, P s → Q x s) → triple P (ret x) Q E.
Proof. intros H s HP. simpl. auto. Qed.

Lemma triple_raise {A} P (Q : A → S → Prop) E e :
  (∀ s, P s → E s) → triple P (raise e) Q E.
Proof. intros H s HP. simpl. auto. Qed.

Lemma triple_bind {A B} P (R : A → S → Prop) (Q : B → S → Prop) E
    (m : M S A) (k : A → M S B) :
  triple P m R E → (∀ x, triple (R x) (k x) Q E) → triple P (bind m k) Q E.
Proof.
  intros Hm Hk s HP. unfold bind. specialize (Hm s HP).
  destruct (m s) as [[e | x] s1]; [done |]. by apply Hk.
Qed.

Lemma triple_get P E : triple P get_state (λ x s, x = s ∧ P s) E.
Proof. intros s HP. simpl. auto. Qed.

Lemma triple_modify P (Q : unit → S → Prop) E f :
  (∀ s, P s → Q tt (f s)) → triple P (modify f) Q E.
Proof. intros H s HP. simpl. auto. Qed.

Lemma triple_assert P (Q : unit → S → Prop) E b :
  (b = true → ∀ s, P s → Q tt s) → (b = false → ∀ s, P s → E s) →
  triple P (assert b) Q E.
Proof. intros H1 H2 s HP. destruct b; simpl; auto. Qed.

Lemma triple_lift {A} P (Q : A → S → Prop) E e (o : option A) :
  (∀ x, o = Some x → ∀ s, P s → Q x s) → (o = None → ∀ s, P s → E s) →
  triple P (lift e o) Q E.
Proof. intros H1 H2 s HP. destruct o; simpl; auto. Qed.

Lemma triple_conseq {A} P P' (Q Q' : A → S → Prop) E E' m :
  triple P m Q E →
  (∀ s, P' s → P s) → (∀ x s, Q x s → Q' x s) → (∀ s, E s → E' s) →
  triple P' m Q' E'.
Proof.
  intros H HP HQ HE s Hs. specialize (H s (HP s Hs)).
  destruct (m s) as [[e | x] s1]; auto.
Qed.

(** A method read at the state it starts from. *)
Lemma triple_at {A} P (Q : A → S → Prop) E m :
  (∀ s0, P s0 → triple (λ s, s = s0) m Q E) → triple P m Q E.
Proof. intros H s HP. by apply (H s HP). Qed.

Lemma triple_get_bind {A} P (Q : A → S → Prop) E (k : S → M S A) :
  (∀ s0, P s0 → triple (λ s, s = s0) (k s0) Q E) →
  triple P (bind get_state k) Q E.
Proof. intros H s HP. unfold bind, get_state. by apply (H s HP). Qed.

(** A loop whose invariant is indexed by the elements already visited. *)
Lemma triple_for_each {A} (I : list A → S → Prop) E (body : A → M S unit) xs :
  (∀ done x rest, xs = done ++ x :: rest →
     triple (I done) (body x) (λ _, I (done ++ [x])) E) →
  triple (I []) (for_each xs body) (λ _, I xs) E.
Proof.
  intros H.
  cut (∀ rest done, xs = done ++ rest →
         triple (I done) (for_each rest body) (λ _, I xs) E).
  { intros Hc. by apply (Hc xs []). }
  induction rest as [| x rest IH]; intros done Hxs; simpl.
  - apply triple_ret. intros s Hs. rewrite app_nil_r in Hxs. by subst.
  - eapply triple_bind; [by eapply H |].
    intros u. apply IH. by rewrite <- app_assoc.
Qed.

(** A loop that keeps one invariant. *)
Lemma triple_for_each_inv {A} P (body : A → M S unit) xs :
  (∀ x, x ∈ xs → triple P (body x) (λ _, P) P) →
  triple P (for_each xs body) (λ _, P) P.
Proof.
  intros H. apply (triple_for_each (λ _, P)).
  intros done x rest ->. apply H. set_solver.
Qed.

End Triples.

(** What a triple says of one run. *)
Lemma triple_run {S A} (P : S → Prop) (m : M S A) Q E s :
  triple P m Q E → P s →
  match fst (m s) with inr x => Q x (snd (m s)) | inl _ => E (snd (m s)) end.
Proof. intros H HP. specialize (H s HP). by destruct (m s) as [[e | x] s1]. Qed.

(** ** [add]: the two validation errors *)

(** C9. [add] with an empty [spans] list raises the validation error
    ([AssertionError]) and leaves [num_contexts(dataset)] as it was, in
    every store and for every context, answers and dataset: the only
    field the call has changed is the [ordered] flag. *)
Theorem add_no_spans_rejected (s : KB) (context : list string)
    (answers : option (list string)) (dataset : string) :
  fst (add context [] answers dataset s) = inl AssertionError ∧
  num_contexts (snd (add context [] answers dataset s)) dataset
    = num_contexts s dataset ∧
  snd (add context [] answers dataset s) = set_ordered false s.
Proof. repeat split. Qed.

(** C1. On a fresh store, [add(["a"], [(0,1)], answers=["x","y"])]
    (one span, two answers) raises the validation error only after the
    context and its span have been stored: [num_contexts("train")] has
    gone from 0 to 1, the packed context array, the span arrays, both
    offset tables and the vocabulary have grown, and the answer array
    has no entry for the new span. *)
Theorem add_answers_mismatch_mutates :
  let r := add ["a"] [(0, 1)] (Some ["x"; "y"]) "train" KB_init in
  fst r = inl AssertionError ∧
  num_contexts KB_init "train" = 0 ∧
  num_contexts (snd r) "train" = 1 ∧
  contexts (snd r) !! "train" = Some [0] ∧
  starts (snd r) !! "train" = Some [0] ∧
  ends (snd r) !! "train" = Some [1] ∧
  context_offsets (snd r) !! "train" = Some [0] ∧
  span_offsets (snd r) !! "train" = Some [0] ∧
  answers_ (snd r) !! "train" = Some [] ∧
  vocab (snd r) = ["a"] ∧ vocab KB_init = [].
Proof. vm_compute. repeat split. Qed.

(** ** [answers] without supplied answers *)

(** C2. On a fresh store, after [add(["a","b","c"], [(1,2)],
    answers=None)], [answers(0)] returns the empty array, not the token
    at the span start (["b"], id 1): [add] has created the partition's
    answer array, so the dict [self.__answers] is not empty and the
    branch that reads the span starts is not taken. *)
Theorem answers_default_is_empty :
  let r := add ["a"; "b"; "c"] [(1, 2)] None "train" KB_init in
  fst r = inr 0 ∧
  context (snd r) 0 "train" = inr [0; 1; 2] ∧
  spans (snd r) 0 "train" = inr ([1], [2]) ∧
  vocab (snd r) = ["a"; "b"; "c"] ∧
  answers (snd r) 0 "train" = inr [].
Proof. vm_compute. repeat split. Qed.

(** ** [fact_entities] *)

(** C3. On a fresh store, [add(["Paris","is","capital","of","France"],
    [(0,1),(3,4)])] returns fact id 0 and records span (0,1) under
    entity 0 and span (3,4) under entity 1; [fact_entities(0, "train")]
    reads the mention lists of the entity whose id is 0 and returns
    [([0], [(0,1)])], without the span (3,4) of the same fact. *)
Theorem fact_entities_reads_entity_slot :
  let r := fact_add ["Paris"; "is"; "capital"; "of"; "France"]
                    [(0, 1); (3, 4)] None "train" (FactKB_init KB_init) in
  fst r = inr 0 ∧
  entity_ctxt_span (snd r) !! "train" = Some [[(0, 1)]; [(3, 4)]] ∧
  entity_ctxt (snd r) !! "train" = Some [[0]; [0]] ∧
  fact_entities (snd r) 0 "train" = inr ([0], [(0, 1)]).
Proof. vm_compute. repeat split. Qed.

(** ** [context] and indices out of range *)

(** With two stored contexts, [context(-2)] does not fail: it returns
    the first stored context. *)
Lemma context_negative_index_wraps :
  ¬ (∀ (s : KB) (dataset : string) (i : Z),
       is_Some (context_offsets s !! dataset) →
       is_Some (contexts s !! dataset) →
       ¬ (0 ≤ i < num_contexts s dataset) →
       ∃ e, context s i dataset = inl e).
Proof.
  intros H.
  destruct (H two_contexts "train" (-2)) as [e He].
  - vm_compute. eauto.
  - vm_compute. eauto.
  - vm_compute. intros [H1 _]. by apply H1.
  - vm_compute in He. discriminate.
Qed.

(** C8. In an existing partition, [context(i)] raises [IndexError] for
    every [i >= num_contexts] and every [i < -num_contexts]. A negative
    [i] from [-num_contexts] on is not rejected: for [i < -1] the call
    returns what [context(num_contexts + i)] returns, and for [i = -1]
    it returns a slice of the packed array. *)
Theorem context_index_bounds (s : KB) (dataset : string) (i : Z) :
  is_Some (context_offsets s !! dataset) →
  is_Some (contexts s !! dataset) →
  (i < - num_contexts s dataset ∨ num_contexts s dataset ≤ i →
     context s i dataset = inl IndexError) ∧
  (- num_contexts s dataset ≤ i < -1 →
     context s i dataset = context s (num_contexts s dataset + i) dataset) ∧
  (- num_contexts s dataset ≤ i < 0 → ∃ ks, context s i dataset = inr ks).
Proof.
  intros [offs Ho] [c Hc]. unfold num_contexts, context. rewrite Ho, Hc. simpl.
  split; [| split].
  - intros H. by rewrite getitem_out_of_range.
  - intros H. rewrite (getitem_neg offs i) by lia.
    rewrite (getitem_neg offs (i + 1)) by lia.
    replace (len offs + i + 1) with (len offs + (i + 1)) by lia.
    destruct (Z.ltb_spec (i + 1) (len offs)); [| lia].
    destruct (Z.ltb_spec (len offs + (i + 1)) (len offs)); [done | lia].
  - intros H.
    destruct (getitem_in_range offs i) as [o ->]; [lia |].
    destruct (Z.ltb_spec (i + 1) (len offs)); [| lia].
    destruct (getitem_in_range offs (i + 1)) as [o' ->]; [lia |]. eauto.
Qed.

Lemma context_index_bounds_witness :
  context two_contexts 2 "train" = inl IndexError ∧
  context two_contexts (-3) "train" = inl IndexError ∧
  context two_contexts (-2) "train" = context two_contexts 0 "train".
Proof.
  assert (Ho : is_Some (context_offsets two_contexts !! "train"))
    by (vm_compute; eauto).
  assert (Hc : is_Some (contexts two_contexts !! "train"))
    by (vm_compute; eauto).
  split; [| split].
  - apply (proj1 (context_index_bounds two_contexts "train" 2 Ho Hc)).
    right. vm_compute. discriminate.
  - apply (proj1 (context_index_bounds two_contexts "train" (-3) Ho Hc)).
    left. vm_compute. done.
  - apply (proj1 (proj2 (context_index_bounds two_contexts "train" (-2) Ho Hc))).
    split; vm_compute; [discriminate | done].
Defined.

(** ** The vocabulary *)

Lemma wf_words_lookup_lt v c m w k :
  wf_words v c m → m !! w = Some k → 0 ≤ k < len v.
Proof.
  intros [_ H] Hk. apply H in Hk as [H0 Hv].
  apply lookup_lt_Some in Hv. unfold len. lia.
Qed.

(** Interning a symbol that is already known. *)
Lemma wf_words_count v c m k x :
  wf_words v c m → wf_words v (<[k := x]> c) m.
Proof. intros [Hl H]. split; [by rewrite length_insert | done]. Qed.

(** Interning a new symbol. *)
Lemma wf_words_snoc v c m key x :
  wf_words v c m → m !! key = None →
  wf_words (v ++ [key]) (c ++ [x]) (<[key := len v]> m).
Proof.
  intros [Hl H] Hnone. split; [by rewrite !length_app, Hl |].
  intros w k. destruct (decide (key = w)) as [-> | Hne].
  - rewrite lookup_insert_eq. split.
    + intros [= <-]. unfold len. split; [lia |].
      rewrite Nat2Z.id. by apply list_lookup_middle.
    + intros [H0 Hk]. f_equal.
      destruct (decide (Z.to_nat k < length v)%nat) as [Hlt | Hge].
      * rewrite lookup_app_l in Hk by done.
        assert (m !! w = Some k) as Hm by (apply H; done). congruence.
      * apply lookup_lt_Some in Hk as Hlt. rewrite length_app in Hlt. simpl in Hlt.
        unfold len. lia.
  - rewrite lookup_insert_ne by done. rewrite H. split.
    + intros [H0 Hk]. split; [done |].
      rewrite lookup_app_l; [done |]. by eapply lookup_lt_Some.
    + intros [H0 Hk]. split; [done |].
      destruct (decide (Z.to_nat k < length v)%nat) as [Hlt | Hge].
      * by rewrite lookup_app_l in Hk.
      * rewrite lookup_app_r in Hk by lia.
        destruct (Z.to_nat k - length v)%nat; simpl in Hk; [congruence | done].
Qed.

Lemma ctx_in_range_prefix v v' C :
  v `prefix_of` v' → ctx_in_range v C → ctx_in_range v' C.
Proof.
  intros Hp H ds c Hc. eapply Forall_impl; [by eapply H |].
  intros k Hk. apply prefix_length in Hp. unfold len in *. simpl in *. lia.
Qed.

(** [__add_to_vocab] never raises on a well-formed vocabulary; it
    returns the id of [key], and the vocabulary it leaves extends the
    one it found. *)
Lemma add_to_vocab_spec key s :
  wf_words (vocab s) (count s) (ids s) →
  ∃ i v' c' m',
    add_to_vocab key s = (inr i, set_words v' c' m' s) ∧
    wf_words v' c' m' ∧ vocab s `prefix_of` v' ∧
    m' !! key = Some i ∧ 0 ≤ i < len v' ∧ v' !! Z.to_nat i = Some key.
Proof.
  intros Hwf. unfold add_to_vocab, bind, get_state.
  destruct (ids s !! key) as [k |] eqn:Hk; simpl.
  - rewrite Hk. simpl.
    pose proof (wf_words_lookup_lt _ _ _ _ _ Hwf Hk) as Hlt.
    destruct Hwf as [Hl Hb].
    assert (Hc : is_Some (count s !! Z.to_nat k)).
    { apply lookup_lt_is_Some. unfold len in Hlt. lia. }
    destruct Hc as [c Hc].
    rewrite getitem_nonneg by lia. rewrite Hc. simpl.
    rewrite setitem_nonneg by (unfold len in *; lia). simpl.
    exists k, (vocab s), (<[Z.to_nat k := c + 1]> (count s)), (ids s).
    split; [done |]. split; [by apply wf_words_count |].
    split; [done |]. split; [done |]. split; [done |].
    by apply Hb.
  - rewrite lookup_insert_eq. simpl.
    pose proof (wf_words_snoc _ _ _ key 0 Hwf Hk) as Hwf'.
    destruct Hwf as [Hl Hb].
    unfold len at 1. rewrite getitem_of_nat.
    rewrite Hl, list_lookup_middle by done. simpl.
    unfold len at 1.
    rewrite setitem_of_nat by (rewrite length_app; simpl; lia). simpl.
    exists (len (vocab s)), (vocab s ++ [key]),
      (<[length (vocab s) := 0 + 1]> (count s ++ [0])),
      (<[key := len (vocab s)]> (ids s)).
    split; [done |].
    split; [by apply wf_words_count |].
    split; [by apply prefix_app_r |].
    split; [by rewrite lookup_insert_eq |].
    unfold len. rewrite length_app, Nat2Z.id. simpl.
    split; [lia |]. by apply list_lookup_middle.
Qed.

(** The same as a rule: the continuation is taken at the extended
    vocabulary. *)
Lemma triple_add_to_vocab key (P : KB → Prop) (Q : Z → KB → Prop) E :
  (∀ s, P s → wf_words (vocab s) (count s) (ids s)) →
  (∀ s i v' c' m', P s →
     wf_words v' c' m' → vocab s `prefix_of` v' →
     0 ≤ i < len v' → v' !! Z.to_nat i = Some key →
     Q i (set_words v' c' m' s)) →
  triple P (add_to_vocab key) Q E.
Proof.
  intros Hwf HQ s HP.
  destruct (add_to_vocab_spec key s (Hwf s HP))
    as (i & v' & c' & m' & -> & H1 & H2 & _ & H3 & H4).
  by apply HQ.
Qed.

(** [__add_to_answer_vocab] touches the answer vocabulary only. *)
Lemma add_to_answer_vocab_frame key s :
  ∃ v c m, snd (add_to_answer_vocab key s) = set_answer_words v c m s.
Proof.
  assert (Hs : s = set_answer_words (answer_vocab s) (answer_count s) (answer_ids s) s)
    by (by destruct s).
  unfold add_to_answer_vocab, bind, get_state.
  destruct (answer_ids s !! key) as [k |] eqn:Hk; simpl.
  - rewrite Hk. simpl.
    destruct (getitem (answer_count s) k); simpl; [| eauto].
    destruct (setitem (answer_count s) k (z + 1)); simpl; eauto.
  - rewrite lookup_insert_eq. simpl.
    destruct (getitem _ _); simpl; [| eauto].
    destruct (setitem _ _ _); simpl; eauto.
Qed.

Lemma triple_add_to_answer_vocab key (P : KB → Prop) (Q : Z → KB → Prop) E :
  (∀ s v c m, P s →
     (∀ i, Q i (set_answer_words v c m s)) ∧ E (set_answer_words v c m s)) →
  triple P (add_to_answer_vocab key) Q E.
Proof.
  intros H s HP. destruct (add_to_answer_vocab_frame key s) as (v & c & m & Hs).
  destruct (add_to_answer_vocab key s) as [[e | i] s']; simpl in Hs; subst s';
    by apply H.
Qed.

(** ** The appends of [add] *)

Section Appends.
Variables (rd : KB → gmap string (list Z))
          (wr : (gmap string (list Z) → gmap string (list Z)) → KB → KB).
Variables (P E : KB → Prop) (Q : unit → KB → Prop) (dataset : string) (v : Z).

Lemma triple_array_append_in :
  (∀ s, P s → E s) →
  (∀ s a, P s → rd s !! dataset = Some a → 0 ≤ v ≤ UINT_MAX →
     Q tt (wr (<[dataset := a ++ [v]]>) s)) →
  triple P (array_append_in rd wr dataset v) Q E.
Proof.
  intros HE HQ s HP. unfold array_append_in, bind, get_state.
  destruct (rd s !! dataset) as [a |] eqn:Ha; simpl; [| by apply HE].
  unfold array_append.
  destruct (Z.leb_spec 0 v); simpl; [| by apply HE].
  destruct (Z.leb_spec v UINT_MAX); simpl; [| by apply HE].
  by apply HQ.
Qed.

Lemma triple_list_append_in :
  (∀ s, P s → E s) →
  (∀ s a, P s → rd s !! dataset = Some a → Q tt (wr (<[dataset := a ++ [v]]>) s)) →
  triple P (list_append_in rd wr dataset v) Q E.
Proof.
  intros HE HQ s HP. unfold list_append_in, bind, get_state.
  destruct (rd s !! dataset) as [a |] eqn:Ha; simpl; [by apply HQ | by apply HE].
Qed.

End Appends.

Lemma triple_len_in rd (P E : KB → Prop) (Q : Z → KB → Prop) dataset :
  (∀ s, P s → E s) →
  (∀ s a, P s → rd s !! dataset = Some a → Q (len a) s) →
  triple P (len_in rd dataset) Q E.
Proof.
  intros HE HQ s HP. unfold len_in, bind, get_state.
  destruct (rd s !! dataset) as [a |] eqn:Ha; simpl; [by apply HQ | by apply HE].
Qed.

(** ** [add] keeps the store well formed, whatever its outcome *)

Lemma ctx_in_range_insert v C ds c :
  ctx_in_range v C → Forall (λ k, 0 ≤ k < len v) c →
  ctx_in_range v (<[ds := c]> C).
Proof.
  intros H Hc ds' c'. destruct (decide (ds = ds')) as [-> | Hne].
  - rewrite lookup_insert_eq. by intros [= <-].
  - rewrite lookup_insert_ne by done. apply H.
Qed.

Lemma ensure_partition_inv dataset :
  triple unordered_wf (ensure_partition dataset) (λ _, unordered_wf) unordered_wf.
Proof.
  apply triple_get_bind. intros s0 [[Hw Hc] Ho].
  destruct (contexts s0 !! dataset).
  { apply triple_ret. by intros s ->. }
  eapply (triple_bind _ (λ _, unordered_wf)).
  { apply triple_modify. intros s ->. split; [split |]; simpl; try done.
    apply ctx_in_range_insert; [done | by apply Forall_nil]. }
  intros _.
  repeat (eapply (triple_bind _ (λ _, unordered_wf));
          [apply triple_modify; intros s Hs; exact Hs | intros _]).
  apply triple_modify. intros s Hs. exact Hs.
Qed.

Lemma record_offsets_inv dataset :
  triple unordered_wf (record_offsets dataset) (λ _, unordered_wf) unordered_wf.
Proof.
  unfold record_offsets.
  eapply (triple_bind _ (λ _, unordered_wf)); [by apply triple_len_in |].
  intros n.
  eapply (triple_bind _ (λ _, unordered_wf)).
  { apply triple_list_append_in; [done |]. intros s a Hs _. exact Hs. }
  intros _.
  eapply (triple_bind _ (λ _, unordered_wf)); [by apply triple_len_in |].
  intros n'. apply triple_list_append_in; [done |]. intros s a Hs _. exact Hs.
Qed.

Lemma intern_and_store_inv dataset w :
  triple unordered_wf
    (do i <- add_to_vocab w; array_append_in contexts set_contexts dataset i)
    (λ _, unordered_wf) unordered_wf.
Proof.
  eapply (triple_bind _ (λ i s, unordered_wf s ∧ 0 ≤ i < len (vocab s))).
  - apply triple_add_to_vocab; [by intros s [[H _] _] |].
    intros s i v' c' m' [[Hw Hc] Ho] Hw' Hp Hi _.
    split; [split; [split |] |]; simpl; try done.
    by eapply ctx_in_range_prefix.
  - intros i. apply triple_array_append_in; [by intros s [H _] |].
    intros s a [[[Hw Hc] Ho] Hi] Ha _.
    split; [split |]; simpl; try done.
    apply ctx_in_range_insert; [done |].
    apply Forall_app. split; [by eapply Hc |]. by apply Forall_singleton.
Qed.

Lemma extend_contexts_inv context dataset :
  triple unordered_wf (extend_contexts context dataset)
    (λ _, unordered_wf) unordered_wf.
Proof.
  apply triple_get_bind. intros s0 H0.
  eapply (triple_bind _ (λ _, unordered_wf)).
  { apply triple_lift; by intros; subst. }
  intros _. apply triple_for_each_inv. intros w _. apply intern_and_store_inv.
Qed.

Lemma append_spans_inv spans dataset :
  triple unordered_wf (append_spans spans dataset)
    (λ _, unordered_wf) unordered_wf.
Proof.
  apply triple_for_each_inv. intros span _.
  eapply (triple_bind _ (λ _, unordered_wf)).
  { apply triple_array_append_in; [done |]. intros s a Hs _ _. exact Hs. }
  intros _. apply triple_array_append_in; [done |]. intros s a Hs _ _. exact Hs.
Qed.

Lemma append_answers_inv answers spans dataset :
  triple unordered_wf (append_answers answers spans dataset)
    (λ _, unordered_wf) unordered_wf.
Proof.
  apply triple_get_bind. intros s0 H0.
  destruct answers as [answers |]; [| apply triple_ret; by intros s ->].
  destruct (decide (answers_ s0 = ∅)); [apply triple_ret; by intros s -> |].
  eapply (triple_bind _ (λ _, unordered_wf)).
  { apply triple_assert; by intros _ s ->. }
  intros _. apply triple_for_each_inv. intros answer _.
  apply triple_get_bind. intros s1 H1.
  eapply (triple_bind _ (λ _, unordered_wf)).
  { apply triple_lift; by intros; subst. }
  intros _.
  eapply (triple_bind _ (λ _, unordered_wf)).
  { apply triple_add_to_answer_vocab. intros s v c m Hs. split; [intros _ |]; exact Hs. }
  intros i.
  eapply (triple_bind _ (λ _, unordered_wf)).
  { apply triple_array_append_in; [done |]. intros s a Hs _ _. exact Hs. }
  intros _.
  eapply (triple_bind _ (λ _, unordered_wf)).
  - apply triple_add_to_vocab; [by intros s [[H _] _] |].
    intros s j v' c' m' [[Hw Hc] Ho] Hw' Hp Hi _.
    split; [split |]; simpl; try done.
    by eapply ctx_in_range_prefix.
  - intros _. by apply triple_ret.
Qed.

Lemma add_body_inv context spans answers dataset :
  triple unordered_wf (add_body context spans answers dataset)
    (λ _, unordered_wf) unordered_wf.
Proof.
  unfold add_body.
  eapply (triple_bind _ (λ _, unordered_wf)); [by apply triple_assert |].
  intros _.
  eapply (triple_bind _ (λ _, unordered_wf)); [apply ensure_partition_inv |].
  intros _.
  eapply (triple_bind _ (λ _, unordered_wf)); [apply record_offsets_inv |].
  intros _.
  eapply (triple_bind _ (λ _, unordered_wf)); [apply extend_contexts_inv |].
  intros _.
  eapply (triple_bind _ (λ _, unordered_wf)); [apply append_spans_inv |].
  intros _.
  eapply (triple_bind _ (λ _, unordered_wf)); [apply append_answers_inv |].
  intros _. apply triple_get_bind. intros s0 H0.
  apply triple_modify. intros s ->. exact H0.
Qed.

Lemma add_inv context spans answers dataset :
  triple wf_vocab (add context spans answers dataset)
    (λ _, unordered_wf) unordered_wf.
Proof.
  unfold add.
  eapply (triple_bind _ (λ _, unordered_wf)).
  { apply triple_modify. intros s Hs. split; [exact Hs | done]. }
  intros _.
  eapply (triple_bind _ (λ _, unordered_wf)); [apply add_body_inv |].
  intros _. apply triple_get_bind. intros s0 H0.
  apply triple_ret. by intros s ->.
Qed.

Lemma add_wf context spans answers dataset s :
  kb_wf s → kb_wf (snd (add context spans answers dataset s)).
Proof.
  intros [Hw _].
  pose proof (triple_run _ _ _ _ s (add_inv context spans answers dataset) Hw) as H.
  assert (Hu : unordered_wf (snd (add context spans answers dataset s))).
  { by destruct (fst (add context spans answers dataset s)). }
  destruct Hu as [Hw' Ho]. split; [done |]. rewrite Ho. discriminate.
Qed.

(** The value [add] returns is [num_contexts(dataset) - 1], read in the
    store the call leaves. *)
Lemma add_returns_last context spans answers dataset s n :
  fst (add context spans answers dataset s) = inr n →
  n = num_contexts (snd (add context spans answers dataset s)) dataset - 1.
Proof.
  unfold add, bind. simpl.
  destruct (add_body context spans answers dataset (set_ordered false s))
    as [[e | []] s1]; simpl; [discriminate |]. by intros [= <-].
Qed.

(** ** The renumbering loop of [order_vocab_by_freq] *)

Lemma setitem_of_nat_Some {A} (l l' : list A) (k : nat) x :
  setitem l (Z.of_nat k) x = Some l' → (k < length l)%nat ∧ l' = <[k := x]> l.
Proof.
  unfold setitem, len.
  destruct (Z.leb_spec 0 (Z.of_nat k)); [| lia].
  destruct (Z.ltb_spec (Z.of_nat k) (Z.of_nat (length l))); [| done].
  rewrite Nat2Z.id. intros [= <-]. split; [lia | done].
Qed.

(** What the loop has built when it ends: the symbols and counts are
    those of the positions in [sorted], in that order, and [mapping]
    sends each of these positions to its rank. *)
Lemma reorder_loop_spec v c sorted :
  ∀ i mapping nv nc mapping' nv' nc',
    reorder_loop v c sorted i mapping nv nc = Some (mapping', nv', nc') →
    length mapping' = length mapping ∧
    (∃ ws xs, nv' = nv ++ ws ∧ nc' = nc ++ xs ∧
       Forall2 (λ k w, v !! k = Some w) sorted ws ∧
       Forall2 (λ k x, c !! k = Some x) sorted xs) ∧
    (∀ k, k ∉ sorted → mapping' !! k = mapping !! k) ∧
    (NoDup sorted → ∀ j k, sorted !! j = Some k →
       mapping' !! k = Some (i + Z.of_nat j)).
Proof.
  induction sorted as [| k rest IH]; intros i mapping nv nc mapping' nv' nc'; simpl.
  - intros [= <- <- <-]. split; [done |]. split.
    + exists [], []. by rewrite !app_nil_r.
    + split; [done |]. intros _ j k Hj. by rewrite lookup_nil in Hj.
  - destruct (setitem mapping (Z.of_nat k) i) as [m1 |] eqn:Hset; [| done].
    apply setitem_of_nat_Some in Hset as [Hlt ->]. simpl.
    rewrite !getitem_of_nat.
    destruct (v !! k) as [w |] eqn:Hw; [| done]. simpl.
    destruct (c !! k) as [x |] eqn:Hx; [| done]. simpl.
    intros H. apply IH in H as (Hlen & (ws & xs & -> & -> & Hws & Hxs) & Hout & Hin).
    rewrite length_insert in Hlen. split; [done |]. split.
    + exists (w :: ws), (x :: xs). rewrite <- !app_assoc. simpl.
      repeat split; try done; by constructor.
    + split.
      * intros k' Hk'. apply not_elem_of_cons in Hk' as [Hne Hk'].
        rewrite Hout by done. apply list_lookup_insert_ne. congruence.
      * intros Hnd j k' Hj. apply NoDup_cons in Hnd as [Hk Hnd].
        destruct j as [| j]; simpl in Hj.
        -- injection Hj as <-. rewrite Hout by done.
           rewrite list_lookup_insert_eq by done. f_equal. lia.
        -- rewrite (Hin Hnd j k' Hj). f_equal. lia.
Qed.

(** The loop does not raise when every position in [sorted] is a
    position of [mapping], [v] and [c]. *)
Lemma reorder_loop_total v c sorted :
  ∀ i mapping nv nc,
    Forall (λ k, (k < length mapping ∧ k < length v ∧ k < length c)%nat) sorted →
    is_Some (reorder_loop v c sorted i mapping nv nc).
Proof.
  induction sorted as [| k rest IH]; intros i mapping nv nc H; simpl; [eauto |].
  apply Forall_cons in H as [(H1 & H2 & H3) H].
  rewrite setitem_of_nat by done. simpl. rewrite !getitem_of_nat.
  destruct (lookup_lt_is_Some_2 v k H2) as [w Hw]. rewrite Hw.
  destruct (lookup_lt_is_Some_2 c k H3) as [x Hx]. rewrite Hx. simpl.
  apply IH. eapply Forall_impl; [exact H |].
  intros k' Hk'. by rewrite length_insert.
Qed.

Lemma dict_mapM_Some {A B} (f : A → option B) (m : gmap string A) m' :
  dict_mapM f m = Some m' → ∀ ds, m' !! ds = m !! ds ≫= f.
Proof.
  unfold dict_mapM. destruct (decide _); [| done].
  intros [= <-] ds. apply lookup_omap.
Qed.

Lemma dict_mapM_lookup {A B} (f : A → option B) (m : gmap string A) m' ds :
  dict_mapM f m = Some m' →
  match m !! ds with
  | Some x => ∃ y, f x = Some y ∧ m' !! ds = Some y
  | None => m' !! ds = None
  end.
Proof.
  unfold dict_mapM. destruct (decide _) as [Hall |]; [| done].
  intros [= <-]. rewrite lookup_omap.
  destruct (m !! ds) as [x |] eqn:Hx; [| done].
  destruct (Hall ds x Hx) as [y Hy]. exists y. by rewrite Hy.
Qed.

Lemma dict_mapM_total {A B} (f : A → option B) (m : gmap string A) :
  (∀ ds x, m !! ds = Some x → is_Some (f x)) → is_Some (dict_mapM f m).
Proof.
  intros H. unfold dict_mapM. destruct (decide _) as [| Hn]; [eauto |].
  destruct Hn. intros ds x. apply H.
Qed.


(** ** [order_vocab_by_freq] *)

(** The fields the pass does not write. *)
Lemma order_vocab_by_freq_frame argsort s s' :
  order_vocab_by_freq argsort s = Some s' →
  starts s' = starts s ∧ ends s' = ends s ∧ answers_ s' = answers_ s ∧
  context_offsets s' = context_offsets s ∧ span_offsets s' = span_offsets s ∧
  answer_vocab s' = answer_vocab s ∧ answer_count s' = answer_count s ∧
  answer_ids s' = answer_ids s ∧ ordered s' = true.
Proof.
  unfold order_vocab_by_freq. destruct (ordered s) eqn:Ho.
  { intros [= <-]. by rewrite Ho. }
  destruct (reorder_loop _ _ _ _ _ _ _) as [[[mapping nv] nc] |]; [| done]. simpl.
  destruct (dict_mapM _ (ids s)) as [ids' |]; [| done]. simpl.
  destruct (dict_mapM _ (contexts s)) as [contexts' |]; [| done]. simpl.
  by intros [= <-].
Qed.

Section Reordered.
Variable argsort : list Z → list nat.
Hypothesis argsort_ok : argsort_contract argsort.

Lemma sorted_perm c : reverse (argsort c) ≡ₚ seq 0 (length c).
Proof. rewrite reverse_Permutation. apply argsort_ok. Qed.

Lemma sorted_NoDup c : NoDup (reverse (argsort c)).
Proof. rewrite sorted_perm. apply NoDup_seq. Qed.

Lemma sorted_elem c k : k ∈ reverse (argsort c) ↔ (k < length c)%nat.
Proof. rewrite sorted_perm, elem_of_seq. lia. Qed.

Lemma sorted_length c : length (reverse (argsort c)) = length c.
Proof. rewrite sorted_perm. apply length_seq. Qed.

(** A pass that does the work and returns has renumbered the store. *)
Lemma order_vocab_by_freq_renumbered s s' :
  ordered s = false →
  order_vocab_by_freq argsort s = Some s' →
  ∃ mapping, renumbered (reverse (argsort (count s))) mapping s s'.
Proof.
  intros Ho. unfold order_vocab_by_freq. rewrite Ho.
  destruct (reorder_loop _ _ _ _ _ _ _) as [[[mapping nv] nc] |] eqn:Hloop; [| done].
  simpl.
  destruct (dict_mapM _ (ids s)) as [ids' |] eqn:Hids; [| done]. simpl.
  destruct (dict_mapM _ (contexts s)) as [contexts' |] eqn:Hctx; [| done]. simpl.
  intros [= <-]. exists mapping.
  apply reorder_loop_spec in Hloop
    as (_ & (ws & xs & -> & -> & Hws & Hxs) & _ & Hin).
  split; simpl; try done.
  - intros j k Hj. by rewrite (Hin (sorted_NoDup _) j k Hj).
  - by apply dict_mapM_Some.
  - by apply dict_mapM_Some.
Qed.

(** A renumbered store is well formed. *)
Lemma renumbered_wf s s' mapping :
  wf_vocab s →
  renumbered (reverse (argsort (count s))) mapping s s' →
  wf_vocab s'.
Proof.
  intros [[Hl Hb] Hc] [Hv Hn Hm Hi Hx].
  set (sorted := reverse (argsort (count s))) in *.
  assert (Hrank : ∀ k, 0 ≤ k < len (vocab s) →
            ∃ p : nat, sorted !! p = Some (Z.to_nat k) ∧
                       getitem mapping k = Some (Z.of_nat p) ∧
                       (p < length (vocab s'))%nat).
  { intros k Hk.
    assert (Z.to_nat k ∈ sorted) as Hin.
    { apply sorted_elem. unfold len in Hk. lia. }
    apply list_elem_of_lookup in Hin as [p Hp]. exists p.
    split; [done |]. split.
    - rewrite getitem_nonneg by lia. by apply Hm.
    - apply Forall2_length in Hv. rewrite <- Hv. by eapply lookup_lt_Some. }
  split; [split |].
  - apply Forall2_length in Hv, Hn. congruence.
  - intros w q. rewrite Hi. split.
    + intros Hq. destruct (ids s !! w) as [k |] eqn:Hk; [| done]. simpl in Hq.
      apply Hb in Hk as [Hk0 Hkw].
      destruct (Hrank k) as (p & Hp & Hgp & _).
      { split; [done |]. apply lookup_lt_Some in Hkw. unfold len. lia. }
      rewrite Hgp in Hq. injection Hq as <-. split; [lia |].
      rewrite Nat2Z.id.
      destruct (Forall2_lookup_l _ _ _ _ _ Hv Hp) as (w' & Hw' & Hkw').
      congruence.
    + intros [Hq0 Hqw].
      destruct (Forall2_lookup_r _ _ _ _ _ Hv Hqw) as (k & Hk & Hkw).
      assert (ids s !! w = Some (Z.of_nat k)) as ->.
      { apply Hb. split; [lia |]. by rewrite Nat2Z.id. }
      simpl. rewrite getitem_of_nat, (Hm _ _ Hk). f_equal. lia.
  - intros ds c'. rewrite Hx.
    destruct (contexts s !! ds) as [c |] eqn:Hcs; [| done]. simpl.
    intros Hr. apply mapM_Some in Hr.
    specialize (Hc ds c Hcs). clear Hcs.
    induction Hr as [| k q c c' Hkq Hr IH]; [constructor |].
    apply Forall_cons in Hc as [Hk Hc].
    constructor; [| by apply IH].
    destruct (Hrank k Hk) as (p & _ & Hgp & Hlt).
    rewrite Hgp in Hkq. simpl in Hkq.
    destruct (fits_uint (Z.of_nat p)); [| done].
    injection Hkq as <-. unfold len. lia.
Qed.

(** After a renumbering along [reverse (argsort count)] the counts
    descend. *)
Lemma renumbered_sorted_desc s s' mapping :
  renumbered (reverse (argsort (count s))) mapping s s' →
  sorted_desc (count s').
Proof.
  intros [_ Hn _ _ _] i j x y Hij Hx Hy.
  destruct (Forall2_lookup_r _ _ _ _ _ Hn Hx) as (a & Ha & Hax).
  destruct (Forall2_lookup_r _ _ _ _ _ Hn Hy) as (b & Hb & Hby).
  apply reverse_lookup_Some in Ha as [Ha Hi].
  apply reverse_lookup_Some in Hb as [Hb Hj].
  destruct argsort_ok as [_ Hasc].
  eapply (Hasc (count s)); [| exact Hb | exact Ha | done | done]. lia.
Qed.

Lemma order_vocab_by_freq_wf s s' :
  kb_wf s → order_vocab_by_freq argsort s = Some s' → kb_wf s'.
Proof.
  intros [Hw Hs] H. destruct (ordered s) eqn:Ho.
  - unfold order_vocab_by_freq in H. rewrite Ho in H. injection H as <-.
    split; [done |]. intros _. by apply Hs.
  - destruct (order_vocab_by_freq_renumbered s s' Ho H) as [mapping Hr].
    split; [by eapply renumbered_wf |]. intros _.
    by eapply renumbered_sorted_desc.
Qed.

Lemma KB_init_wf : kb_wf KB_init.
Proof.
  split; [split; [split |] |]; simpl; try done.
  intros w k. rewrite lookup_empty. split; [done |].
  intros [_ H]. by rewrite lookup_nil in H.
Qed.

(** Every store a program can build is well formed. *)
Lemma reachable_wf s : reachable argsort s → kb_wf s.
Proof.
  induction 1 as [| s c sp a ds _ IH | s s' _ IH Hord].
  - apply KB_init_wf.
  - by apply add_wf.
  - by eapply order_vocab_by_freq_wf.
Qed.

(** On such a store the pass returns, as long as the new ids fit the
    slots of the context arrays. *)
Lemma order_vocab_by_freq_total s :
  kb_wf s → len (vocab s) ≤ UINT_MAX + 1 →
  is_Some (order_vocab_by_freq argsort s).
Proof.
  intros [[[Hl Hb] Hc] _] Hsmall. unfold order_vocab_by_freq.
  destruct (ordered s); [eauto |].
  set (sorted := reverse (argsort (count s))).
  destruct (reorder_loop_total (vocab s) (count s) sorted 0
              (replicate (length (vocab s)) 0) [] []) as [[[mapping nv] nc] Hloop].
  { apply Forall_forall. intros k Hk. apply sorted_elem in Hk.
    rewrite length_replicate. lia. }
  rewrite Hloop. simpl.
  apply reorder_loop_spec in Hloop as (Hlen & _ & _ & Hin).
  rewrite length_replicate in Hlen.
  assert (Hrank : ∀ k, 0 ≤ k < len (vocab s) →
            ∃ p : nat, getitem mapping k = Some (Z.of_nat p) ∧
                       (p < length (vocab s))%nat).
  { intros k Hk.
    assert (Z.to_nat k ∈ sorted) as Hk'.
    { apply sorted_elem. unfold len in Hk. lia. }
    apply list_elem_of_lookup in Hk' as [p Hp]. exists p. split.
    - rewrite getitem_nonneg by lia.
      by rewrite (Hin (sorted_NoDup _) p _ Hp).
    - apply lookup_lt_Some in Hp. unfold sorted in Hp.
      rewrite sorted_length in Hp. lia. }
  destruct (dict_mapM_total (getitem mapping) (ids s)) as [ids' Hids].
  { intros w k Hk. destruct (Hrank k) as (p & Hp & _); [| eauto].
    eapply wf_words_lookup_lt; [by split | done]. }
  rewrite Hids. simpl.
  destruct (dict_mapM_total (remap_array mapping) (contexts s)) as [ctx' Hctx].
  { intros ds c Hcs. apply mapM_is_Some. eapply Forall_impl; [by eapply Hc |].
    intros k Hk. simpl. destruct (Hrank k Hk) as (p & Hp & Hlt).
    rewrite Hp. simpl. unfold fits_uint, len in *.
    destruct (Z.leb_spec 0 (Z.of_nat p)); [| lia].
    destruct (Z.leb_spec (Z.of_nat p) UINT_MAX); [simpl; eauto | lia]. }
  rewrite Hctx. simpl. eauto.
Qed.

End Reordered.

(** ** The stable [argsort] meets the contract *)

Lemma insert_by_perm c k ks : insert_by c k ks ≡ₚ k :: ks.
Proof.
  induction ks as [| j ks IH]; simpl; [done |].
  case_bool_decide; [| done]. rewrite IH. apply Permutation_swap.
Qed.

Lemma insert_by_sorted c k ks :
  StronglySorted (count_le c) ks → StronglySorted (count_le c) (insert_by c k ks).
Proof.
  induction 1 as [| j ks Hs IH Hj]; simpl.
  - repeat constructor.
  - case_bool_decide as Hle.
    + constructor; [done |]. rewrite insert_by_perm. by constructor.
    + constructor; [by constructor |]. constructor.
      * unfold count_le. lia.
      * eapply Forall_impl; [exact Hj |]. unfold count_le. intros x Hx. lia.
Qed.

Lemma foldl_insert_by_perm c ks acc :
  foldl (λ acc k, insert_by c k acc) acc ks ≡ₚ acc ++ ks.
Proof.
  revert acc. induction ks as [| k ks IH]; intros acc; simpl.
  - by rewrite app_nil_r.
  - rewrite IH, insert_by_perm. by rewrite <- Permutation_middle.
Qed.

Lemma foldl_insert_by_sorted c ks acc :
  StronglySorted (count_le c) acc →
  StronglySorted (count_le c) (foldl (λ acc k, insert_by c k acc) acc ks).
Proof.
  revert acc. induction ks as [| k ks IH]; intros acc Hacc; simpl; [done |].
  apply IH. by apply insert_by_sorted.
Qed.

Lemma StronglySorted_count_le_lookup c ks i j a b :
  StronglySorted (count_le c) ks → (i ≤ j)%nat →
  ks !! i = Some a → ks !! j = Some b → count_le c a b.
Proof.
  intros Hs. revert i j. induction Hs as [| k ks Hs IH Hk]; intros i j Hij Ha Hb.
  - by rewrite lookup_nil in Ha.
  - destruct i as [| i], j as [| j]; simpl in *; try lia.
    + injection Ha as <-. injection Hb as <-. unfold count_le. lia.
    + injection Ha as <-. rewrite Forall_lookup in Hk. by eapply Hk.
    + eapply (IH i j); [lia | done | done].
Qed.

Lemma stable_argsort_contract : argsort_contract stable_argsort.
Proof.
  split.
  - intros c. unfold stable_argsort. by rewrite foldl_insert_by_perm.
  - intros c i j a b x y Hij Ha Hb Hx Hy.
    assert (count_le c a b) as Hle.
    { eapply (StronglySorted_count_le_lookup c (stable_argsort c) i j); try done.
      apply foldl_insert_by_sorted. constructor. }
    unfold count_le in Hle. by rewrite Hx, Hy in Hle.
Qed.

(** ** Reordering: the layout is kept *)

(** C7. A call of [order_vocab_by_freq] that returns leaves every
    partition's context offset table, span offset table, span start
    array, span end array and answer-id array as they were, keeps the
    set of partitions, and keeps the length of every packed context
    array. *)
Theorem order_vocab_by_freq_keeps_layout (argsort : list Z → list nat) (s s' : KB) :
  order_vocab_by_freq argsort s = Some s' →
  context_offsets s' = context_offsets s ∧
  span_offsets s' = span_offsets s ∧
  starts s' = starts s ∧
  ends s' = ends s ∧
  answers_ s' = answers_ s ∧
  ∀ dataset, length <$> contexts s' !! dataset = length <$> contexts s !! dataset.
Proof.
  intros H.
  destruct (order_vocab_by_freq_frame _ _ _ H) as (H1 & H2 & H3 & H4 & H5 & _).
  repeat split; try done. intros ds. revert H.
  unfold order_vocab_by_freq. destruct (ordered s); [by intros [= <-] |].
  destruct (reorder_loop _ _ _ _ _ _ _) as [[[mapping nv] nc] |]; [| done]. simpl.
  destruct (dict_mapM _ (ids s)) as [ids' |]; [| done]. simpl.
  destruct (dict_mapM _ (contexts s)) as [contexts' |] eqn:Hctx; [| done]. simpl.
  intros [= <-]. simpl.
  pose proof (dict_mapM_lookup _ _ _ ds Hctx) as Hds.
  destruct (contexts s !! ds) as [c |]; [| by rewrite Hds].
  destruct Hds as (c' & Hc' & ->). simpl. f_equal.
  symmetry. by eapply length_mapM.
Qed.

Lemma order_vocab_by_freq_keeps_layout_witness :
  (∃ s', order_vocab_by_freq stable_argsort two_contexts = Some s') ∧
  ∀ s', order_vocab_by_freq stable_argsort two_contexts = Some s' →
    context_offsets s' !! "train" = Some [0; 2] ∧
    starts s' = starts two_contexts ∧
    length <$> contexts s' !! "train" = Some 3%nat.
Proof.
  split; [vm_compute; eauto |]. intros s' H.
  destruct (order_vocab_by_freq_keeps_layout stable_argsort two_contexts s' H)
    as (H1 & _ & H3 & _ & _ & H6).
  rewrite H1, H6. split; [by vm_compute | split; [exact H3 | by vm_compute]].
Defined.

(** ** Reordering: the counts descend *)

Section ReorderedClaims.
Variable argsort : list Z → list nat.
Hypothesis argsort_ok : argsort_contract argsort.

(** The new id of a symbol is the place of its old id in [sorted]. *)
Lemma renumbered_rank s s' mapping k :
  wf_vocab s →
  renumbered (reverse (argsort (count s))) mapping s s' →
  0 ≤ k < len (vocab s) →
  ∃ p : nat, reverse (argsort (count s)) !! p = Some (Z.to_nat k) ∧
             getitem mapping k = Some (Z.of_nat p) ∧
             vocab s' !! p = vocab s !! Z.to_nat k.
Proof.
  intros [[Hl _] _] [Hv _ Hm _ _] Hk.
  assert (Z.to_nat k ∈ reverse (argsort (count s))) as Hin.
  { apply sorted_elem; [done |]. unfold len in Hk. lia. }
  apply list_elem_of_lookup in Hin as [p Hp]. exists p.
  split; [done |]. split.
  - rewrite getitem_nonneg by lia. by apply Hm.
  - destruct (Forall2_lookup_l _ _ _ _ _ Hv Hp) as (w & Hw & Hkw). congruence.
Qed.

(** C4. With an [argsort] that meets NumPy's contract, a call of
    [order_vocab_by_freq] on a store built by [add] and
    [order_vocab_by_freq] leaves the count array in non-increasing
    order; and when the call does the work, the new id of a symbol is
    [len(count) - 1 - a], where [a] is the place of its old id in
    [np.argsort(count)]: the permutation is that list read backwards,
    and the order among symbols of equal count is the reverse of the
    one [argsort] gives them. *)
Theorem order_vocab_by_freq_sorts (s s' : KB) :
  reachable argsort s →
  order_vocab_by_freq argsort s = Some s' →
  sorted_desc (count s') ∧
  (ordered s = false →
   ∀ w k (a : nat),
     ids s !! w = Some k →
     argsort (count s) !! a = Some (Z.to_nat k) →
     ids s' !! w = Some (len (count s) - 1 - Z.of_nat a)).
Proof.
  intros Hreach H.
  pose proof (reachable_wf argsort argsort_ok s Hreach) as Hwf.
  split.
  - pose proof (order_vocab_by_freq_wf argsort argsort_ok s s' Hwf H) as [_ Hs].
    apply Hs. by apply (order_vocab_by_freq_frame _ _ _ H).
  - intros Ho w k a Hk Ha.
    destruct (order_vocab_by_freq_renumbered argsort argsort_ok s s' Ho H)
      as [mapping Hr].
    destruct Hwf as [Hw _].
    destruct (renumbered_rank s s' mapping k Hw Hr) as (p & Hp & Hgp & _).
    { destruct Hw as [Hw _]. by eapply wf_words_lookup_lt. }
    destruct Hr as [_ _ _ Hi _]. rewrite Hi, Hk. simpl. rewrite Hgp. f_equal.
    apply reverse_lookup_Some in Hp as [Hp Hlt].
    assert (Hnd : NoDup (argsort (count s))).
    { destruct argsort_ok as [Hperm _]. rewrite Hperm. apply NoDup_seq. }
    pose proof (NoDup_lookup _ _ _ _ Hnd Ha Hp) as ->.
    assert (Hlen : length (argsort (count s)) = length (count s)).
    { destruct argsort_ok as [Hperm _]. rewrite Hperm. apply length_seq. }
    unfold len. lia.
Qed.

(** ** Reordering: stored contexts decode to the same tokens *)

Lemma mapM_slice {A B} (f : A → option B) c c' a b :
  mapM f c = Some c' → mapM f (slice c a b) = Some (slice c' a b).
Proof.
  intros H. pose proof (length_mapM _ _ _ H) as Hlen.
  apply mapM_Some in H. apply mapM_Some.
  unfold slice, clamp, len. rewrite <- Hlen.
  by apply Forall2_take, Forall2_drop.
Qed.

Lemma slice_in_range {A} (P : A → Prop) c a b :
  Forall P c → Forall P (slice c a b).
Proof. intros H. unfold slice. by apply Forall_take, Forall_drop. Qed.

(** What [context] returns, before and after a renumbering. *)
Lemma context_renumbered s s' mapping i ds :
  context_offsets s' = context_offsets s →
  (∀ ds, match contexts s !! ds with
         | Some c => ∃ c', remap_array mapping c = Some c' ∧ contexts s' !! ds = Some c'
         | None => contexts s' !! ds = None
         end) →
  ctx_in_range (vocab s) (contexts s) →
  match context s i ds with
  | inr ks =>
      Forall (λ k, 0 ≤ k < len (vocab s)) ks ∧
      ∃ ks', remap_array mapping ks = Some ks' ∧ context s' i ds = inr ks'
  | inl e => context s' i ds = inl e
  end.
Proof.
  intros Ho Hc Hr. unfold context. rewrite Ho.
  destruct (context_offsets s !! ds) as [offs |]; [| done].
  destruct (getitem offs i) as [offset |]; [| done].
  specialize (Hc ds).
  destruct (contexts s !! ds) as [c |] eqn:Hcs.
  - destruct Hc as (c' & Hc' & ->).
    assert (len c' = len c) as ->
      by (unfold len; f_equal; symmetry; by eapply length_mapM).
    destruct (i + 1 <? len offs).
    + destruct (getitem offs (i + 1)) as [e |]; [| done].
      split; [by eapply slice_in_range, Hr |].
      eexists. split; [by apply mapM_slice | done].
    + split; [by eapply slice_in_range, Hr |].
      eexists. split; [by apply mapM_slice | done].
  - rewrite Hc. destruct (i + 1 <? len offs); [| done].
    by destruct (getitem offs (i + 1)).
Qed.

(** C6. With an [argsort] that meets NumPy's contract, after a call of
    [order_vocab_by_freq] on a store built by [add] and
    [order_vocab_by_freq], every stored context read through the new
    vocabulary gives the tokens it gave before; and a second call right
    after changes nothing. *)
Theorem order_vocab_by_freq_decode_stable (s s' : KB) :
  reachable argsort s →
  order_vocab_by_freq argsort s = Some s' →
  (∀ dataset i, decode_context s' i dataset = decode_context s i dataset) ∧
  order_vocab_by_freq argsort s' = Some s'.
Proof.
  intros Hreach H.
  pose proof (reachable_wf argsort argsort_ok s Hreach) as [Hw _].
  split.
  - intros ds i. destruct (ordered s) eqn:Ho.
    { unfold order_vocab_by_freq in H. rewrite Ho in H. by injection H as <-. }
    destruct (order_vocab_by_freq_renumbered argsort argsort_ok s s' Ho H)
      as [mapping Hr].
    assert (Hctx : ∀ ds, match contexts s !! ds with
              | Some c => ∃ c', remap_array mapping c = Some c'
                                ∧ contexts s' !! ds = Some c'
              | None => contexts s' !! ds = None
              end).
    { intros ds'. pose proof (rn_contexts _ _ _ _ Hr ds') as Hds.
      destruct (contexts s !! ds') as [c |] eqn:Hc; [| done]. simpl in Hds.
      destruct (remap_array mapping c) as [c' |] eqn:Hc'.
      - by exists c'.
      - exfalso. revert H. unfold order_vocab_by_freq. rewrite Ho.
        destruct (reorder_loop _ _ _ _ _ _ _) as [[[m nv] nc] |]; [| done]. simpl.
        destruct (dict_mapM _ (ids s)) as [ids' |]; [| done]. simpl.
        destruct (dict_mapM _ (contexts s)) as [ctx' |] eqn:Hd; [| done]. simpl.
        intros [= <-]. simpl in Hds.
        pose proof (dict_mapM_lookup _ _ _ ds' Hd) as Hl. rewrite Hc in Hl.
        destruct Hl as (y & _ & Hy). congruence. }
    pose proof (context_renumbered s s' mapping i ds
                  (proj1 (proj2 (proj2 (proj2 (order_vocab_by_freq_frame _ _ _ H)))))
                  Hctx (proj2 Hw)) as Hcr.
    unfold decode_context.
    destruct (context s i ds) as [e | ks]; [by rewrite Hcr |].
    destruct Hcr as (Hin & ks' & Hks' & ->).
    unfold decode. apply mapM_Some in Hks'. clear Hreach H Hctx.
    induction Hks' as [| k q ks ks' Hkq _ IH]; [done |].
    apply Forall_cons in Hin as [Hk Hin].
    destruct (renumbered_rank s s' mapping k Hw Hr Hk) as (p & _ & Hgp & Hv).
    rewrite Hgp in Hkq. simpl in Hkq.
    destruct (fits_uint (Z.of_nat p)); [| done]. injection Hkq as <-.
    simpl.
    rewrite getitem_of_nat, Hv, <- (getitem_nonneg (vocab s) k) by lia.
    by rewrite (IH Hin).
  - pose proof (order_vocab_by_freq_frame _ _ _ H) as Hf.
    unfold order_vocab_by_freq at 1.
    by rewrite (proj2 (proj2 (proj2 (proj2 (proj2 (proj2 (proj2 (proj2 Hf)))))))).
Qed.

End ReorderedClaims.

Lemma tied_reachable : reachable stable_argsort tied.
Proof. unfold tied. apply reach_add, reach_init. Qed.

Lemma sample_reachable : reachable stable_argsort sample.
Proof. unfold sample. apply reach_add, reach_add, reach_init. Qed.

(** With the stable [argsort], of two symbols with the same count the
    one with the smaller old id gets the larger new id. *)
Lemma order_vocab_by_freq_ties_reversed :
  ¬ (∀ (argsort : list Z → list nat) (s s' : KB) (w1 w2 : string)
       (k1 k2 q1 q2 : Z),
       argsort_contract argsort →
       reachable argsort s →
       order_vocab_by_freq argsort s = Some s' →
       ids s !! w1 = Some k1 → ids s !! w2 = Some k2 →
       getitem (count s) k1 = getitem (count s) k2 →
       k1 < k2 →
       ids s' !! w1 = Some q1 → ids s' !! w2 = Some q2 →
       q1 < q2).
Proof.
  intros H.
  destruct (order_vocab_by_freq stable_argsort tied) as [s' |] eqn:Hs';
    [| by vm_compute in Hs'].
  assert (1 < 0); [| lia].
  apply (H stable_argsort tied s' "a" "b" 0 1 1 0 stable_argsort_contract
           tied_reachable Hs').
  - vm_compute. reflexivity.
  - vm_compute. reflexivity.
  - vm_compute. reflexivity.
  - lia.
  - vm_compute in Hs'. injection Hs' as <-. vm_compute. reflexivity.
  - vm_compute in Hs'. injection Hs' as <-. vm_compute. reflexivity.
Qed.

Lemma order_vocab_by_freq_sorts_witness :
  ∃ s', order_vocab_by_freq stable_argsort sample = Some s' ∧
        vocab sample = ["a"; "b"; "c"; "d"] ∧
        count sample = [3; 2; 3; 1] ∧
        stable_argsort (count sample) = [3; 1; 0; 2]%nat ∧
        count s' = [3; 3; 2; 1] ∧
        sorted_desc (count s') ∧
        ids s' !! "a" = Some (len (count sample) - 1 - 2) ∧
        ids s' !! "c" = Some (len (count sample) - 1 - 3).
Proof.
  destruct (order_vocab_by_freq stable_argsort sample) as [s' |] eqn:Hs';
    [| by vm_compute in Hs'].
  exists s'. split; [reflexivity |].
  split; [vm_compute; reflexivity |].
  split; [vm_compute; reflexivity |].
  split; [vm_compute; reflexivity |].
  split; [vm_compute in Hs'; injection Hs' as <-; vm_compute; reflexivity |].
  destruct (order_vocab_by_freq_sorts stable_argsort stable_argsort_contract
              sample s' sample_reachable Hs') as [Hsorted Hrank].
  split; [exact Hsorted |]. split.
  - apply (Hrank eq_refl "a" 0 2%nat); vm_compute; reflexivity.
  - apply (Hrank eq_refl "c" 2 3%nat); vm_compute; reflexivity.
Defined.

Lemma order_vocab_by_freq_decode_stable_witness :
  ∃ s', order_vocab_by_freq stable_argsort sample = Some s' ∧
        decode_context sample 0 "valid" = Some ["c"; "b"; "a"; "c"; "d"; "c"] ∧
        context sample 0 "valid" = inr [2; 1; 0; 2; 3; 2] ∧
        context s' 0 "valid" = inr [0; 2; 1; 0; 3; 0] ∧
        decode_context s' 0 "valid" = decode_context sample 0 "valid" ∧
        order_vocab_by_freq stable_argsort s' = Some s'.
Proof.
  destruct (order_vocab_by_freq stable_argsort sample) as [s' |] eqn:Hs';
    [| by vm_compute in Hs'].
  exists s'. split; [reflexivity |].
  split; [vm_compute; reflexivity |].
  split; [vm_compute; reflexivity |].
  split; [vm_compute in Hs'; injection Hs' as <-; vm_compute; reflexivity |].
  destruct (order_vocab_by_freq_decode_stable stable_argsort stable_argsort_contract
              sample s' sample_reachable Hs') as [Hdec Hidem].
  split; [apply Hdec | exact Hidem].
Defined.

(** On the stores a program can build, the pass returns when the
    vocabulary has at most [UINT_MAX + 1] symbols. *)
Lemma order_vocab_by_freq_returns argsort s :
  argsort_contract argsort → reachable argsort s →
  len (vocab s) ≤ UINT_MAX + 1 →
  ∃ s', order_vocab_by_freq argsort s = Some s'.
Proof.
  intros Hok Hreach Hsmall.
  apply (order_vocab_by_freq_total argsort Hok s); [| done].
  by apply (reachable_wf argsort).
Qed.

(** ** Blocks laid out in one array *)

Lemma offsets_length {A} (xs : list (list A)) : length (offsets xs) = length xs.
Proof. unfold offsets. by rewrite length_fmap, length_seq. Qed.

Lemma offsets_lookup {A} (xs : list (list A)) i :
  (i < length xs)%nat → offsets xs !! i = Some (len (concat (take i xs))).
Proof.
  intros H. unfold offsets. rewrite list_lookup_fmap, lookup_seq_lt by done.
  done.
Qed.

Lemma offsets_snoc {A} (xs : list (list A)) x :
  offsets (xs ++ [x]) = offsets xs ++ [len (concat xs)].
Proof.
  unfold offsets. rewrite length_app. simpl.
  rewrite Nat.add_1_r, seq_S, fmap_app. simpl. f_equal.
  - apply list_fmap_ext. intros i k Hk. apply lookup_seq in Hk as [-> Hk].
    simpl. by rewrite take_app_le by lia.
  - by rewrite take_app_length.
Qed.

Lemma offsets_fmap {A B} (f : A → B) (xs : list (list A)) :
  offsets (fmap (M := list) (fmap (M := list) f) xs) = offsets xs.
Proof.
  unfold offsets. rewrite length_fmap. apply list_fmap_ext.
  intros i k _. unfold len. f_equal.
  rewrite <- fmap_take. generalize (take k xs). intros l.
  induction l as [| x l IH]; [done |].
  rewrite fmap_cons. simpl. by rewrite !length_app, length_fmap, IH.
Qed.

(** The block [i] of the blocks [xs], cut out of their concatenation. *)
Lemma block_cut {A} (xs : list (list A)) i x :
  xs !! i = Some x →
  take (length (concat (take (S i) xs)) - length (concat (take i xs)))
       (drop (length (concat (take i xs))) (concat xs)) = x.
Proof.
  intros H.
  assert (Hxs : concat xs = concat (take i xs) ++ x ++ concat (drop (S i) xs)).
  { rewrite <- (take_drop_middle _ _ _ H) at 1. by rewrite concat_app. }
  rewrite (take_S_r _ _ _ H), concat_app, length_app. simpl.
  rewrite app_nil_r, Hxs, drop_app_length.
  replace (length (concat (take i xs)) + length x - length (concat (take i xs)))%nat
    with (length x) by lia.
  by rewrite take_app_length.
Qed.

(** The two bounds that [context] and [spans] compute for block [i]. *)
Lemma block_bounds {A B} (xs : list (list A)) (l : list B) i x :
  xs !! i = Some x → length l = length (concat xs) →
  getitem (offsets xs) (Z.of_nat i) = Some (len (concat (take i xs))) ∧
  (if Z.of_nat i + 1 <? len (offsets xs)
   then getitem (offsets xs) (Z.of_nat i + 1)
   else Some (len l)) = Some (len (concat (take (S i) xs))).
Proof.
  intros H Hl. pose proof (lookup_lt_Some _ _ _ H) as Hi. split.
  - rewrite getitem_of_nat. by apply offsets_lookup.
  - unfold len at 1. rewrite offsets_length.
    replace (Z.of_nat i + 1) with (Z.of_nat (S i)) by lia.
    destruct (Z.ltb_spec (Z.of_nat (S i)) (Z.of_nat (length xs))).
    + rewrite getitem_of_nat. apply offsets_lookup. lia.
    + rewrite take_ge by lia. unfold len. by rewrite Hl.
Qed.

Lemma block_slice {A B} (xs : list (list A)) (l : list B) i x :
  xs !! i = Some x → length l = length (concat xs) →
  slice l (len (concat (take i xs))) (len (concat (take (S i) xs)))
  = take (length (concat (take (S i) xs)) - length (concat (take i xs)))
         (drop (length (concat (take i xs))) l).
Proof.
  intros H Hl. unfold len. apply slice_nonneg.
  assert (Hxs : concat xs = concat (take i xs) ++ x ++ concat (drop (S i) xs)).
  { rewrite <- (take_drop_middle _ _ _ H) at 1. by rewrite concat_app. }
  rewrite (take_S_r _ _ _ H), concat_app, length_app. split; [lia |].
  rewrite Hl, Hxs, !length_app. simpl. rewrite app_nil_r. lia.
Qed.

(** ** What a successful [add] stores *)

Lemma decode_prefix (v v' : list string) cs ws :
  v `prefix_of` v' → Forall (λ k, 0 ≤ k < len v) cs →
  Forall2 (λ k w, getitem v k = Some w) cs ws →
  Forall2 (λ k w, getitem v' k = Some w) cs ws.
Proof.
  intros Hp Hin H. induction H as [| k w cs ws Hk _ IH]; [constructor |].
  apply Forall_cons in Hin as [Hk0 Hin]. constructor; [| by apply IH].
  rewrite getitem_nonneg in * by lia. by eapply prefix_lookup_Some.
Qed.

Lemma arrays_words ds cs ws offs sts ens soffs s v' c' m' :
  arrays ds cs ws offs sts ens soffs s →
  wf_words v' c' m' → vocab s `prefix_of` v' →
  arrays ds cs ws offs sts ens soffs (set_words v' c' m' s).
Proof.
  intros ([Hw Hc] & Hcs & Hdec & H) Hw' Hp.
  split; [split; [done | by eapply ctx_in_range_prefix] |].
  split; [done |]. split; [| done].
  eapply decode_prefix; [done | by eapply Hc | done].
Qed.

Ltac arrays_split :=
  unfold arrays;
  split; [| split; [| split; [| split; [| split; [| split]]]]];
  simpl; rewrite ?lookup_insert_eq; try done.

Section Stores.
Variable ds : string.
Local Abbreviation anything := (λ _ : KB, True).

Lemma ensure_partition_stores toks sps :
  triple (stored ds toks sps) (ensure_partition ds)
    (λ _, holds ds toks sps) anything.
Proof.
  apply triple_get_bind. intros s0 H0.
  destruct (contexts s0 !! ds) eqn:Hc.
  - apply triple_ret. intros s ->.
    destruct H0 as [(_ & _ & Hn & _) | H]; [congruence | done].
  - destruct H0 as [(-> & -> & _ & [Hw Hr]) | (cs & _ & Hcs & _)]; [| congruence].
    intros s ->. simpl. exists []. arrays_split.
    split; [done | apply ctx_in_range_insert; [done | constructor]].
Qed.

Lemma record_offsets_stores cs ws offs sts ens soffs :
  triple (arrays ds cs ws offs sts ens soffs) (record_offsets ds)
    (λ _, arrays ds cs ws (offs ++ [len cs]) sts ens (soffs ++ [len sts]))
    anything.
Proof.
  unfold record_offsets.
  eapply (triple_bind _ (λ n s, arrays ds cs ws offs sts ens soffs s ∧ n = len cs)).
  { apply triple_len_in; [done |]. intros s a H Ha. split; [done |].
    destruct H as (_ & Hcs & _). congruence. }
  intros n.
  eapply (triple_bind _ (λ _, arrays ds cs ws (offs ++ [len cs]) sts ens soffs)).
  { apply triple_list_append_in; [done |].
    intros s a [(Hw & Hcs & Hdec & Ho & H) ->] Ha. rewrite Ho in Ha.
    injection Ha as <-. arrays_split; apply H. }
  intros _.
  eapply (triple_bind _ (λ n s, arrays ds cs ws (offs ++ [len cs]) sts ens soffs s
                              ∧ n = len sts)).
  { apply triple_len_in; [done |]. intros s a H Ha. split; [done |].
    destruct H as (_ & _ & _ & _ & Hst & _). congruence. }
  intros n'. apply triple_list_append_in; [done |].
  intros s a [(Hw & Hcs & Hdec & Ho & Hst & Hen & Hso) ->] Ha. rewrite Hso in Ha.
  injection Ha as <-. arrays_split.
Qed.

Lemma extend_contexts_stores context cs ws offs sts ens soffs :
  triple (arrays ds cs ws offs sts ens soffs) (extend_contexts context ds)
    (λ _ s, ∃ new, arrays ds (cs ++ new) (ws ++ context) offs sts ens soffs s)
    anything.
Proof.
  apply triple_get_bind. intros s0 H0.
  eapply (triple_bind _ (λ _, arrays ds cs ws offs sts ens soffs)).
  { apply triple_lift; by intros; subst. }
  intros _.
  eapply triple_conseq.
  - apply (triple_for_each
             (λ done s, ∃ new, arrays ds (cs ++ new) (ws ++ done) offs sts ens soffs s)
             anything).
    intros done w rest _.
    eapply (triple_bind _ (λ i s,
              ∃ new, arrays ds (cs ++ new) (ws ++ done) offs sts ens soffs s ∧
                     0 ≤ i < len (vocab s) ∧ vocab s !! Z.to_nat i = Some w)).
    + apply triple_add_to_vocab.
      { intros s (new & [Hw _] & _). apply Hw. }
      intros s i v' c' m' (new & H) Hw' Hp Hi Hv. exists new.
      split; [by apply arrays_words | done].
    + intros i. apply triple_array_append_in; [done |].
      intros s a (new & ([Hw Hr] & Hcs & Hdec & H) & Hi & Hv) Ha _.
      rewrite Hcs in Ha. injection Ha as <-. exists (new ++ [i]).
      rewrite !app_assoc. arrays_split; try apply H.
      * split; [done |]. apply ctx_in_range_insert; [done |]. apply Forall_app.
        split; [by eapply Hr | by apply Forall_singleton].
      * apply Forall2_app; [done |]. constructor; [| constructor].
        by rewrite getitem_nonneg by lia.
  - intros s H. exists []. by rewrite !app_nil_r.
  - done.
  - done.
Qed.

Lemma append_spans_stores spans cs ws offs sts ens soffs :
  triple (arrays ds cs ws offs sts ens soffs) (append_spans spans ds)
    (λ _, arrays ds cs ws offs (sts ++ spans.*1) (ens ++ spans.*2) soffs)
    anything.
Proof.
  eapply triple_conseq.
  - apply (triple_for_each
             (λ done, arrays ds cs ws offs (sts ++ done.*1) (ens ++ done.*2) soffs)
             anything).
    intros done span rest _.
    eapply (triple_bind _ (λ _, arrays ds cs ws offs (sts ++ (done ++ [span]).*1)
                                  (ens ++ done.*2) soffs)).
    + apply triple_array_append_in; [done |].
      intros s a (Hw & Hcs & Hdec & Ho & Hst & Hen & Hso) Ha _.
      rewrite Hst in Ha. injection Ha as <-.
      arrays_split. by rewrite fmap_app, app_assoc.
    + intros _. apply triple_array_append_in; [done |].
      intros s a (Hw & Hcs & Hdec & Ho & Hst & Hen & Hso) Ha _.
      rewrite Hen in Ha. injection Ha as <-.
      arrays_split. by rewrite fmap_app, app_assoc.
  - intros s H. by rewrite !app_nil_r.
  - done.
  - done.
Qed.

Lemma append_answers_stores answers spans cs ws offs sts ens soffs :
  triple (arrays ds cs ws offs sts ens soffs) (append_answers answers spans ds)
    (λ _, arrays ds cs ws offs sts ens soffs) anything.
Proof.
  apply triple_get_bind. intros s0 H0.
  destruct answers as [answers |]; [| apply triple_ret; by intros s ->].
  destruct (decide (answers_ s0 = ∅)); [apply triple_ret; by intros s -> |].
  eapply (triple_bind _ (λ _, arrays ds cs ws offs sts ens soffs)).
  { apply triple_assert; [by intros _ s -> | done]. }
  intros _.
  apply (triple_for_each (λ _, arrays ds cs ws offs sts ens soffs) anything).
  intros _ answer _ _.
  apply triple_get_bind. intros s1 H1.
  eapply (triple_bind _ (λ _, arrays ds cs ws offs sts ens soffs)).
  { apply triple_lift; by intros; subst. }
  intros _.
  eapply (triple_bind _ (λ _, arrays ds cs ws offs sts ens soffs)).
  { apply triple_add_to_answer_vocab. intros s v c m Hs. split; [| done].
    intros _. exact Hs. }
  intros i.
  eapply (triple_bind _ (λ _, arrays ds cs ws offs sts ens soffs)).
  { apply triple_array_append_in; [done |]. intros s a Hs _ _. exact Hs. }
  intros _.
  eapply (triple_bind _ (λ _, arrays ds cs ws offs sts ens soffs)).
  - apply triple_add_to_vocab; [by intros s [[H _] _] |].
    intros s j v' c' m' H Hw' Hp _ _. by apply arrays_words.
  - intros _. by apply triple_ret.
Qed.

Lemma span_starts_snoc sps sp : span_starts (sps ++ [sp]) = span_starts sps ++ [sp.*1].
Proof. unfold span_starts. by rewrite fmap_app. Qed.

Lemma span_ends_snoc sps sp : span_ends (sps ++ [sp]) = span_ends sps ++ [sp.*2].
Proof. unfold span_ends. by rewrite fmap_app. Qed.

Lemma concat_snoc {A} (xs : list (list A)) x : concat (xs ++ [x]) = concat xs ++ x.
Proof. rewrite concat_app. simpl. by rewrite app_nil_r. Qed.

(** A call of [add] that returns has stored its context and its spans
    behind those already there, and returns their number. *)
Lemma add_stores context spans answers toks sps :
  triple (stored ds toks sps) (add context spans answers ds)
    (λ n s, holds ds (toks ++ [context]) (sps ++ [spans]) s ∧
            n = len toks ∧ num_contexts s ds = len toks + 1)
    anything.
Proof.
  unfold add.
  eapply (triple_bind _ (λ _, stored ds toks sps)).
  { apply triple_modify. intros s Hs. exact Hs. }
  intros _.
  eapply (triple_bind _ (λ _, holds ds (toks ++ [context]) (sps ++ [spans]))).
  - unfold add_body.
    eapply (triple_bind _ (λ _, stored ds toks sps)); [by apply triple_assert |].
    intros _.
    eapply (triple_bind _ (λ _, holds ds toks sps));
      [apply ensure_partition_stores |].
    intros _. apply triple_at. intros s0 (cs & H0).
    assert (Hlen : len cs = len (concat toks)).
    { destruct H0 as (_ & _ & Hdec & _). unfold len. f_equal.
      by eapply Forall2_length. }
    eapply (triple_bind _ (λ _, arrays ds cs (concat toks)
              (offsets (toks ++ [context])) (concat (span_starts sps))
              (concat (span_ends sps)) (offsets (span_starts (sps ++ [spans]))))).
    { eapply triple_conseq; [apply record_offsets_stores | | | done].
      - intros s ->. exact H0.
      - intros u s H. by rewrite span_starts_snoc, !offsets_snoc, <- Hlen. }
    intros _.
    eapply (triple_bind _ (λ _ s, ∃ new, arrays ds (cs ++ new)
              (concat (toks ++ [context]))
              (offsets (toks ++ [context])) (concat (span_starts sps))
              (concat (span_ends sps)) (offsets (span_starts (sps ++ [spans]))) s)).
    { eapply triple_conseq; [apply extend_contexts_stores | done | | done].
      intros u s [new H]. exists new. by rewrite concat_snoc. }
    intros _. apply triple_at. intros s1 (new & H1).
    eapply (triple_bind _ (λ _, arrays ds (cs ++ new)
              (concat (toks ++ [context]))
              (offsets (toks ++ [context])) (concat (span_starts (sps ++ [spans])))
              (concat (span_ends (sps ++ [spans])))
              (offsets (span_starts (sps ++ [spans]))))).
    { eapply triple_conseq; [apply append_spans_stores | | | done].
      - intros s ->. exact H1.
      - intros u s H. rewrite span_starts_snoc in *.
        rewrite span_ends_snoc. by rewrite !concat_snoc in *. }
    intros _.
    eapply triple_bind; [apply append_answers_stores |].
    intros u. apply triple_get_bind. intros s2 H2.
    apply triple_modify. intros s ->. eexists. exact H2.
  - intros _. apply triple_get_bind. intros s0 H0.
    apply triple_ret. intros s ->. split; [done |].
    destruct H0 as (cs & _ & _ & _ & Ho & _).
    unfold num_contexts. rewrite Ho. simpl. unfold len.
    rewrite offsets_length, length_app. simpl. lia.
Qed.

End Stores.

(** ** Reading back what [add] stored *)

Lemma length_concat_fmap {A B} (f : A → B) (l : list (list A)) :
  length (concat (fmap (M := list) (fmap (M := list) f) l)) = length (concat l).
Proof.
  induction l as [| x l IH]; [done |].
  rewrite fmap_cons. simpl. by rewrite !length_app, length_fmap, IH.
Qed.

Lemma holds_context ds toks sps s i c :
  holds ds toks sps s → toks !! i = Some c →
  ∃ ks, context s (Z.of_nat i) ds = inr ks ∧ decode s ks = Some c.
Proof.
  intros (cs & _ & Hcs & Hdec & Ho & _) Hi.
  pose proof (Forall2_length _ _ _ Hdec) as Hlen.
  destruct (block_bounds toks cs i c Hi Hlen) as [Hb1 Hb2].
  exists (slice cs (len (concat (take i toks))) (len (concat (take (S i) toks)))).
  split.
  - unfold context. rewrite Ho, Hcs, Hb1.
    destruct (Z.of_nat i + 1 <? len (offsets toks)).
    + by rewrite Hb2.
    + by injection Hb2 as ->.
  - unfold decode. apply mapM_Some.
    rewrite (block_slice toks cs i c Hi Hlen).
    rewrite <- (block_cut toks i c Hi) at 1.
    by apply Forall2_take, Forall2_drop.
Qed.

Lemma holds_spans ds toks sps s i sp :
  holds ds toks sps s → sps !! i = Some sp →
  spans s (Z.of_nat i) ds = inr (sp.*1, sp.*2).
Proof.
  intros (cs & _ & _ & _ & _ & Hst & Hen & Hso) Hi.
  assert (His : span_starts sps !! i = Some sp.*1).
  { unfold span_starts. by rewrite list_lookup_fmap, Hi. }
  assert (Hie : span_ends sps !! i = Some sp.*2).
  { unfold span_ends. by rewrite list_lookup_fmap, Hi. }
  destruct (block_bounds (span_starts sps) (concat (span_starts sps)) i _ His eq_refl)
    as [Hb1 Hb2].
  unfold spans. rewrite Hso, Hst, Hen, Hb1.
  assert (Hend : (if Z.of_nat i + 1 <? len (offsets (span_starts sps))
                  then match getitem (offsets (span_starts sps)) (Z.of_nat i + 1) with
                       | Some e => inr e
                       | None => inl IndexError
                       end
                  else inr (len (concat (span_starts sps))))
                 = (inr (len (concat (take (S i) (span_starts sps)))) : exn + Z)).
  { destruct (Z.of_nat i + 1 <? len (offsets (span_starts sps))).
    - by rewrite Hb2.
    - by injection Hb2 as ->. }
  rewrite Hend. f_equal. f_equal.
  - rewrite (block_slice _ _ i _ His eq_refl). by apply block_cut.
  - assert (Hlen : ∀ k, len (concat (take k (span_starts sps)))
                        = len (concat (take k (span_ends sps)))).
    { intros k. unfold len, span_starts, span_ends.
      by rewrite <- !fmap_take, !length_concat_fmap. }
    rewrite !Hlen.
    rewrite (block_slice (span_ends sps) (concat (span_ends sps)) i _ Hie eq_refl).
    by apply block_cut.
Qed.

(** A run of successful [add] calls stores the contexts and spans of
    the calls one behind the other. *)
Lemma run_adds_stores ds calls :
  ∀ s toks sps trace s',
    stored ds toks sps s →
    run_adds ds calls s = (trace, s') →
    Forall (λ r, succeeded r.1) trace →
    stored ds (toks ++ calls.*1.*1) (sps ++ calls.*1.*2) s' ∧
    ∀ k r n, trace !! k = Some (r, n) →
      r = inr (n - 1) ∧ n = len toks + Z.of_nat k + 1.
Proof.
  induction calls as [| [[c sp] a] rest IH]; intros s toks sps trace s' Hs; simpl.
  - intros [= <- <-] _. rewrite !app_nil_r. split; [done |].
    intros k r n Hk. by rewrite lookup_nil in Hk.
  - pose proof (add_stores ds c sp a toks sps s Hs) as Hadd.
    destruct (add c sp a ds s) as [r s1].
    destruct (run_adds ds rest s1) as [rs s2] eqn:Hrun.
    intros [= <- <-] Hok. apply Forall_cons in Hok as [Hr Hok]. simpl in Hr.
    destruct r as [e | n0]; [done |]. destruct Hadd as (Hh & -> & Hn).
    destruct (IH s1 (toks ++ [c]) (sps ++ [sp]) rs s2 (or_intror Hh) Hrun Hok)
      as [Hst Htr].
    rewrite <- !app_assoc in Hst. split; [exact Hst |].
    intros k r n Hk. destruct k as [| k]; simpl in Hk.
    + injection Hk as <- <-. rewrite Hn. split; [f_equal; lia | lia].
    + destruct (Htr k r n Hk) as [-> ->]. split; [done |].
      unfold len. rewrite length_app. simpl. lia.
Qed.

(** C5. A run of [add] calls into one partition of a fresh store, all
    of which return: call number [k] (from 0) returns [k], which is
    [num_contexts(dataset) - 1] when it returns; afterwards
    [num_contexts(dataset)] is the number of calls, and for every
    [i] below it [context(i)] read through [vocab] gives the tokens of
    call [i] and [spans(i)] gives its span starts and span ends. *)
Theorem add_round_trip (dataset : string) (calls : list call)
    (trace : list ((exn + Z) * Z)) (s' : KB) :
  run_adds dataset calls KB_init = (trace, s') →
  Forall (λ r, succeeded r.1) trace →
  (∀ k r n, trace !! k = Some (r, n) → r = inr (n - 1) ∧ n - 1 = Z.of_nat k) ∧
  num_contexts s' dataset = len calls ∧
  ∀ i c sp a, calls !! i = Some (c, sp, a) →
    (∃ ks, context s' (Z.of_nat i) dataset = inr ks ∧ decode s' ks = Some c) ∧
    spans s' (Z.of_nat i) dataset = inr (sp.*1, sp.*2).
Proof.
  intros Hrun Hok.
  assert (Hinit : stored dataset [] [] KB_init).
  { left. repeat split; try done. apply KB_init_wf. }
  destruct (run_adds_stores dataset calls KB_init [] [] trace s' Hinit Hrun Hok)
    as [Hst Htr].
  simpl in Hst. split; [| split].
  - intros k r n Hk. destruct (Htr k r n Hk) as [-> ->].
    split; [done |]. unfold len. simpl. lia.
  - destruct Hst as [(Hnil & _ & _ & _) | (cs & _ & _ & _ & Ho & _)].
    + destruct calls; [| done]. simpl in Hrun. by injection Hrun as _ <-.
    + unfold num_contexts. rewrite Ho. simpl. unfold len.
      by rewrite offsets_length, !length_fmap.
  - intros i c sp a Hi. unfold call in *.
    destruct Hst as [(Hnil & _ & _ & _) | Hh].
    { destruct calls; [by rewrite lookup_nil in Hi | done]. }
    split.
    + apply (holds_context dataset _ _ s' i c Hh).
      by rewrite !list_lookup_fmap, Hi.
    + apply (holds_spans dataset _ _ s' i sp Hh).
      by rewrite !list_lookup_fmap, Hi.
Qed.

Lemma add_round_trip_witness :
  ∃ s', run_adds "train" [(["a"; "b"], [(0, 1)], None);
                            (["b"; "c"; "a"], [(1, 2); (2, 3)], Some ["x"; "y"])]
           KB_init
        = ([(inr 0, 1); (inr 1, 2)], s') ∧
        num_contexts s' "train" = 2 ∧
        (∃ ks, context s' 1 "train" = inr ks ∧ decode s' ks = Some ["b"; "c"; "a"]) ∧
        spans s' 1 "train" = inr ([1; 2], [2; 3]).
Proof.
  eexists. split; [vm_compute; reflexivity |].
  match goal with
  | |- context [num_contexts ?s _] =>
      destruct (add_round_trip "train"
                  [(["a"; "b"], [(0, 1)], None);
                   (["b"; "c"; "a"], [(1, 2); (2, 3)], Some ["x"; "y"])]
                  [(inr 0, 1); (inr 1, 2)] s) as (_ & Hn & Hread)
  end.
  - vm_compute. reflexivity.
  - repeat constructor.
  - split; [exact Hn |].
    exact (Hread 1%nat ["b"; "c"; "a"] [(1, 2); (2, 3)] (Some ["x"; "y"]) eq_refl).
Defined.

(** ** Partitions that never received an answer *)

(** [__add_to_vocab] touches the word vocabulary only. *)
Lemma add_to_vocab_frame key s :
  ∃ v c m, snd (add_to_vocab key s) = set_words v c m s.
Proof.
  assert (Hs : s = set_words (vocab s) (count s) (ids s) s) by (by destruct s).
  unfold add_to_vocab, bind, get_state.
  destruct (ids s !! key) as [k |] eqn:Hk; simpl.
  - rewrite Hk. simpl.
    destruct (getitem (count s) k); simpl; [| eauto].
    destruct (setitem (count s) k (z + 1)); simpl; eauto.
  - rewrite lookup_insert_eq. simpl.
    destruct (getitem _ _); simpl; [| eauto].
    destruct (setitem _ _ _); simpl; eauto.
Qed.

Lemma triple_add_to_vocab_frame key (P : KB → Prop) (Q : Z → KB → Prop) E :
  (∀ s v c m, P s → (∀ i, Q i (set_words v c m s)) ∧ E (set_words v c m s)) →
  triple P (add_to_vocab key) Q E.
Proof.
  intros H s HP. destruct (add_to_vocab_frame key s) as (v & c & m & Hs).
  destruct (add_to_vocab key s) as [[e | i] s']; simpl in Hs; subst s';
    by apply H.
Qed.

Section NoAnswers.
Variable ds : string.
Local Abbreviation anything := (λ _ : KB, True).
Local Abbreviation unanswered := (λ s : KB, answers_ s !! ds = Some []).

(** A call of [add] without answers leaves the answer array of the
    partition empty. *)
Lemma add_unanswered context spans :
  triple (λ s, contexts s !! ds = None ∨ answers_ s !! ds = Some [])
    (add context spans None ds) (λ _, unanswered) anything.
Proof.
  unfold add.
  eapply (triple_bind _ (λ _ s, contexts s !! ds = None ∨ answers_ s !! ds = Some [])).
  { apply triple_modify. intros s Hs. exact Hs. }
  intros _.
  eapply (triple_bind _ (λ _, unanswered)); [| intros _; by apply triple_get_bind;
    intros s0 H0; apply triple_ret; intros s ->].
  unfold add_body.
  eapply (triple_bind _ (λ _ s, contexts s !! ds = None ∨ answers_ s !! ds = Some []));
    [by apply triple_assert |].
  intros _.
  eapply (triple_bind _ (λ _, unanswered)).
  { apply triple_get_bind. intros s0 H0. destruct (contexts s0 !! ds) eqn:Hc.
    - apply triple_ret. intros s ->. by destruct H0.
    - intros s ->. simpl. by rewrite lookup_insert_eq. }
  intros _.
  eapply (triple_bind _ (λ _, unanswered)).
  { unfold record_offsets.
    eapply (triple_bind _ (λ _, unanswered)); [by apply triple_len_in |].
    intros n.
    eapply (triple_bind _ (λ _, unanswered)).
    { apply triple_list_append_in; [done |]. intros s a Hs _. exact Hs. }
    intros _.
    eapply (triple_bind _ (λ _, unanswered)); [by apply triple_len_in |].
    intros n'. apply triple_list_append_in; [done |]. intros s a Hs _. exact Hs. }
  intros _.
  eapply (triple_bind _ (λ _, unanswered)).
  { apply triple_get_bind. intros s0 H0.
    eapply (triple_bind _ (λ _, unanswered)).
    { apply triple_lift; by intros; subst. }
    intros _. apply (triple_for_each (λ _, unanswered) anything).
    intros _ w _ _.
    eapply (triple_bind _ (λ _, unanswered)).
    - apply triple_add_to_vocab_frame. intros s v c m Hs. split; [| done].
      intros _. exact Hs.
    - intros i. apply triple_array_append_in; [done |]. intros s a Hs _ _. exact Hs. }
  intros _.
  eapply (triple_bind _ (λ _, unanswered)).
  { apply (triple_for_each (λ _, unanswered) anything). intros _ span _ _.
    eapply (triple_bind _ (λ _, unanswered)).
    - apply triple_array_append_in; [done |]. intros s a Hs _ _. exact Hs.
    - intros _. apply triple_array_append_in; [done |]. intros s a Hs _ _. exact Hs. }
  intros _.
  eapply (triple_bind _ (λ _, unanswered)).
  { apply triple_get_bind. intros s0 H0. apply triple_ret. by intros s ->. }
  intros _. apply triple_get_bind. intros s0 H0.
  apply triple_modify. intros s ->. exact H0.
Qed.

Lemma run_adds_unanswered calls :
  ∀ s trace s',
    Forall (λ c : call, c.2 = None) calls →
    contexts s !! ds = None ∨ answers_ s !! ds = Some [] →
    run_adds ds calls s = (trace, s') →
    Forall (λ r, succeeded r.1) trace →
    contexts s' !! ds = None ∨ answers_ s' !! ds = Some [].
Proof.
  induction calls as [| [[c sp] a] rest IH]; intros s trace s' Hnone Hs; simpl.
  - by intros [= <- <-] _.
  - apply Forall_cons in Hnone as [Ha Hnone]. simpl in Ha. subst a.
    pose proof (add_unanswered c sp s Hs) as Hadd.
    destruct (add c sp None ds s) as [r s1].
    destruct (run_adds ds rest s1) as [rs s2] eqn:Hrun.
    intros [= <- <-] Hok. apply Forall_cons in Hok as [Hr Hok]. simpl in Hr.
    destruct r as [e | n0]; [done |].
    by apply (IH s1 rs s2 Hnone (or_intror Hadd) Hrun Hok).
Qed.

(** After a run of [add] calls without answers into a partition of a
    fresh store, [answers(i)] returns the empty array for every stored
    context, although each of them has at least one span. *)
Lemma answers_without_answers calls trace s' i :
  Forall (λ c : call, c.2 = None) calls →
  run_adds ds calls KB_init = (trace, s') →
  Forall (λ r, succeeded r.1) trace →
  (i < length calls)%nat →
  answers s' (Z.of_nat i) ds = inr [].
Proof.
  intros Hnone Hrun Hok Hi.
  assert (Hinit : stored ds [] [] KB_init).
  { left. repeat split; try done. apply KB_init_wf. }
  destruct (run_adds_stores ds calls KB_init [] [] trace s' Hinit Hrun Hok)
    as [Hst _].
  simpl in Hst.
  destruct Hst as [(Hnil & _) | (cs & _ & Hcs & _ & _ & _ & _ & Hso)].
  { destruct calls; [simpl in Hi; lia | done]. }
  destruct (run_adds_unanswered calls KB_init trace s' Hnone (or_introl eq_refl)
              Hrun Hok) as [Hc | Ha]; [congruence |].
  unfold answers. rewrite Hso, Ha.
  assert (Hlen : length (offsets (span_starts calls.*1.*2)) = length calls).
  { unfold span_starts. by rewrite offsets_length, !length_fmap. }
  destruct (getitem_in_range (offsets (span_starts calls.*1.*2)) (Z.of_nat i))
    as [offset Hoff]; [unfold len; lia |].
  rewrite Hoff.
  destruct (decide (answers_ s' = ∅)) as [Hempty |].
  { by rewrite Hempty, lookup_empty in Ha. }
  assert (Hslice : ∀ a b, slice ([] : list Z) a b = []).
  { intros a b. unfold slice. by rewrite drop_nil, take_nil. }
  destruct (Z.of_nat i + 1 <? len (offsets (span_starts calls.*1.*2))) eqn:Hlt.
  - destruct (getitem_in_range (offsets (span_starts calls.*1.*2)) (Z.of_nat i + 1))
      as [e He]; [apply Z.ltb_lt in Hlt; lia |].
    by rewrite He, Hslice.
  - by rewrite Hslice.
Qed.

End NoAnswers.

(** ** The entity index of [FactKB] *)

Lemma setitem_length {A} (l l' : list A) i x :
  setitem l i x = Some l' → length l' = length l.
Proof.
  unfold setitem. destruct (0 <=? i).
  - destruct (i <? len l); [| done]. intros [= <-]. apply length_insert.
  - destruct (- len l <=? i); [| done]. intros [= <-]. apply length_insert.
Qed.

Lemma getitem_setitem {A} (l : list A) i x :
  is_Some (getitem l i) → is_Some (setitem l i x).
Proof.
  unfold getitem, setitem, len. destruct (Z.leb_spec 0 i).
  - intros [y Hy]. apply lookup_lt_Some in Hy.
    destruct (Z.ltb_spec i (Z.of_nat (length l))); [eauto | lia].
  - destruct (- Z.of_nat (length l) <=? i); [eauto | by intros [y Hy]].
Qed.

Lemma is_Some_insert_existing {A} (m : gmap string A) k v v' k' :
  m !! k = Some v → is_Some (<[k := v']> m !! k') ↔ is_Some (m !! k').
Proof.
  intros Hk. destruct (decide (k = k')) as [<- | Hne].
  - rewrite lookup_insert_eq, Hk. split; eauto.
  - by rewrite lookup_insert_ne.
Qed.

Section FactAppends.
Context {A : Type}.
Variables (P E : FactKB → Prop) (Q : unit → FactKB → Prop).
Variables (dataset : string) (x : A).

Lemma triple_append_in (rd : FactKB → gmap string (list A)) wr :
  (∀ s, P s → rd s !! dataset = None → E s) →
  (∀ s l, P s → rd s !! dataset = Some l → Q tt (wr (<[dataset := l ++ [x]]>) s)) →
  triple P (append_in rd wr dataset x) Q E.
Proof.
  intros HE HQ s HP. unfold append_in, bind, get_state.
  destruct (rd s !! dataset) as [l |] eqn:Hl; simpl; [by apply HQ | by apply HE].
Qed.

Lemma triple_append_at (rd : FactKB → gmap string (list (list A))) wr id :
  (∀ s, P s → E s) →
  (∀ s l l', P s → rd s !! dataset = Some l → length l' = length l →
     Q tt (wr (<[dataset := l']>) s)) →
  triple P (append_at rd wr dataset id x) Q E.
Proof.
  intros HE HQ s HP. unfold append_at, bind, get_state.
  destruct (rd s !! dataset) as [l |] eqn:Hl; simpl; [| by apply HE].
  destruct (getitem l id) as [m |] eqn:Hm; simpl; [| by apply HE].
  destruct (getitem_setitem l id (m ++ [x])) as [l' Hl']; [by rewrite Hm |].
  rewrite Hl'. simpl. eapply HQ; [done | done |]. by eapply setitem_length.
Qed.

End FactAppends.

Lemma backfilling_start s e :
  fkb_inv s → entity_ids s !! e = None →
  backfilling (datasets_of s) [] []
    (set_entities (entity_vocab s ++ [e])
                  (<[e := len (entity_vocab s)]> (entity_ids s)) s).
Proof.
  intros (Hsz & Hr & Hf & Hc & Hal) He.
  split; [| split; [| split; [| split; [| split; [| split]]]]]; simpl.
  - rewrite map_size_insert_None by done. rewrite length_app. simpl. lia.
  - intros e' id. unfold len. rewrite length_app. simpl.
    destruct (decide (e = e')) as [<- | Hne].
    + rewrite lookup_insert_eq. intros [= <-]. lia.
    + rewrite lookup_insert_ne by done. intros H. apply Hr in H. unfold len in H. lia.
  - done.
  - done.
  - intros ds. unfold datasets_of. rewrite list_elem_of_fmap. split.
    + intros [l Hl]. exists (ds, l). split; [done |]. by apply elem_of_map_to_list.
    + intros [[ds' l] [-> Hl]]. apply elem_of_map_to_list in Hl. eauto.
  - intros ds l Hl. destruct (decide (ds ∈ [])) as [Hin | _].
    { by apply elem_of_nil in Hin. }
    rewrite length_app. simpl. f_equal. by apply (Hal ds).
  - intros ds l Hl. destruct (decide (ds ∈ [])) as [Hin | _].
    { by apply elem_of_nil in Hin. }
    rewrite length_app. simpl. f_equal. by apply (Hal ds).
Qed.

Lemma backfilling_end keys s : backfilling keys keys keys s → fkb_inv s.
Proof.
  intros (Hsz & Hr & Hf & Hc & Hk & Hlc & Hls).
  split; [done | split; [done | split; [done | split; [done |]]]].
  intros ds. split.
  - intros l Hl. specialize (Hlc ds l Hl).
    destruct (decide (ds ∈ keys)) as [_ | Hn]; [lia |].
    destruct Hn. apply Hk. eauto.
  - intros l Hl. specialize (Hls ds l Hl).
    destruct (decide (ds ∈ keys)) as [_ | Hn]; [lia |].
    destruct Hn. apply Hk, Hc. eauto.
Qed.

Lemma pending_snoc_eq (done : list string) ds :
  (if decide (ds ∈ done ++ [ds]) then 0 else 1)%nat = 0%nat.
Proof.
  destruct (decide _) as [_ | Hn]; [done |].
  destruct Hn. apply elem_of_app. right. by left.
Qed.

Lemma pending_snoc_ne (done : list string) ds ds' :
  ds ≠ ds' →
  (if decide (ds' ∈ done ++ [ds]) then 0 else 1)%nat
  = (if decide (ds' ∈ done) then 0 else 1)%nat.
Proof.
  intros Hne.
  destruct (decide (ds' ∈ done ++ [ds])) as [Hin | Hn], (decide (ds' ∈ done));
    try done.
  - apply elem_of_app in Hin as [Hin | Hin]; [done |].
    apply elem_of_cons in Hin as [-> | Hin]; [done |].
    by apply elem_of_nil in Hin.
  - destruct Hn. apply elem_of_app. by left.
Qed.

(** The loop [for ds in self.__entity_ctxt] gives every partition its
    slot for the new entity, and does not raise. *)
Lemma backfill_inv keys :
  NoDup keys →
  triple (backfilling keys [] [])
    (for_each keys (fun ds =>
       append_in entity_ctxt set_entity_ctxt ds [] ;;
       append_in entity_ctxt_span set_entity_ctxt_span ds []))
    (λ _, fkb_inv) fkb_inv.
Proof.
  intros Hnd. eapply triple_conseq.
  - apply (triple_for_each (λ done, backfilling keys done done) fkb_inv).
    intros done ds rest Hkeys.
    assert (Hin : ds ∈ keys).
    { rewrite Hkeys. apply elem_of_app. right. by left. }
    assert (Hnot : ds ∉ done).
    { rewrite Hkeys in Hnd. apply NoDup_app in Hnd as (_ & Hnd & _).
      intros Hd. apply (Hnd ds Hd). by left. }
    eapply (triple_bind _ (λ _, backfilling keys (done ++ [ds]) done)).
    + apply triple_append_in.
      * intros s (_ & _ & _ & _ & Hk & _) Hnone. apply Hk in Hin.
        rewrite Hnone in Hin. by destruct Hin.
      * intros s l (Hsz & Hr & Hf & Hc & Hk & Hlc & Hls) Hl.
        split; [| split; [| split; [| split; [| split; [| split]]]]]; simpl;
          try done.
        -- intros ds'. rewrite (is_Some_insert_existing _ _ _ _ _ Hl). apply Hf.
        -- intros ds'. rewrite (is_Some_insert_existing _ _ _ _ _ Hl). apply Hc.
        -- intros ds'. rewrite (is_Some_insert_existing _ _ _ _ _ Hl). apply Hk.
        -- intros ds' l'. destruct (decide (ds = ds')) as [<- | Hne].
           ++ rewrite lookup_insert_eq. intros [= <-].
              specialize (Hlc ds l Hl).
              destruct (decide (ds ∈ done)); [done |].
              rewrite pending_snoc_eq, length_app. simpl. lia.
           ++ rewrite lookup_insert_ne by done. intros Hl'.
              rewrite pending_snoc_ne by done. by apply Hlc.
    + intros _. apply triple_append_in.
      * intros s (_ & _ & _ & Hc & Hk & _) Hnone. apply Hk, Hc in Hin.
        rewrite Hnone in Hin. by destruct Hin.
      * intros s l (Hsz & Hr & Hf & Hc & Hk & Hlc & Hls) Hl.
        split; [| split; [| split; [| split; [| split; [| split]]]]]; simpl;
          try done.
        -- intros ds'. rewrite (is_Some_insert_existing _ _ _ _ _ Hl). apply Hc.
        -- intros ds' l'. destruct (decide (ds = ds')) as [<- | Hne].
           ++ rewrite lookup_insert_eq. intros [= <-].
              specialize (Hls ds l Hl).
              destruct (decide (ds ∈ done)); [done |].
              rewrite pending_snoc_eq, length_app. simpl. lia.
           ++ rewrite lookup_insert_ne by done. intros Hl'.
              rewrite pending_snoc_ne by done. by apply Hls.
  - done.
  - intros u s H. by apply (backfilling_end keys).
  - done.
Qed.

Lemma fkb_inv_insert_ctxt s ds l l' :
  fkb_inv s → entity_ctxt s !! ds = Some l → length l' = length l →
  fkb_inv (set_entity_ctxt (<[ds := l']>) s).
Proof.
  intros (Hsz & Hr & Hf & Hc & Hal) Hl Hlen.
  split; [done | split; [done | split; [| split]]]; simpl.
  - intros ds'. rewrite (is_Some_insert_existing _ _ _ _ _ Hl). apply Hf.
  - intros ds'. rewrite (is_Some_insert_existing _ _ _ _ _ Hl). apply Hc.
  - intros ds'. split; simpl; [| apply Hal].
    intros l0. destruct (decide (ds = ds')) as [<- | Hne].
    + rewrite lookup_insert_eq. intros [= <-]. rewrite Hlen. by apply (Hal ds).
    + rewrite lookup_insert_ne by done. apply Hal.
Qed.

Lemma fkb_inv_insert_span s ds l l' :
  fkb_inv s → entity_ctxt_span s !! ds = Some l → length l' = length l →
  fkb_inv (set_entity_ctxt_span (<[ds := l']>) s).
Proof.
  intros (Hsz & Hr & Hf & Hc & Hal) Hl Hlen.
  split; [done | split; [done | split; [done | split]]]; simpl.
  - intros ds'. rewrite (is_Some_insert_existing _ _ _ _ _ Hl). apply Hc.
  - intros ds'. split; simpl; [apply Hal |].
    intros l0. destruct (decide (ds = ds')) as [<- | Hne].
    + rewrite lookup_insert_eq. intros [= <-]. rewrite Hlen. by apply (Hal ds).
    + rewrite lookup_insert_ne by done. apply Hal.
Qed.

Lemma fkb_inv_insert_facts s ds l l' :
  fkb_inv s → facts s !! ds = Some l →
  fkb_inv (set_facts (<[ds := l']>) s).
Proof.
  intros (Hsz & Hr & Hf & Hc & Hal) Hl.
  split; [done | split; [done | split; [| done]]]; simpl.
  intros ds'. rewrite (is_Some_insert_existing _ _ _ _ _ Hl). apply Hf.
Qed.

(** A partition created when entities exist already starts with one
    empty mention list per entity. *)
Lemma fkb_inv_new_partition s ds :
  fkb_inv s → facts s !! ds = None →
  fkb_inv (set_entity_ctxt_span (<[ds := replicate (size (entity_ids s)) []]>)
            (set_entity_ctxt (<[ds := replicate (size (entity_ids s)) []]>)
              (set_facts (<[ds := []]>) s))).
Proof.
  intros (Hsz & Hr & Hf & Hc & Hal) Hnone.
  split; [done | split; [done | split; [| split]]]; simpl.
  - intros ds'. destruct (decide (ds = ds')) as [<- | Hne].
    + rewrite !lookup_insert_eq. split; eauto.
    + rewrite !lookup_insert_ne by done. apply Hf.
  - intros ds'. destruct (decide (ds = ds')) as [<- | Hne].
    + rewrite !lookup_insert_eq. split; eauto.
    + rewrite !lookup_insert_ne by done. apply Hc.
  - intros ds'. split; simpl; intros l; (destruct (decide (ds = ds')) as [<- | Hne];
      [rewrite lookup_insert_eq; intros [= <-]; by rewrite length_replicate
      | rewrite lookup_insert_ne by done; apply Hal]).
Qed.

Lemma index_fact_inv fact_id entities entity_spans dataset :
  triple fkb_inv (index_fact fact_id entities entity_spans dataset)
    (λ _, fkb_inv) fkb_inv.
Proof.
  unfold index_fact. apply triple_get_bind. intros s0 H0.
  eapply (triple_bind _ (λ _, fkb_inv)).
  { destruct (facts s0 !! dataset) eqn:Hf.
    - apply triple_ret. by intros s ->.
    - intros s ->. simpl. by apply fkb_inv_new_partition. }
  intros _. apply triple_for_each_inv. intros [e span] _. simpl.
  apply triple_get_bind. intros s1 H1.
  eapply (triple_bind _ (λ _, fkb_inv)).
  { destruct (entity_ids s1 !! e) eqn:He.
    - apply triple_ret. by intros s ->.
    - eapply (triple_bind _ (λ _, backfilling (datasets_of s1) [] [])).
      + apply triple_modify. intros s ->. by apply backfilling_start.
      + intros _. apply backfill_inv. apply NoDup_fst_map_to_list. }
  intros _. apply triple_get_bind. intros s2 H2.
  eapply (triple_bind _ (λ _, fkb_inv)).
  { apply triple_lift; by intros; subst. }
  intros id.
  eapply (triple_bind _ (λ _, fkb_inv)).
  { apply triple_append_at; [done |]. intros s l l' Hs Hl Hlen.
    by eapply fkb_inv_insert_ctxt. }
  intros _.
  eapply (triple_bind _ (λ _, fkb_inv)).
  { apply triple_append_at; [done |]. intros s l l' Hs Hl Hlen.
    by eapply fkb_inv_insert_span. }
  intros _. apply triple_append_in; [done |].
  intros s l Hs Hl. by eapply fkb_inv_insert_facts.
Qed.

Lemma on_kb_inv {A} (m : M KB A) :
  triple fkb_inv (on_kb m) (λ _, fkb_inv) fkb_inv.
Proof. intros s Hs. unfold on_kb. by destruct (m (kb s)) as [[e | x] k]. Qed.

(** [FactKB.add] keeps the index aligned, whatever its outcome. *)
Lemma fact_add_inv fact entity_spans entities dataset :
  triple fkb_inv (fact_add fact entity_spans entities dataset)
    (λ _, fkb_inv) fkb_inv.
Proof.
  unfold fact_add.
  eapply (triple_bind _ (λ _, fkb_inv)); [by apply triple_assert |].
  intros _.
  eapply (triple_bind _ (λ _, fkb_inv)); [apply on_kb_inv |].
  intros fact_id.
  eapply (triple_bind _ (λ _, fkb_inv)); [apply index_fact_inv |].
  intros _. by apply triple_ret.
Qed.

Lemma FactKB_init_inv k : fkb_inv (FactKB_init k).
Proof.
  assert (Hempty : ∀ A B (ds : string),
            is_Some ((∅ : gmap string A) !! ds) ↔ is_Some ((∅ : gmap string B) !! ds)).
  { intros A B ds. rewrite !lookup_empty. split; by intros [x Hx]. }
  split; [done |]. split; [intros e id H; simpl in H; by rewrite lookup_empty in H |].
  split; [apply Hempty |]. split; [apply Hempty |].
  intros ds. split; intros l H; simpl in H; by rewrite lookup_empty in H.
Qed.

Lemma fkb_reachable_inv s : fkb_reachable s → fkb_inv s.
Proof.
  induction 1 as [k | s fact entity_spans entities dataset _ IH].
  - apply FactKB_init_inv.
  - pose proof (triple_run _ _ _ _ s
                  (fact_add_inv fact entity_spans entities dataset) IH) as H.
    by destruct (fst (fact_add fact entity_spans entities dataset s)).
Qed.

(** C10. In every store reached from [FactKB(kb)] by calls of [add],
    in whatever order partitions and entities first appear, each
    partition present in the entity index has a mention-fact-list array
    and a mention-span-list array with one slot per entity of the entity
    vocabulary, so that indexing either by an entity id succeeds. *)
Theorem entity_index_aligned (s : FactKB) (dataset : string) :
  fkb_reachable s →
  is_Some (entity_ctxt s !! dataset) →
  ∃ l l',
    entity_ctxt s !! dataset = Some l ∧
    entity_ctxt_span s !! dataset = Some l' ∧
    len l = len (entity_vocab s) ∧
    len l' = len (entity_vocab s) ∧
    (∀ id, 0 ≤ id < len (entity_vocab s) →
       is_Some (getitem l id) ∧ is_Some (getitem l' id)) ∧
    (∀ e id, entity_ids s !! e = Some id → 0 ≤ id < len (entity_vocab s)).
Proof.
  intros Hreach [l Hl].
  destruct (fkb_reachable_inv s Hreach) as (_ & Hr & _ & Hc & Hal).
  destruct (proj1 (Hc dataset) (ex_intro _ l Hl)) as [l' Hl'].
  exists l, l'. destruct (Hal dataset) as [H1 H2].
  specialize (H1 l Hl). specialize (H2 l' Hl').
  split; [done |]. split; [done |]. unfold len.
  split; [by rewrite H1 |]. split; [by rewrite H2 |]. split; [| done].
  intros id Hid. split; apply getitem_in_range; unfold len; lia.
Qed.

Lemma two_partitions_reachable : fkb_reachable two_partitions.
Proof. unfold two_partitions. apply fkb_reach_add, fkb_reach_add, fkb_reach_init. Qed.

Lemma entity_index_aligned_witness :
  entity_vocab two_partitions = ["Paris"; "France"; "Rome"; "Italy"] ∧
  entity_ctxt two_partitions !! "train" = Some [[0]; [0]; []; []] ∧
  entity_ctxt two_partitions !! "valid" = Some [[]; []; [0]; [0]] ∧
  ∃ l l',
    entity_ctxt two_partitions !! "valid" = Some l ∧
    entity_ctxt_span two_partitions !! "valid" = Some l' ∧
    len l = len (entity_vocab two_partitions) ∧
    len l' = len (entity_vocab two_partitions) ∧
    (∀ id, 0 ≤ id < len (entity_vocab two_partitions) →
       is_Some (getitem l id) ∧ is_Some (getitem l' id)) ∧
    (∀ e id, entity_ids two_partitions !! e = Some id →
       0 ≤ id < len (entity_vocab two_partitions)).
Proof.
  split; [vm_compute; reflexivity |].
  split; [vm_compute; reflexivity |].
  split; [vm_compute; reflexivity |].
  apply (entity_index_aligned two_partitions "valid" two_partitions_reachable).
  vm_compute. eauto.
Defined.

(** [fact_entities(id)] returns the mention lists that
    [facts_about(id)] reads: those of the entity whose id is [id]. *)
Lemma fact_entities_facts_about s id dataset fs sps :
  fact_entities s id dataset = inr (fs, sps) →
  facts_about s (inr id) dataset = inr fs.
Proof.
  unfold fact_entities, facts_about.
  destruct (entity_ctxt s !! dataset) as [l |]; [| done].
  destruct (getitem l id) as [fs' |]; [| done].
  destruct (entity_ctxt_span s !! dataset) as [l' |]; [| done].
  destruct (getitem l' id); [| done]. by intros [= <- _].
Qed.

(** * Further properties of the store *)

(** ** The vocabulary and [id] *)

Lemma wf_words_NoDup v c m : wf_words v c m → NoDup v.
Proof.
  intros [_ H]. apply NoDup_alt. intros i j w Hi Hj.
  assert (m !! w = Some (Z.of_nat i)) as H1.
  { apply H. split; [lia |]. by rewrite Nat2Z.id. }
  assert (m !! w = Some (Z.of_nat j)) as H2.
  { apply H. split; [lia |]. by rewrite Nat2Z.id. }
  rewrite H1 in H2. injection H2. lia.
Qed.

(** An id, once given, stays when the vocabulary grows. *)
Lemma wf_words_prefix_lookup v c m v' c' m' w k :
  wf_words v c m → wf_words v' c' m' → v `prefix_of` v' →
  m !! w = Some k → m' !! w = Some k.
Proof.
  intros [_ H] [_ H'] Hp Hk. apply H in Hk as [H0 Hk]. apply H'.
  split; [done |]. by eapply prefix_lookup_Some.
Qed.

Section VocabularyClaims.
Variable argsort : list Z → list nat.
Hypothesis argsort_ok : argsort_contract argsort.

(** X1. In every store built by [add] and [order_vocab_by_freq], the
    vocabulary has no symbol twice and as many counts as symbols, and
    [id] and [vocab] are inverse of each other: [id(vocab[k]) = k],
    [vocab[id(w)] = w] for every symbol of the vocabulary, and
    [id(w, fallback) = fallback] for every other string. *)
Theorem vocab_id_inverse (s : KB) (fallback : Z) :
  reachable argsort s →
  NoDup (vocab s) ∧
  length (vocab s) = length (count s) ∧
  (∀ (k : nat) w, vocab s !! k = Some w → kb_id s w fallback = Z.of_nat k) ∧
  (∀ w, w ∈ vocab s → getitem (vocab s) (kb_id s w fallback) = Some w) ∧
  (∀ w, w ∉ vocab s → kb_id s w fallback = fallback).
Proof.
  intros Hreach.
  destruct (reachable_wf argsort argsort_ok s Hreach) as [[Hw _] _].
  pose proof (wf_words_NoDup _ _ _ Hw) as Hnd. destruct Hw as [Hl Hb].
  split; [done |]. split; [done |]. unfold kb_id. split; [| split].
  - intros k w Hk.
    assert (ids s !! w = Some (Z.of_nat k)) as ->; [| done].
    apply Hb. split; [lia |]. by rewrite Nat2Z.id.
  - intros w Hin. apply list_elem_of_lookup in Hin as [k Hk].
    assert (ids s !! w = Some (Z.of_nat k)) as ->.
    { apply Hb. split; [lia |]. by rewrite Nat2Z.id. }
    simpl. by rewrite getitem_of_nat.
  - intros w Hnin. destruct (ids s !! w) as [k |] eqn:Hk; [| done].
    destruct Hnin. apply Hb in Hk as [_ Hk]. by eapply list_elem_of_lookup_2.
Qed.

End VocabularyClaims.

Lemma vocab_id_inverse_witness :
  vocab sample = ["a"; "b"; "c"; "d"] ∧
  kb_id sample "c" (-1) = 2 ∧
  getitem (vocab sample) (kb_id sample "c" (-1)) = Some "c" ∧
  kb_id sample "z" (-1) = -1.
Proof.
  destruct (vocab_id_inverse stable_argsort stable_argsort_contract sample (-1)
              sample_reachable) as (_ & _ & H1 & H2 & H3).
  split; [vm_compute; reflexivity |]. split; [| split].
  - apply (H1 2%nat "c"). vm_compute. reflexivity.
  - apply H2. vm_compute. by do 2 right; left.
  - apply H3. vm_compute. intros H.
    repeat (apply elem_of_cons in H as [H | H]; [discriminate |]).
    by apply elem_of_nil in H.
Defined.

(** ** What interning a symbol does *)

Lemma add_to_vocab_exact key s :
  wf_words (vocab s) (count s) (ids s) →
  add_to_vocab key s =
  match ids s !! key with
  | Some k =>
      (inr k, set_words (vocab s)
                (<[Z.to_nat k := default 0 (count s !! Z.to_nat k) + 1]> (count s))
                (ids s) s)
  | None =>
      (inr (len (vocab s)),
       set_words (vocab s ++ [key]) (count s ++ [1])
                 (<[key := len (vocab s)]> (ids s)) s)
  end.
Proof.
  intros Hwf. unfold add_to_vocab, bind, get_state.
  destruct (ids s !! key) as [k |] eqn:Hk; simpl.
  - rewrite Hk. simpl.
    pose proof (wf_words_lookup_lt _ _ _ _ _ Hwf Hk) as Hlt.
    destruct Hwf as [Hl Hb].
    assert (Hc : is_Some (count s !! Z.to_nat k)).
    { apply lookup_lt_is_Some. unfold len in Hlt. lia. }
    destruct Hc as [c Hc].
    rewrite getitem_nonneg by lia. rewrite Hc. simpl.
    by rewrite setitem_nonneg by (unfold len in *; lia).
  - rewrite lookup_insert_eq. simpl. destruct Hwf as [Hl Hb].
    unfold len at 1. rewrite getitem_of_nat.
    rewrite Hl, list_lookup_middle by done. simpl.
    unfold len at 1.
    rewrite setitem_of_nat by (rewrite length_app; simpl; lia). simpl.
    rewrite Hl. replace (length (count s)) with (length (count s) + 0)%nat by lia.
    by rewrite insert_app_r.
Qed.

Lemma add_to_answer_vocab_exact key s :
  wf_words (answer_vocab s) (answer_count s) (answer_ids s) →
  add_to_answer_vocab key s =
  match answer_ids s !! key with
  | Some k =>
      (inr k, set_answer_words (answer_vocab s)
                (<[Z.to_nat k := default 0 (answer_count s !! Z.to_nat k) + 1]>
                   (answer_count s))
                (answer_ids s) s)
  | None =>
      (inr (len (answer_vocab s)),
       set_answer_words (answer_vocab s ++ [key]) (answer_count s ++ [1])
                        (<[key := len (answer_vocab s)]> (answer_ids s)) s)
  end.
Proof.
  intros Hwf. unfold add_to_answer_vocab, bind, get_state.
  destruct (answer_ids s !! key) as [k |] eqn:Hk; simpl.
  - rewrite Hk. simpl.
    pose proof (wf_words_lookup_lt _ _ _ _ _ Hwf Hk) as Hlt.
    destruct Hwf as [Hl Hb].
    assert (Hc : is_Some (answer_count s !! Z.to_nat k)).
    { apply lookup_lt_is_Some. unfold len in Hlt. lia. }
    destruct Hc as [c Hc].
    rewrite getitem_nonneg by lia. rewrite Hc. simpl.
    by rewrite setitem_nonneg by (unfold len in *; lia).
  - rewrite lookup_insert_eq. simpl. destruct Hwf as [Hl Hb].
    unfold len at 1. rewrite getitem_of_nat.
    rewrite Hl, list_lookup_middle by done. simpl.
    unfold len at 1.
    rewrite setitem_of_nat by (rewrite length_app; simpl; lia). simpl.
    rewrite Hl.
    replace (length (answer_count s)) with (length (answer_count s) + 0)%nat by lia.
    by rewrite insert_app_r.
Qed.

(** ** [add] keeps the six dicts, the offsets and the answers consistent *)

Section Consistency.
Implicit Types (s : KB) (p : option (string * Z)).

Lemma consistent_set_starts p s ds a a' :
  consistent_with p s → starts s !! ds = Some a →
  consistent_with p (set_starts (<[ds := a']>) s).
Proof.
  intros (Hw & Ha & Hp & Ho & Hk) Hl.
  split; [done |]. split; [done |]. split; [| done].
  intros ds'. specialize (Hp ds'). simpl.
  by rewrite (is_Some_insert_existing _ _ _ _ _ Hl).
Qed.

Lemma consistent_set_ends p s ds a a' :
  consistent_with p s → ends s !! ds = Some a →
  consistent_with p (set_ends (<[ds := a']>) s).
Proof.
  intros (Hw & Ha & Hp & Ho & Hk) Hl.
  split; [done |]. split; [done |]. split; [| done].
  intros ds'. specialize (Hp ds'). simpl.
  by rewrite (is_Some_insert_existing _ _ _ _ _ Hl).
Qed.

Lemma consistent_set_answers p s ds a a' :
  consistent_with p s → answers_ s !! ds = Some a →
  consistent_with p (set_answers (<[ds := a']>) s).
Proof.
  intros (Hw & Ha & Hp & Ho & Hk) Hl.
  split; [done |]. split; [done |]. split; [| done].
  intros ds'. specialize (Hp ds'). simpl.
  by rewrite (is_Some_insert_existing _ _ _ _ _ Hl).
Qed.

Lemma consistent_set_span_offsets p s ds a a' :
  consistent_with p s → span_offsets s !! ds = Some a →
  consistent_with p (set_span_offsets (<[ds := a']>) s).
Proof.
  intros (Hw & Ha & Hp & Ho & Hk) Hl.
  split; [done |]. split; [done |]. split; [| done].
  intros ds'. specialize (Hp ds'). simpl.
  by rewrite (is_Some_insert_existing _ _ _ _ _ Hl).
Qed.

Lemma consistent_set_context_offsets p s ds offs cs :
  consistent_with p s →
  context_offsets s !! ds = Some offs → contexts s !! ds = Some cs →
  consistent_with p (set_context_offsets (<[ds := offs ++ [len cs]]>) s).
Proof.
  intros (Hw & Ha & Hp & Ho & Hk) Hl Hcs.
  split; [done |]. split; [done |]. split; [| split; [| done]].
  - intros ds'. specialize (Hp ds'). simpl.
    by rewrite (is_Some_insert_existing _ _ _ _ _ Hl).
  - intros ds' offs' cs'. simpl. destruct (decide (ds = ds')) as [<- | Hne].
    + rewrite lookup_insert_eq, Hcs. intros [= <-] [= <-].
      apply Forall_app. split; [by eapply Ho |].
      apply Forall_singleton. unfold len. lia.
    + rewrite lookup_insert_ne by done. apply Ho.
Qed.

Lemma consistent_set_contexts p s ds cs i :
  consistent_with p s → contexts s !! ds = Some cs →
  0 ≤ i < len (vocab s) →
  consistent_with p (set_contexts (<[ds := cs ++ [i]]>) s).
Proof.
  intros ([Hw Hr] & Ha & Hp & Ho & Hk) Hl Hi.
  split; [split; [done |] |]. 
  { apply ctx_in_range_insert; [done |]. apply Forall_app.
    split; [by eapply Hr | by apply Forall_singleton]. }
  split; [done |]. split; [| split; [| done]].
  - intros ds'. specialize (Hp ds'). simpl.
    by rewrite !(is_Some_insert_existing _ _ _ _ _ Hl).
  - intros ds' offs' cs'. simpl. destruct (decide (ds = ds')) as [<- | Hne].
    + rewrite lookup_insert_eq. intros Hoffs [= <-].
      eapply Forall_impl; [by eapply Ho |]. intros o Hoo. simpl in Hoo.
      unfold len in *. rewrite length_app. simpl. lia.
    + rewrite lookup_insert_ne by done. apply Ho.
Qed.

Lemma consistent_set_words p s v' c' m' :
  consistent_with p s → wf_words v' c' m' → vocab s `prefix_of` v' →
  consistent_with p (set_words v' c' m' s).
Proof.
  intros ([Hw Hr] & Ha & Hp & Ho & Hk) Hw' Hpre.
  split; [split; [done | by eapply ctx_in_range_prefix] |].
  split; [done |]. split; [done |]. split; [done |].
  intros k w Hkw Hfit. destruct (Hk k w Hkw Hfit) as [[i Hi] | Hpend]; [| by right].
  left. exists i. simpl.
  exact (wf_words_prefix_lookup _ _ _ _ _ _ _ _ Hw Hw' Hpre Hi).
Qed.

Lemma consistent_new_partition s ds :
  consistent_with None s → contexts s !! ds = None →
  consistent_with None
    (set_span_offsets (<[ds := []]>)
      (set_context_offsets (<[ds := []]>)
        (set_answers (<[ds := []]>)
          (set_ends (<[ds := []]>)
            (set_starts (<[ds := []]>)
              (set_contexts (<[ds := []]>) s)))))).
Proof.
  intros ([Hw Hr] & Ha & Hp & Ho & Hk) Hnone.
  split; [split; [done |] |].
  { apply ctx_in_range_insert; [done | constructor]. }
  split; [done |]. split; [| split; [| done]].
  - intros ds'. simpl. destruct (decide (ds = ds')) as [<- | Hne].
    + rewrite !lookup_insert_eq. repeat split; eauto.
    + rewrite !lookup_insert_ne by done. apply Hp.
  - intros ds' offs' cs'. simpl. destruct (decide (ds = ds')) as [<- | Hne].
    + rewrite !lookup_insert_eq. intros [= <-] _. constructor.
    + rewrite !lookup_insert_ne by done. apply Ho.
Qed.

Lemma triple_array_append_in_cases rd wr (P E : KB → Prop) (Q : unit → KB → Prop)
    dataset v :
  (∀ s, P s → rd s !! dataset = None → E s) →
  (∀ s a, P s → rd s !! dataset = Some a → ¬ fits v → E s) →
  (∀ s a, P s → rd s !! dataset = Some a → fits v →
     Q tt (wr (<[dataset := a ++ [v]]>) s)) →
  triple P (array_append_in rd wr dataset v) Q E.
Proof.
  intros HK HO HQ s HP. unfold array_append_in, bind, get_state.
  destruct (rd s !! dataset) as [a |] eqn:Ha; simpl; [| by apply HK].
  unfold array_append.
  destruct (Z.leb_spec 0 v); simpl; [| eapply HO; [done | done | unfold fits; lia]].
  destruct (Z.leb_spec v UINT_MAX); simpl;
    [| eapply HO; [done | done | unfold fits; lia]].
  eapply HQ; [done | done | by unfold fits].
Qed.

Local Abbreviation K := (consistent_with None).

Lemma ensure_partition_consistent ds :
  triple K (ensure_partition ds) (λ _, K) K.
Proof.
  apply triple_get_bind. intros s0 H0.
  destruct (contexts s0 !! ds) eqn:Hc.
  - apply triple_ret. by intros s ->.
  - intros s ->. simpl. by apply consistent_new_partition.
Qed.

Lemma record_offsets_consistent ds :
  triple K (record_offsets ds) (λ _, K) K.
Proof.
  unfold record_offsets.
  eapply (triple_bind _ (λ n s, K s ∧ ∃ cs, contexts s !! ds = Some cs ∧ n = len cs)).
  { apply triple_len_in; [done |]. intros s a Hs Ha. eauto. }
  intros n.
  eapply (triple_bind _ (λ _, K)).
  { apply triple_list_append_in; [by intros s [H _] |].
    intros s a [Hs (cs & Hcs & ->)] Ha. by apply consistent_set_context_offsets. }
  intros _.
  eapply (triple_bind _ (λ _, K)); [by apply triple_len_in |].
  intros n'. apply triple_list_append_in; [done |].
  intros s a Hs Ha. by eapply consistent_set_span_offsets.
Qed.

Lemma extend_contexts_consistent context ds :
  triple K (extend_contexts context ds) (λ _, K) K.
Proof.
  apply triple_get_bind. intros s0 H0.
  eapply (triple_bind _ (λ _, K)).
  { apply triple_lift; by intros; subst. }
  intros _. apply triple_for_each_inv. intros w _.
  eapply (triple_bind _ (λ i s, K s ∧ 0 ≤ i < len (vocab s))).
  - apply triple_add_to_vocab; [by intros s [[H _] _] |].
    intros s i v' c' m' Hs Hw' Hp Hi _. split; [| done].
    by apply consistent_set_words.
  - intros i. apply triple_array_append_in; [by intros s [H _] |].
    intros s a [Hs Hi] Ha _. by apply consistent_set_contexts.
Qed.

Lemma append_spans_consistent spans ds :
  triple K (append_spans spans ds) (λ _, K) K.
Proof.
  apply triple_for_each_inv. intros span _.
  eapply (triple_bind _ (λ _, K)).
  { apply triple_array_append_in; [done |]. intros s a Hs Ha _.
    by eapply consistent_set_starts. }
  intros _. apply triple_array_append_in; [done |]. intros s a Hs Ha _.
  by eapply consistent_set_ends.
Qed.

(** One round of the loop over the answers. *)
Lemma append_answer_consistent answer ds :
  triple K
    (do s <- get_state;
     lift KeyError (answers_ s !! ds) ;;
     do i <- add_to_answer_vocab answer;
     array_append_in answers_ set_answers ds i ;;
     do _ <- add_to_vocab answer;
     ret tt)
    (λ _, K) K.
Proof.
  apply triple_get_bind. intros s1 H1.
  eapply (triple_bind _ (λ _ s, K s ∧ is_Some (answers_ s !! ds))).
  { apply triple_lift.
    - intros x Hx s ->. split; [done |]. by rewrite Hx.
    - by intros _ s ->. }
  intros _.
  eapply (triple_bind _ (λ i s, consistent_with (Some (answer, i)) s ∧
                                is_Some (answers_ s !! ds))).
  { intros s [(Hw & Ha & Hp & Ho & Hk) Hsome].
    rewrite (add_to_answer_vocab_exact answer s Ha).
    destruct (answer_ids s !! answer) as [k |] eqn:Hk0.
    - split; [| done].
      split; [done |]. split; [by apply wf_words_count |].
      split; [done |]. split; [done |].
      intros j w Hj Hfit. destruct (Hk j w Hj Hfit) as [H | H]; [by left | done].
    - split; [| done].
      split; [done |]. split.
      { pose proof (wf_words_snoc _ _ _ answer 0 Ha Hk0) as Hs.
        pose proof (wf_words_count _ _ _ (length (answer_count s)) 1 Hs) as Hs'.
        replace (length (answer_count s)) with (length (answer_count s) + 0)%nat
          in Hs' by lia.
        by rewrite insert_app_r in Hs'. }
      split; [done |]. split; [done |].
      intros j w Hj Hfit. simpl in Hj.
      destruct (decide (j < length (answer_vocab s))%nat) as [Hlt | Hge].
      + rewrite lookup_app_l in Hj by done.
        destruct (Hk j w Hj Hfit) as [H | H]; [by left | done].
      + right. apply lookup_lt_Some in Hj as Hlt.
        rewrite length_app in Hlt. simpl in Hlt.
        assert (j = length (answer_vocab s)) as -> by lia.
        rewrite list_lookup_middle in Hj by done. by injection Hj as <-. }
  intros i.
  eapply (triple_bind _ (λ _, consistent_with (Some (answer, i)))).
  { apply triple_array_append_in_cases.
    - intros s [_ [a Ha]] Hnone. congruence.
    - intros s a [(Hw & Ha & Hp & Ho & Hk) _] _ Hnfit.
      split; [done |]. split; [done |]. split; [done |]. split; [done |].
      intros j w Hj Hfit. destruct (Hk j w Hj Hfit) as [H | H]; [by left |].
      injection H as _ Hi. destruct Hnfit. unfold fits. lia.
    - intros s a [Hs _] Ha _. by eapply consistent_set_answers. }
  intros _.
  eapply (triple_bind _ (λ _, K)); [| intros _; by apply triple_ret].
  intros s Hs. destruct Hs as ([Hw Hr] & Ha & Hp & Ho & Hk).
  destruct (add_to_vocab_spec answer s Hw)
    as (j & v' & c' & m' & -> & Hw' & Hpre & Hm & _ & _).
  split; [split; [done | by eapply ctx_in_range_prefix] |].
  split; [done |]. split; [done |]. split; [done |].
  intros k w Hkw Hfit. left. simpl.
  destruct (Hk k w Hkw Hfit) as [[i' Hi'] | H].
  - exists i'. exact (wf_words_prefix_lookup _ _ _ _ _ _ _ _ Hw Hw' Hpre Hi').
  - injection H as <- _. eauto.
Qed.

Lemma append_answers_consistent answers spans ds :
  triple K (append_answers answers spans ds) (λ _, K) K.
Proof.
  apply triple_get_bind. intros s0 H0.
  destruct answers as [answers |]; [| apply triple_ret; by intros s ->].
  destruct (decide (answers_ s0 = ∅)); [apply triple_ret; by intros s -> |].
  eapply (triple_bind _ (λ _, K)).
  { apply triple_assert; by intros _ s ->. }
  intros _. apply triple_for_each_inv. intros answer _.
  apply append_answer_consistent.
Qed.

Lemma add_consistent context spans answers ds :
  triple K (add context spans answers ds) (λ _, K) K.
Proof.
  unfold add.
  eapply (triple_bind _ (λ _, K)).
  { apply triple_modify. intros s Hs. exact Hs. }
  intros _.
  eapply (triple_bind _ (λ _, K)).
  - unfold add_body.
    eapply (triple_bind _ (λ _, K)); [by apply triple_assert |].
    intros _.
    eapply (triple_bind _ (λ _, K)); [apply ensure_partition_consistent |].
    intros _.
    eapply (triple_bind _ (λ _, K)); [apply record_offsets_consistent |].
    intros _.
    eapply (triple_bind _ (λ _, K)); [apply extend_contexts_consistent |].
    intros _.
    eapply (triple_bind _ (λ _, K)); [apply append_spans_consistent |].
    intros _.
    eapply (triple_bind _ (λ _, K)); [apply append_answers_consistent |].
    intros _. apply triple_get_bind. intros s0 H0.
    apply triple_modify. intros s ->. exact H0.
  - intros _. apply triple_get_bind. intros s0 H0.
    apply triple_ret. by intros s ->.
Qed.

End Consistency.

(** ** [order_vocab_by_freq] keeps them consistent too *)

Lemma order_vocab_by_freq_domains argsort s s' :
  order_vocab_by_freq argsort s = Some s' →
  (∀ ds, is_Some (contexts s' !! ds) ↔ is_Some (contexts s !! ds)) ∧
  (∀ ds c c', contexts s !! ds = Some c → contexts s' !! ds = Some c' →
     length c' = length c) ∧
  (∀ w, is_Some (ids s' !! w) ↔ is_Some (ids s !! w)).
Proof.
  unfold order_vocab_by_freq. destruct (ordered s).
  { intros [= <-]. repeat split; try done. intros ds c c' H1 H2. congruence. }
  destruct (reorder_loop _ _ _ _ _ _ _) as [[[mapping nv] nc] |]; [| done]. simpl.
  destruct (dict_mapM _ (ids s)) as [ids' |] eqn:Hids; [| done]. simpl.
  destruct (dict_mapM _ (contexts s)) as [contexts' |] eqn:Hctx; [| done]. simpl.
  intros [= <-]. simpl. split; [| split].
  - intros ds. pose proof (dict_mapM_lookup _ _ _ ds Hctx) as H.
    destruct (contexts s !! ds) as [c |].
    + destruct H as (y & _ & ->). split; eauto.
    + rewrite H. done.
  - intros ds c c' Hc Hc'. pose proof (dict_mapM_lookup _ _ _ ds Hctx) as H.
    rewrite Hc in H. destruct H as (y & Hy & Hy'). rewrite Hc' in Hy'.
    injection Hy' as ->. symmetry. by eapply length_mapM.
  - intros w. pose proof (dict_mapM_lookup _ _ _ w Hids) as H.
    destruct (ids s !! w) as [k |].
    + destruct H as (y & _ & ->). split; eauto.
    + rewrite H. done.
Qed.

Section ConsistentStores.
Variable argsort : list Z → list nat.
Hypothesis argsort_ok : argsort_contract argsort.

Lemma order_vocab_by_freq_consistent s s' :
  kb_consistent s → order_vocab_by_freq argsort s = Some s' → kb_consistent s'.
Proof.
  intros (Hw & Ha & Hp & Ho & Hk) H.
  destruct (order_vocab_by_freq_frame _ _ _ H)
    as (Hst & Hen & Han & Hco & Hso & Hav & Hac & Hai & _).
  destruct (order_vocab_by_freq_domains _ _ _ H) as (Hdom & Hlen & Hids).
  split; [| split; [| split; [| split]]].
  - destruct (ordered s) eqn:Hord.
    + unfold order_vocab_by_freq in H. rewrite Hord in H. by injection H as <-.
    + destruct (order_vocab_by_freq_renumbered argsort argsort_ok s s' Hord H)
        as [mapping Hr].
      by eapply (renumbered_wf argsort argsort_ok).
  - by rewrite Hav, Hac, Hai.
  - intros ds. rewrite Hst, Hen, Han, Hco, Hso, Hdom. apply Hp.
  - intros ds offs c'. rewrite Hco. intros Hoffs Hc'.
    destruct (proj1 (Hdom ds) (ex_intro _ c' Hc')) as [c Hc].
    pose proof (Hlen ds c c' Hc Hc') as Hl.
    eapply Forall_impl; [by eapply Ho |]. intros o Hoo. simpl in Hoo.
    unfold len in *. lia.
  - intros k w. rewrite Hav. intros Hkw Hfit.
    destruct (Hk k w Hkw Hfit) as [Hsome | Hnone]; [| done].
    left. by apply Hids.
Qed.

Lemma KB_init_consistent : kb_consistent KB_init.
Proof.
  split; [apply KB_init_wf |]. split.
  { split; [done |]. intros w k. simpl. rewrite lookup_empty. split; [done |].
    intros [_ H]. by rewrite lookup_nil in H. }
  split; [| split].
  - intros ds. simpl. rewrite !lookup_empty. repeat split; by intros [x Hx].
  - intros ds offs cs H. simpl in H. by rewrite lookup_empty in H.
  - intros k w H. simpl in H. by rewrite lookup_nil in H.
Qed.

(** Every store a program can build is consistent. *)
Lemma reachable_consistent s : reachable argsort s → kb_consistent s.
Proof.
  induction 1 as [| s c sp a ds _ IH | s s' _ IH Hord].
  - apply KB_init_consistent.
  - pose proof (triple_run _ _ _ _ s (add_consistent c sp a ds) IH) as H.
    by destruct (fst (add c sp a ds s)).
  - by eapply order_vocab_by_freq_consistent.
Qed.

(** X2. In every store built by [add] and [order_vocab_by_freq],
    [answer_id] and [answer_vocab] are inverse of each other and the
    answer vocabulary has no string twice; [answer_id(a, fallback)]
    is [fallback] for every string that is no answer. *)
Theorem answer_id_inverse (s : KB) (fallback : Z) :
  reachable argsort s →
  NoDup (answer_vocab s) ∧
  (∀ (k : nat) a, answer_vocab s !! k = Some a → answer_id s a fallback = Z.of_nat k) ∧
  (∀ a, a ∈ answer_vocab s →
     getitem (answer_vocab s) (answer_id s a fallback) = Some a) ∧
  (∀ a, a ∉ answer_vocab s → answer_id s a fallback = fallback).
Proof.
  intros Hreach.
  destruct (reachable_consistent s Hreach) as (_ & Hw & _).
  pose proof (wf_words_NoDup _ _ _ Hw) as Hnd. destruct Hw as [Hl Hb].
  split; [done |]. unfold answer_id. split; [| split].
  - intros k w Hk.
    assert (answer_ids s !! w = Some (Z.of_nat k)) as ->; [| done].
    apply Hb. split; [lia |]. by rewrite Nat2Z.id.
  - intros w Hin. apply list_elem_of_lookup in Hin as [k Hk].
    assert (answer_ids s !! w = Some (Z.of_nat k)) as ->.
    { apply Hb. split; [lia |]. by rewrite Nat2Z.id. }
    simpl. by rewrite getitem_of_nat.
  - intros w Hnin. destruct (answer_ids s !! w) as [k |] eqn:Hk; [| done].
    destruct Hnin. apply Hb in Hk as [_ Hk]. by eapply list_elem_of_lookup_2.
Qed.

(** X3. In every store built by [add] and [order_vocab_by_freq], for
    every answer id [a] from 0 to [min(len(answer_vocab) - 1, UINT_MAX)],
    [answer_id_to_word_id(a)] is the id of a word, never the fallback
    -1, and that word is the answer string: [vocab[answer_id_to_word_id(a)]
    = answer_vocab[a]]. *)
Theorem answer_id_to_word_id_correct (s : KB) (a : Z) :
  reachable argsort s →
  0 ≤ a < len (answer_vocab s) → a ≤ UINT_MAX →
  ∃ k w, answer_id_to_word_id s a = inr k ∧
         getitem (answer_vocab s) a = Some w ∧
         0 ≤ k ∧ getitem (vocab s) k = Some w.
Proof.
  intros Hreach Ha Hfit.
  destruct (reachable_consistent s Hreach) as ([[_ Hb] _] & _ & _ & _ & Hk).
  destruct (getitem_in_range (answer_vocab s) a) as [w Hw]; [lia |].
  unfold answer_id_to_word_id, kb_id. rewrite Hw.
  rewrite getitem_nonneg in Hw by lia.
  destruct (Hk (Z.to_nat a) w Hw) as [[k Hkw] | H]; [lia | | done].
  exists k, w. rewrite Hkw. simpl. apply Hb in Hkw as [H0 Hv].
  split; [done |]. split; [done |].
  split; [done |]. by rewrite getitem_nonneg.
Qed.

End ConsistentStores.

(** A store with answers. *)
Lemma answered_reachable : reachable stable_argsort answered.
Proof. unfold answered. apply reach_add, reach_add, reach_init. Qed.

Lemma answer_id_inverse_witness :
  answer_vocab answered = ["x"; "y"] ∧
  answer_id answered "y" (-1) = 1 ∧
  getitem (answer_vocab answered) (answer_id answered "y" (-1)) = Some "y" ∧
  answer_id answered "a" (-1) = -1.
Proof.
  destruct (answer_id_inverse stable_argsort stable_argsort_contract answered (-1)
              answered_reachable) as (_ & H1 & H2 & H3).
  split; [vm_compute; reflexivity |]. split; [| split].
  - apply (H1 1%nat "y"). vm_compute. reflexivity.
  - apply H2. vm_compute. by right; left.
  - apply H3. vm_compute. intros H.
    repeat (apply elem_of_cons in H as [H | H]; [discriminate |]).
    by apply elem_of_nil in H.
Defined.

Lemma answer_id_to_word_id_correct_witness :
  ∃ k w, answer_id_to_word_id answered 1 = inr k ∧
         getitem (answer_vocab answered) 1 = Some w ∧
         0 ≤ k ∧ getitem (vocab answered) k = Some w.
Proof.
  apply (answer_id_to_word_id_correct stable_argsort stable_argsort_contract
           answered 1 answered_reachable).
  - vm_compute. split; [discriminate | reflexivity].
  - vm_compute. discriminate.
Defined.

(** ** What [add] leaves alone *)

Section Frame.
Variables (ds : string) (F : KB → Prop).
Hypotheses
  (F_contexts : ∀ s x, F s → F (set_contexts (<[ds := x]>) s))
  (F_starts : ∀ s x, F s → F (set_starts (<[ds := x]>) s))
  (F_ends : ∀ s x, F s → F (set_ends (<[ds := x]>) s))
  (F_answers : ∀ s x, F s → F (set_answers (<[ds := x]>) s))
  (F_context_offsets : ∀ s x, F s → F (set_context_offsets (<[ds := x]>) s))
  (F_span_offsets : ∀ s x, F s → F (set_span_offsets (<[ds := x]>) s))
  (F_words : ∀ s v c m, F s → F (set_words v c m s))
  (F_answer_words : ∀ s v c m, F s → F (set_answer_words v c m s)).

Lemma ensure_partition_frame : triple F (ensure_partition ds) (λ _, F) F.
Proof.
  apply triple_get_bind. intros s0 H0. destruct (contexts s0 !! ds).
  - apply triple_ret. by intros s ->.
  - intros s ->. simpl.
    by apply F_span_offsets, F_context_offsets, F_answers, F_ends, F_starts,
      F_contexts.
Qed.

Lemma record_offsets_frame : triple F (record_offsets ds) (λ _, F) F.
Proof.
  unfold record_offsets.
  eapply (triple_bind _ (λ _, F)); [by apply triple_len_in |].
  intros n.
  eapply (triple_bind _ (λ _, F)).
  { apply triple_list_append_in; [done |]. intros s a Hs _. by apply F_context_offsets. }
  intros _.
  eapply (triple_bind _ (λ _, F)); [by apply triple_len_in |].
  intros n'. apply triple_list_append_in; [done |].
  intros s a Hs _. by apply F_span_offsets.
Qed.

Lemma extend_contexts_frame context : triple F (extend_contexts context ds) (λ _, F) F.
Proof.
  apply triple_get_bind. intros s0 H0.
  eapply (triple_bind _ (λ _, F)).
  { apply triple_lift; by intros; subst. }
  intros _. apply triple_for_each_inv. intros w _.
  eapply (triple_bind _ (λ _, F)).
  - apply triple_add_to_vocab_frame. intros s v c m Hs.
    split; [intros _ |]; by apply F_words.
  - intros i. apply triple_array_append_in; [done |].
    intros s a Hs _ _. by apply F_contexts.
Qed.

Lemma append_spans_frame spans : triple F (append_spans spans ds) (λ _, F) F.
Proof.
  apply triple_for_each_inv. intros span _.
  eapply (triple_bind _ (λ _, F)).
  { apply triple_array_append_in; [done |]. intros s a Hs _ _. by apply F_starts. }
  intros _. apply triple_array_append_in; [done |].
  intros s a Hs _ _. by apply F_ends.
Qed.

Lemma append_answers_frame answers spans :
  triple F (append_answers answers spans ds) (λ _, F) F.
Proof.
  apply triple_get_bind. intros s0 H0.
  destruct answers as [answers |]; [| apply triple_ret; by intros s ->].
  destruct (decide (answers_ s0 = ∅)); [apply triple_ret; by intros s -> |].
  eapply (triple_bind _ (λ _, F)).
  { apply triple_assert; by intros _ s ->. }
  intros _. apply triple_for_each_inv. intros answer _.
  apply triple_get_bind. intros s1 H1.
  eapply (triple_bind _ (λ _, F)).
  { apply triple_lift; by intros; subst. }
  intros _.
  eapply (triple_bind _ (λ _, F)).
  { apply triple_add_to_answer_vocab. intros s v c m Hs.
    split; [intros _ |]; by apply F_answer_words. }
  intros i.
  eapply (triple_bind _ (λ _, F)).
  { apply triple_array_append_in; [done |]. intros s a Hs _ _. by apply F_answers. }
  intros _.
  eapply (triple_bind _ (λ _, F)).
  - apply triple_add_to_vocab_frame. intros s v c m Hs.
    split; [intros _ |]; by apply F_words.
  - intros _. by apply triple_ret.
Qed.

(** What holds of [F] before the last statement of the body holds
    when the body raises. *)
Lemma add_body_frame context spans answers (Q : unit → KB → Prop) :
  triple F (update_max context spans) Q F →
  triple F (add_body context spans answers ds) Q F.
Proof.
  intros Hmax. unfold add_body.
  eapply (triple_bind _ (λ _, F)); [by apply triple_assert |].
  intros _.
  eapply (triple_bind _ (λ _, F)); [apply ensure_partition_frame |].
  intros _.
  eapply (triple_bind _ (λ _, F)); [apply record_offsets_frame |].
  intros _.
  eapply (triple_bind _ (λ _, F)); [apply extend_contexts_frame |].
  intros _.
  eapply (triple_bind _ (λ _, F)); [apply append_spans_frame |].
  intros _.
  eapply (triple_bind _ (λ _, F)); [apply append_answers_frame |].
  intros _. exact Hmax.
Qed.

End Frame.

(** The arrays of a partition that [add] is not called for. *)
Lemma add_other_partition (s : KB) (tokens : list string)
    (spans_ : list (Z * Z)) (answers : option (list string))
    (dataset other : string) :
  dataset ≠ other →
  let s' := snd (add tokens spans_ answers dataset s) in
  contexts s' !! other = contexts s !! other ∧
  starts s' !! other = starts s !! other ∧
  ends s' !! other = ends s !! other ∧
  answers_ s' !! other = answers_ s !! other ∧
  context_offsets s' !! other = context_offsets s !! other ∧
  span_offsets s' !! other = span_offsets s !! other ∧
  num_contexts s' other = num_contexts s other ∧
  (∀ i, context s' i other = context s i other) ∧
  (∀ i, spans s' i other = spans s i other).
Proof.
  intros Hne s'.
  pose (F := λ t : KB,
    contexts t !! other = contexts s !! other ∧
    starts t !! other = starts s !! other ∧
    ends t !! other = ends s !! other ∧
    answers_ t !! other = answers_ s !! other ∧
    context_offsets t !! other = context_offsets s !! other ∧
    span_offsets t !! other = span_offsets s !! other).
  assert (HF : F s') .
  { assert (Hadd : triple F (add tokens spans_ answers dataset) (λ _, F) F).
    { unfold add.
      eapply (triple_bind _ (λ _, F)).
      { apply triple_modify. intros t Ht. exact Ht. }
      intros _.
      eapply (triple_bind _ (λ _, F)).
      - apply add_body_frame; unfold F; simpl;
          try (intros t x (H1 & H2 & H3 & H4 & H5 & H6);
               rewrite ?lookup_insert_ne by done; done);
          try (intros t v c m Ht; exact Ht).
        apply triple_get_bind. intros t0 H0. apply triple_modify.
        intros t ->. exact H0.
      - intros _. apply triple_get_bind. intros t0 H0.
        apply triple_ret. by intros t ->. }
    pose proof (triple_run _ _ _ _ s Hadd) as Hrun.
    unfold s'. destruct (fst (add tokens spans_ answers dataset s));
      apply Hrun; by unfold F. }
  destruct HF as (H1 & H2 & H3 & H4 & H5 & H6).
  repeat split; try done.
  - unfold num_contexts. by rewrite H5.
  - intros i. unfold context. by rewrite H5, H1.
  - intros i. unfold spans. by rewrite H6, H2, H3.
Qed.


(** X4. [add] into one partition leaves every other partition as it
    is, whether it returns or raises: the six arrays and tables of the
    other partition are unchanged, and so are its [num_contexts] and
    what [context] and [spans] return for every index. *)
Theorem add_other_partition_untouched (s : KB) (tokens : list string)
    (spans_ : list (Z * Z)) (answers : option (list string))
    (dataset other : string) :
  dataset ≠ other →
  let s' := snd (add tokens spans_ answers dataset s) in
  contexts s' !! other = contexts s !! other ∧
  starts s' !! other = starts s !! other ∧
  ends s' !! other = ends s !! other ∧
  answers_ s' !! other = answers_ s !! other ∧
  context_offsets s' !! other = context_offsets s !! other ∧
  span_offsets s' !! other = span_offsets s !! other ∧
  num_contexts s' other = num_contexts s other ∧
  (∀ i, context s' i other = context s i other) ∧
  (∀ i, spans s' i other = spans s i other).
Proof. apply add_other_partition. Qed.

Lemma add_other_partition_untouched_witness :
  let s' := snd (add ["x"; "y"] [(0, 1)] (Some ["x"; "z"]) "valid" two_contexts) in
  num_contexts s' "valid" = 1 ∧
  num_contexts s' "train" = num_contexts two_contexts "train" ∧
  context s' 0 "train" = context two_contexts 0 "train".
Proof.
  intros s'. split; [vm_compute; reflexivity |].
  assert (Hne : "valid" ≠ "train") by discriminate.
  destruct (add_other_partition_untouched two_contexts ["x"; "y"] [(0, 1)]
              (Some ["x"; "z"]) "valid" "train" Hne)
    as (_ & _ & _ & _ & _ & _ & Hn & Hc & _).
  split; [exact Hn | apply Hc].
Defined.

(** X5. A call of [add] that returns sets [max_context_length] to the
    larger of its old value and [len(context)], and [max_span_length]
    to the larger of its old value and [len(spans)]; a call that raises
    leaves both as they were, also when it has stored the context
    before it raised. *)
Theorem add_max_lengths (s : KB) (tokens : list string)
    (spans_ : list (Z * Z)) (answers : option (list string)) (dataset : string) :
  match add tokens spans_ answers dataset s with
  | (inr _, s') =>
      max_context_length s' = Z.max (max_context_length s) (len tokens) ∧
      max_span_length s' = Z.max (max_span_length s) (len spans_)
  | (inl _, s') =>
      max_context_length s' = max_context_length s ∧
      max_span_length s' = max_span_length s
  end.
Proof.
  pose (F := λ t : KB, max_context_length t = max_context_length s ∧
                       max_span_length t = max_span_length s).
  pose (G := λ t : KB,
    max_context_length t = Z.max (max_context_length s) (len tokens) ∧
    max_span_length t = Z.max (max_span_length s) (len spans_)).
  assert (Hadd : triple F (add tokens spans_ answers dataset) (λ _, G) F).
  { unfold add.
    eapply (triple_bind _ (λ _, F)).
    { apply triple_modify. intros t Ht. exact Ht. }
    intros _.
    eapply (triple_bind _ (λ _, G)).
    - apply add_body_frame; unfold F; simpl;
        try (intros t x Ht; exact Ht); try (intros t v c m Ht; exact Ht).
      apply triple_get_bind. intros t0 [H1 H2]. apply triple_modify.
      intros t ->. unfold G. simpl. by rewrite H1, H2.
    - intros _. apply triple_get_bind. intros t0 H0.
      apply triple_ret. by intros t ->. }
  specialize (Hadd s). destruct (add tokens spans_ answers dataset s) as [[e | n] s'];
    apply Hadd; by unfold F.
Qed.

(** ** [add] only appends *)

(** The vocabulary after any statement of [add] extends the one
    before. *)
Section VocabularyGrows.
Variables (ds : string) (s0 : KB).
Local Abbreviation W :=
  (λ s : KB, wf_words (vocab s) (count s) (ids s) ∧ vocab s0 `prefix_of` vocab s).

Lemma W_words s v c m :
  W s → wf_words v c m → vocab s `prefix_of` v → W (set_words v c m s).
Proof. intros [Hw Hp] Hw' Hp'. split; [done |]. simpl. by etrans. Qed.

Lemma add_vocabulary_grows tokens spans_ answers :
  triple W (add tokens spans_ answers ds) (λ _, W) W.
Proof.
  unfold add.
  eapply (triple_bind _ (λ _, W)).
  { apply triple_modify. intros s Hs. exact Hs. }
  intros _.
  eapply (triple_bind _ (λ _, W));
    [| intros _; apply triple_get_bind; intros s1 H1; apply triple_ret; by intros s ->].
  unfold add_body.
  eapply (triple_bind _ (λ _, W)); [by apply triple_assert |].
  intros _.
  eapply (triple_bind _ (λ _, W)).
  { apply ensure_partition_frame; intros s x Hs; exact Hs. }
  intros _.
  eapply (triple_bind _ (λ _, W)).
  { apply record_offsets_frame; intros s x Hs; exact Hs. }
  intros _.
  eapply (triple_bind _ (λ _, W)).
  { apply triple_get_bind. intros s1 H1.
    eapply (triple_bind _ (λ _, W)).
    { apply triple_lift; by intros; subst. }
    intros _. apply triple_for_each_inv. intros w _.
    eapply (triple_bind _ (λ _, W)).
    - apply triple_add_to_vocab; [by intros s [H _] |].
      intros s i v' c' m' Hs Hw' Hp _ _. by apply W_words.
    - intros i. apply triple_array_append_in; [done |].
      intros s a Hs _ _. exact Hs. }
  intros _.
  eapply (triple_bind _ (λ _, W)).
  { apply append_spans_frame; intros s x Hs; exact Hs. }
  intros _.
  eapply (triple_bind _ (λ _, W)).
  { apply triple_get_bind. intros s1 H1.
    destruct answers as [answers |]; [| apply triple_ret; by intros s ->].
    destruct (decide (answers_ s1 = ∅)); [apply triple_ret; by intros s -> |].
    eapply (triple_bind _ (λ _, W)).
    { apply triple_assert; by intros _ s ->. }
    intros _. apply triple_for_each_inv. intros answer _.
    apply triple_get_bind. intros s2 H2.
    eapply (triple_bind _ (λ _, W)).
    { apply triple_lift; by intros; subst. }
    intros _.
    eapply (triple_bind _ (λ _, W)).
    { apply triple_add_to_answer_vocab. intros s v c m Hs.
      split; [intros _ |]; exact Hs. }
    intros i.
    eapply (triple_bind _ (λ _, W)).
    { apply triple_array_append_in; [done |]. intros s a Hs _ _. exact Hs. }
    intros _.
    eapply (triple_bind _ (λ _, W)).
    - apply triple_add_to_vocab; [by intros s [H _] |].
      intros s j v' c' m' Hs Hw' Hp _ _. by apply W_words.
    - intros _. by apply triple_ret. }
  intros _. apply triple_get_bind. intros s1 H1.
  apply triple_modify. intros s ->. exact H1.
Qed.

End VocabularyGrows.

Lemma add_vocab_prefix tokens spans_ answers ds s :
  wf_words (vocab s) (count s) (ids s) →
  let s' := snd (add tokens spans_ answers ds s) in
  wf_words (vocab s') (count s') (ids s') ∧ vocab s `prefix_of` vocab s'.
Proof.
  intros Hw s'.
  pose proof (triple_run _ _ _ _ s (add_vocabulary_grows ds s tokens spans_ answers)
                (conj Hw (reflexivity _))) as H.
  unfold s'. by destruct (fst (add tokens spans_ answers ds s)).
Qed.

(** The packed array and the offset table of the partition after any
    statement of [add]: as before, or with one offset and some ids
    appended. *)
Section PartitionGrows.
Variables (ds : string) (cs offs : list Z).
Local Abbreviation T0 :=
  (λ s : KB, contexts s !! ds = Some cs ∧ context_offsets s !! ds = Some offs).
Local Abbreviation T1 :=
  (λ s : KB, ∃ new, contexts s !! ds = Some (cs ++ new) ∧
                    context_offsets s !! ds = Some (offs ++ [len cs])).
Local Abbreviation T := (λ s : KB, T0 s ∨ T1 s).

Lemma add_partition_grows tokens spans_ answers :
  triple T0 (add tokens spans_ answers ds) (λ _, T1) T.
Proof.
  unfold add.
  eapply (triple_bind _ (λ _, T0)).
  { apply triple_modify. intros s Hs. exact Hs. }
  intros _.
  eapply (triple_bind _ (λ _, T1));
    [| intros _; apply triple_get_bind; intros s1 H1; apply triple_ret; by intros s ->].
  unfold add_body.
  eapply (triple_bind _ (λ _, T0)); [apply triple_assert; [done | by left] |].
  intros _.
  eapply (triple_bind _ (λ _, T0)).
  { apply triple_get_bind. intros s1 [H1 H1'].
    rewrite H1. apply triple_ret. by intros s ->. }
  intros _.
  eapply (triple_bind _ (λ _, T1)).
  { unfold record_offsets.
    eapply (triple_bind _ (λ n s, T0 s ∧ n = len cs)).
    { apply triple_len_in; [by left |]. intros s a [H1 H2] Ha.
      split; [done |]. congruence. }
    intros n.
    eapply (triple_bind _ (λ _, T1)).
    { apply triple_list_append_in; [by intros s [H _]; left |].
      intros s a [[H1 H2] ->] Ha. rewrite H2 in Ha. injection Ha as <-.
      exists []. simpl. by rewrite app_nil_r, lookup_insert_eq. }
    intros _.
    eapply (triple_bind _ (λ _, T1)); [apply triple_len_in; [by right | done] |].
    intros n'. apply triple_list_append_in; [by right |].
    intros s a Hs _. exact Hs. }
  intros _.
  eapply (triple_bind _ (λ _, T1)).
  { apply triple_get_bind. intros s1 H1.
    eapply (triple_bind _ (λ _, T1)).
    { apply triple_lift; [by intros; subst | by intros; subst; right]. }
    intros _.
    eapply triple_conseq;
      [apply (triple_for_each_inv T1) | done | done | by right].
    intros w _.
    eapply (triple_bind _ (λ _, T1)).
    - apply triple_add_to_vocab_frame. intros s v c m Hs.
      split; [intros _ |]; exact Hs.
    - intros i. apply triple_array_append_in; [done |].
      intros s a (new & Hc & Ho) Ha _. rewrite Hc in Ha. injection Ha as <-.
      exists (new ++ [i]). simpl. by rewrite lookup_insert_eq, app_assoc. }
  intros _.
  eapply (triple_bind _ (λ _, T1)).
  { eapply triple_conseq;
      [apply (append_spans_frame ds T1) | done | done | by right];
      intros s x Hs; exact Hs. }
  intros _.
  eapply (triple_bind _ (λ _, T1)).
  { eapply triple_conseq;
      [apply (append_answers_frame ds T1) | done | done | by right];
      try (intros s x Hs; exact Hs); intros s v c m Hs; exact Hs. }
  intros _. apply triple_get_bind. intros s1 H1.
  apply triple_modify. intros s ->. exact H1.
Qed.

End PartitionGrows.

Lemma slice_app_l {A} (l new : list A) (a b : Z) :
  0 ≤ a ≤ len l → 0 ≤ b ≤ len l → slice (l ++ new) a b = slice l a b.
Proof.
  intros Ha Hb. unfold slice, clamp, len in *. rewrite length_app.
  destruct (Z.ltb_spec a 0), (Z.ltb_spec b 0); try lia.
  rewrite !Z.min_l by lia.
  destruct (decide (b ≤ a)) as [Hle | Hgt].
  { replace (Z.to_nat (b - a)) with 0%nat by lia. done. }
  rewrite drop_app_le by lia. rewrite take_app_le; [done |].
  rewrite length_drop. lia.
Qed.

Lemma decode_grows (v v' : list string) ks :
  v `prefix_of` v' → Forall (λ k, 0 ≤ k < len v) ks →
  mapM (getitem v') ks = mapM (getitem v) ks ∧ is_Some (mapM (getitem v) ks).
Proof.
  intros Hp Hin. induction Hin as [| k ks Hk _ [IH1 IH2]]; [split; [done | by eexists] |].
  assert (Hsome : is_Some (v !! Z.to_nat k)).
  { apply lookup_lt_is_Some. unfold len in Hk. lia. }
  destruct Hsome as [w Hw]. destruct IH2 as [ws Hws].
  assert (Hw' : v' !! Z.to_nat k = Some w) by by eapply prefix_lookup_Some.
  simpl. rewrite !getitem_nonneg by lia. rewrite Hw, Hw'. simpl.
  rewrite IH1, Hws. simpl. split; [done | by eexists].
Qed.

Section AppendOnly.
Variable argsort : list Z → list nat.
Hypothesis argsort_ok : argsort_contract argsort.

(** X6. On a store built by [add] and [order_vocab_by_freq], a further
    [add], whether it returns or raises, only appends to the
    vocabulary: the old vocabulary is a prefix of the new one, and
    every symbol keeps its id. *)
Theorem add_keeps_ids (s : KB) (tokens : list string) (spans_ : list (Z * Z))
    (answers : option (list string)) (dataset : string) :
  reachable argsort s →
  let s' := snd (add tokens spans_ answers dataset s) in
  vocab s `prefix_of` vocab s' ∧
  ∀ w k, ids s !! w = Some k → ∀ fallback, kb_id s' w fallback = k.
Proof.
  intros Hreach s'.
  destruct (reachable_wf argsort argsort_ok s Hreach) as [[Hw _] _].
  destruct (add_vocab_prefix tokens spans_ answers dataset s Hw) as [Hw' Hp].
  split; [exact Hp |]. intros w k Hk fallback. unfold kb_id, s'.
  by rewrite (wf_words_prefix_lookup _ _ _ _ _ _ _ _ Hw Hw' Hp Hk).
Qed.

(** On such a store [context(i)] returns for every index from 0 to
    [num_contexts - 1], and what it returns decodes. *)
Lemma reachable_context_decodes s ds i :
  reachable argsort s → 0 ≤ i < num_contexts s ds →
  ∃ offs cs ks,
    context_offsets s !! ds = Some offs ∧ contexts s !! ds = Some cs ∧
    context s i ds = inr ks ∧ Forall (λ k, 0 ≤ k < len (vocab s)) ks ∧
    ∃ offset end_, getitem offs i = Some offset ∧ ks = slice cs offset end_ ∧
      0 ≤ offset ≤ len cs ∧ 0 ≤ end_ ≤ len cs ∧
      (if i + 1 <? len offs then getitem offs (i + 1) = Some end_ else end_ = len cs).
Proof.
  intros Hreach Hi.
  destruct (reachable_consistent argsort argsort_ok s Hreach)
    as ([_ Hr] & _ & Hp & Ho & _).
  unfold num_contexts in Hi.
  destruct (context_offsets s !! ds) as [offs |] eqn:Hoffs;
    [| simpl in Hi; unfold len in Hi; simpl in Hi; lia].
  simpl in Hi.
  destruct (proj2 (proj1 (proj2 (proj2 (proj2 (Hp ds))))) (ex_intro _ offs Hoffs))
    as [cs Hcs].
  specialize (Ho ds offs cs Hoffs Hcs). rewrite Forall_lookup in Ho.
  destruct (getitem_in_range offs i) as [offset Hoff]; [lia |].
  assert (Hoff' : 0 ≤ offset ≤ len cs).
  { rewrite getitem_nonneg in Hoff by lia. by eapply Ho. }
  unfold context. rewrite Hoffs, Hcs, Hoff.
  destruct (Z.ltb_spec (i + 1) (len offs)) as [Hlt | Hge].
  - destruct (getitem_in_range offs (i + 1)) as [e He]; [lia |].
    assert (He' : 0 ≤ e ≤ len cs).
    { rewrite getitem_nonneg in He by lia. by eapply Ho. }
    rewrite He. exists offs, cs, (slice cs offset e).
    split; [done |]. split; [done |]. split; [done |].
    split; [by eapply slice_in_range, Hr |].
    exists offset, e. split; [done |]. split; [done |]. split; [done |].
    split; [done |]. destruct (Z.ltb_spec (i + 1) (len offs)); [done | lia].
  - exists offs, cs, (slice cs offset (len cs)).
    split; [done |]. split; [done |]. split; [done |].
    split; [by eapply slice_in_range, Hr |].
    exists offset, (len cs). split; [done |]. split; [done |]. split; [done |].
    split; [unfold len; lia |].
    destruct (Z.ltb_spec (i + 1) (len offs)); [lia | done].
Qed.

(** X7. On a store built by [add] and [order_vocab_by_freq], a further
    [add] into any partition, whether it returns or raises, changes no
    context stored before: for every partition and every index from 0
    to [num_contexts - 1], [context] returns the same ids after the
    call as before it, and they decode to the same tokens, which
    exist. *)
Theorem add_keeps_contexts (s : KB) (tokens : list string) (spans_ : list (Z * Z))
    (answers : option (list string)) (dataset other : string) (i : Z) :
  reachable argsort s →
  0 ≤ i < num_contexts s other →
  let s' := snd (add tokens spans_ answers dataset s) in
  context s' i other = context s i other ∧
  decode_context s' i other = decode_context s i other ∧
  is_Some (decode_context s i other).
Proof.
  intros Hreach Hi s'.
  destruct (reachable_wf argsort argsort_ok s Hreach) as [[Hw _] _].
  destruct (add_vocab_prefix tokens spans_ answers dataset s Hw) as [Hw' Hp].
  destruct (reachable_context_decodes s other i Hreach Hi)
    as (offs & cs & ks & Hoffs & Hcs & Hctx & Hin & offset & end_ & Hoff & -> &
        Hob & Heb & Hend).
  assert (Hsame : context s' i other = context s i other).
  { destruct (decide (dataset = other)) as [-> | Hne].
    - pose proof (triple_run _ _ _ _ s
                    (add_partition_grows other cs offs tokens spans_ answers)
                    (conj Hcs Hoffs)) as Hrun.
      assert (Hshape : (contexts s' !! other = Some cs ∧
                        context_offsets s' !! other = Some offs) ∨
                       ∃ new, contexts s' !! other = Some (cs ++ new) ∧
                              context_offsets s' !! other = Some (offs ++ [len cs])).
      { unfold s'. destruct (fst (add tokens spans_ answers other s));
          [exact Hrun | by right]. }
      rewrite Hctx. destruct Hshape as [[Hc' Ho'] | (new & Hc' & Ho')].
      + rewrite <- Hctx. unfold context. by rewrite Hc', Ho', Hcs, Hoffs.
      + unfold context. rewrite Hc', Ho'. unfold num_contexts in Hi.
        rewrite Hoffs in Hi. simpl in Hi.
        assert (Hl : len (offs ++ [len cs]) = len offs + 1).
        { unfold len. rewrite length_app. simpl. lia. }
        assert (Hg : getitem (offs ++ [len cs]) i = Some offset).
        { rewrite getitem_nonneg in * by lia. rewrite lookup_app_l; [done |].
          unfold len in Hi. lia. }
        rewrite Hg, Hl.
        destruct (Z.ltb_spec (i + 1) (len offs + 1)); [| lia].
        assert (Hg' : getitem (offs ++ [len cs]) (i + 1) = Some end_).
        { rewrite getitem_nonneg by lia.
          destruct (Z.ltb_spec (i + 1) (len offs)) as [Hlt | Hge].
          - rewrite getitem_nonneg in Hend by lia.
            rewrite lookup_app_l; [done |]. unfold len in Hlt. lia.
          - subst end_. assert (Z.to_nat (i + 1) = length offs) as ->
              by (unfold len in *; lia).
            by rewrite list_lookup_middle. }
        rewrite Hg'. f_equal. by apply slice_app_l.
    - by apply (add_other_partition s tokens spans_ answers dataset other Hne). }
  destruct (decode_grows (vocab s) (vocab s') (slice cs offset end_) Hp Hin)
    as [Hdec Hsome].
  split; [exact Hsame |]. unfold decode_context. rewrite Hsame, Hctx.
  unfold decode. by rewrite Hdec.
Qed.

End AppendOnly.

Lemma add_keeps_ids_witness :
  let s' := snd (add ["x"; "a"] [(0, 1)] None "valid" sample) in
  vocab sample `prefix_of` vocab s' ∧ kb_id s' "c" (-1) = 2.
Proof.
  intros s'.
  destruct (add_keeps_ids stable_argsort stable_argsort_contract sample ["x"; "a"]
              [(0, 1)] None "valid" sample_reachable) as [Hp Hid].
  split; [exact Hp |]. apply Hid. vm_compute. reflexivity.
Defined.

Lemma add_keeps_contexts_witness :
  let s' := snd (add ["x"; "a"] [(0, -1)] None "valid" sample) in
  fst (add ["x"; "a"] [(0, -1)] None "valid" sample) = inl OverflowError ∧
  context s' 0 "valid" = context sample 0 "valid" ∧
  decode_context s' 0 "valid" = decode_context sample 0 "valid" ∧
  is_Some (decode_context sample 0 "valid").
Proof.
  intros s'. split; [vm_compute; reflexivity |].
  apply (add_keeps_contexts stable_argsort stable_argsort_contract sample
           ["x"; "a"] [(0, -1)] None "valid" "valid" 0 sample_reachable).
  vm_compute. split; [discriminate | reflexivity].
Defined.

(** ** When [add] returns *)

Section Returns.
Variable ds : string.
Local Abbreviation never := (λ _ : KB, False).

Lemma triple_list_append_in_cases rd wr (P E : KB → Prop) (Q : unit → KB → Prop) v :
  (∀ s, P s → rd s !! ds = None → E s) →
  (∀ s a, P s → rd s !! ds = Some a → Q tt (wr (<[ds := a ++ [v]]>) s)) →
  triple P (list_append_in rd wr ds v) Q E.
Proof.
  intros HE HQ s HP. unfold list_append_in, bind, get_state.
  destruct (rd s !! ds) as [a |] eqn:Ha; simpl; [by apply HQ | by apply HE].
Qed.

Lemma triple_len_in_cases rd (P E : KB → Prop) (Q : Z → KB → Prop) :
  (∀ s, P s → rd s !! ds = None → E s) →
  (∀ s a, P s → rd s !! ds = Some a → Q (len a) s) →
  triple P (len_in rd ds) Q E.
Proof.
  intros HE HQ s HP. unfold len_in, bind, get_state.
  destruct (rd s !! ds) as [a |] eqn:Ha; simpl; [by apply HQ | by apply HE].
Qed.

Ltac ready_split :=
  unfold ready;
  split; [| split; [| split; [| split; [| split; [| split; [| split; [| split]]]]]]];
  simpl; rewrite ?lookup_insert_eq; try done; eauto.

Lemma ensure_partition_returns m na :
  triple (λ s, kb_consistent s ∧ num_contexts s ds = m ∧ len (answer_vocab s) ≤ na)
    (ensure_partition ds) (λ _, ready ds m na) never.
Proof.
  apply triple_get_bind. intros s0 (([Hw _] & Ha & Hp & _) & Hm & Hna).
  destruct (Hp ds) as (H1 & H2 & H3 & H4 & H5).
  unfold num_contexts in Hm.
  destruct (contexts s0 !! ds) as [cs |] eqn:Hc.
  - apply triple_ret. intros s ->.
    assert (Hsome : is_Some (Some cs)) by eauto.
    destruct (proj1 H4 Hsome) as [offs Hoffs]. rewrite Hoffs in Hm.
    ready_split; try (by apply H1); try (by apply H2); try (by apply H3);
      try (by apply H5).
  - intros s ->. simpl.
    destruct (context_offsets s0 !! ds) as [offs |] eqn:Hoffs.
    { assert (Hsome : is_Some (Some offs)) by eauto.
      apply H4 in Hsome. by destruct Hsome. }
    simpl in Hm. ready_split.
Qed.

Lemma record_offsets_returns m na :
  triple (ready ds m na) (record_offsets ds) (λ _, ready ds (m + 1) na) never.
Proof.
  unfold record_offsets.
  eapply (triple_bind _ (λ _, ready ds m na)).
  { apply triple_len_in_cases; [| done].
    intros s (_ & _ & [x Hx] & _) Hn. congruence. }
  intros n.
  eapply (triple_bind _ (λ _, ready ds (m + 1) na)).
  { apply triple_list_append_in_cases.
    - intros s (_ & _ & _ & _ & _ & _ & _ & (offs & Ho & _) & _) Hn. congruence.
    - intros s a (Hw & Ha & H1 & H2 & H3 & H4 & H5 & (offs & Ho & Hm) & Hna) Hl.
      rewrite Ho in Hl. injection Hl as <-. ready_split.
      eexists. split; [done |]. unfold len in *. rewrite length_app. simpl. lia. }
  intros _.
  eapply (triple_bind _ (λ _, ready ds (m + 1) na)).
  { apply triple_len_in_cases; [| done].
    intros s (_ & _ & _ & [x Hx] & _) Hn. congruence. }
  intros n'. apply triple_list_append_in_cases.
  - intros s (_ & _ & _ & _ & _ & _ & [x Hx] & _) Hn. congruence.
  - intros s a (Hw & Ha & H1 & H2 & H3 & H4 & H5 & Ho & Hna) Hl. ready_split.
Qed.

Lemma extend_contexts_returns tokens m na nv :
  nv + len tokens ≤ UINT_MAX + 1 →
  triple (λ s, ready ds m na s ∧ len (vocab s) ≤ nv)
    (extend_contexts tokens ds) (λ _, ready ds m na) never.
Proof.
  intros Hbound. apply triple_get_bind. intros s0 [H0 H0'].
  eapply (triple_bind _ (λ _ s, ready ds m na s ∧ len (vocab s) ≤ nv)).
  { apply triple_lift.
    - by intros x _ s ->.
    - intros Hn s ->. destruct H0 as (_ & _ & [x Hx] & _). congruence. }
  intros _.
  eapply triple_conseq.
  - apply (triple_for_each
             (λ done s, ready ds m na s ∧ len (vocab s) ≤ nv + len done) never).
    intros done w rest Htok.
    assert (Hdone : len done + 1 ≤ len tokens).
    { rewrite Htok. unfold len. rewrite length_app. simpl. lia. }
    eapply (triple_bind _ (λ i s, (ready ds m na s ∧
                                   len (vocab s) ≤ nv + len (done ++ [w])) ∧ fits i)).
    + intros s [(Hw & Hr) Hlen]. rewrite (add_to_vocab_exact w s Hw).
      assert (Hl1 : len (done ++ [w]) = len done + 1).
      { unfold len. rewrite length_app. simpl. lia. }
      destruct (ids s !! w) as [k |] eqn:Hk.
      * pose proof (wf_words_lookup_lt _ _ _ _ _ Hw Hk) as Hlt.
        split; [split |].
        -- split; [by apply wf_words_count | exact Hr].
        -- simpl. lia.
        -- unfold fits. lia.
      * split; [split |].
        -- split; [| exact Hr].
           pose proof (wf_words_snoc _ _ _ w 0 Hw Hk) as Hs.
           pose proof (wf_words_count _ _ _ (length (count s)) 1 Hs) as Hs'.
           replace (length (count s)) with (length (count s) + 0)%nat in Hs' by lia.
           by rewrite insert_app_r in Hs'.
        -- simpl. unfold len in *. rewrite length_app. simpl. lia.
        -- unfold fits, len in *. lia.
    + intros i. apply triple_array_append_in_cases.
      * intros s [[(_ & _ & [x Hx] & _) _] _] Hn. congruence.
      * intros s a [_ Hfit] _ Hnfit. done.
      * intros s a [[(Hw & Ha & H1 & H2 & H3 & H4 & H5 & Ho & Hna) Hlen] _] Hl _.
        split; [| exact Hlen]. ready_split.
  - intros s [Hs Hlen]. split; [done |]. unfold len at 2. simpl. lia.
  - by intros u s [Hs _].
  - done.
Qed.

Lemma append_spans_returns spans_ m na :
  Forall (λ sp, fits sp.1 ∧ fits sp.2) spans_ →
  triple (ready ds m na) (append_spans spans_ ds) (λ _, ready ds m na) never.
Proof.
  intros Hfits.
  apply (triple_for_each (λ _, ready ds m na) never).
  intros done span rest Hsp.
  assert (Hfit : fits span.1 ∧ fits span.2).
  { rewrite Forall_forall in Hfits. apply Hfits. rewrite Hsp.
    apply elem_of_app. right. by left. }
  eapply (triple_bind _ (λ _, ready ds m na)).
  - apply triple_array_append_in_cases.
    + intros s (_ & _ & _ & [x Hx] & _) Hn. congruence.
    + intros s a _ _ Hn. by destruct Hn, Hfit.
    + intros s a (Hw & Ha & H1 & H2 & H3 & H4 & H5 & Ho & Hna) Hl _. ready_split.
  - intros _. apply triple_array_append_in_cases.
    + intros s (_ & _ & _ & _ & [x Hx] & _) Hn. congruence.
    + intros s a _ _ Hn. by destruct Hn, Hfit.
    + intros s a (Hw & Ha & H1 & H2 & H3 & H4 & H5 & Ho & Hna) Hl _. ready_split.
Qed.

Lemma append_answers_returns answers spans_ m na :
  match answers with
  | Some a => length a = length spans_ ∧ na + len a ≤ UINT_MAX + 1
  | None => True
  end →
  triple (ready ds m na) (append_answers answers spans_ ds)
    (λ _ s, ∃ na', ready ds m na' s) never.
Proof.
  intros Hans. apply triple_get_bind. intros s0 H0.
  destruct answers as [answers |]; [| apply triple_ret; intros s ->; eauto].
  destruct Hans as [Hlen Hbound].
  destruct (decide (answers_ s0 = ∅)) as [Hempty |].
  { apply triple_ret. intros s ->. eauto. }
  eapply (triple_bind _ (λ _, ready ds m na)).
  { apply triple_assert; [by intros _ s -> |].
    intros Hb. apply Z.eqb_neq in Hb. unfold len in Hb. lia. }
  intros _.
  eapply triple_conseq.
  - apply (triple_for_each (λ done, ready ds m (na + len done)) never).
    intros done answer rest Hansw.
    assert (Hdone : len done + 1 ≤ len answers).
    { rewrite Hansw. unfold len. rewrite length_app. simpl. lia. }
    assert (Hl1 : len (done ++ [answer]) = len done + 1).
    { unfold len. rewrite length_app. simpl. lia. }
    apply triple_get_bind. intros s1 H1.
    eapply (triple_bind _ (λ _, ready ds m (na + len done))).
    { apply triple_lift.
      - by intros x _ s ->.
      - intros Hn s ->. destruct H1 as (_ & _ & _ & _ & _ & [x Hx] & _). congruence. }
    intros _.
    eapply (triple_bind _ (λ i s, ready ds m (na + len (done ++ [answer])) s ∧ fits i)).
    { intros s (Hw & Ha & H2 & H3 & H4 & H5 & H6 & Ho & Hna).
      rewrite (add_to_answer_vocab_exact answer s Ha).
      destruct (answer_ids s !! answer) as [k |] eqn:Hk.
      - pose proof (wf_words_lookup_lt _ _ _ _ _ Ha Hk) as Hlt.
        split; [| unfold fits; lia]. ready_split; [by apply wf_words_count | lia].
      - split; [| unfold fits, len in *; lia]. ready_split.
        + pose proof (wf_words_snoc _ _ _ answer 0 Ha Hk) as Hs.
          pose proof (wf_words_count _ _ _ (length (answer_count s)) 1 Hs) as Hs'.
          replace (length (answer_count s)) with (length (answer_count s) + 0)%nat
            in Hs' by lia.
          by rewrite insert_app_r in Hs'.
        + unfold len in *. rewrite length_app. simpl. lia. }
    intros i.
    eapply (triple_bind _ (λ _, ready ds m (na + len (done ++ [answer])))).
    { apply triple_array_append_in_cases.
      - intros s [(_ & _ & _ & _ & _ & [x Hx] & _) _] Hn. congruence.
      - intros s a [_ Hfit] _ Hn. done.
      - intros s a [(Hw & Ha & H2 & H3 & H4 & H5 & H6 & Ho & Hna) _] Hl _.
        ready_split. }
    intros _.
    eapply (triple_bind _ (λ _, ready ds m (na + len (done ++ [answer]))));
      [| intros _; by apply triple_ret].
    apply triple_add_to_vocab; [by intros s [H _] |].
    intros s j v' c' m' (Hw & Ha & H2 & H3 & H4 & H5 & H6 & Ho & Hna) Hw' _ _ _.
    ready_split.
  - intros s Hs. unfold len at 1. simpl. by rewrite Z.add_0_r.
  - intros u s Hs. by exists (na + len answers).
  - done.
Qed.

Lemma add_returns_spec tokens spans_ answers s :
  kb_consistent s →
  spans_ ≠ [] →
  Forall (λ sp, fits sp.1 ∧ fits sp.2) spans_ →
  len (vocab s) + len tokens ≤ UINT_MAX + 1 →
  match answers with
  | Some a => length a = length spans_ ∧
              len (answer_vocab s) + len a ≤ UINT_MAX + 1
  | None => True
  end →
  ∃ s', add tokens spans_ answers ds s = (inr (num_contexts s ds), s') ∧
        num_contexts s' ds = num_contexts s ds + 1.
Proof.
  intros Hk Hne Hfits Hbound Hans.
  set (m := num_contexts s ds). set (na := len (answer_vocab s)).
  set (nv := len (vocab s)).
  assert (Hadd : triple (λ t, t = s) (add tokens spans_ answers ds)
                   (λ n t, n = m ∧ num_contexts t ds = m + 1) never).
  { unfold add.
    eapply (triple_bind _ (λ _ t, (kb_consistent t ∧ num_contexts t ds = m ∧
                                   len (answer_vocab t) ≤ na) ∧ len (vocab t) ≤ nv)).
    { apply triple_modify. intros t ->.
      split; [split; [exact Hk | split; [reflexivity |]] |];
        [unfold na | unfold nv]; simpl; lia. }
    intros _.
    eapply (triple_bind _ (λ _ t, ∃ na', ready ds (m + 1) na' t)).
    - unfold add_body.
      eapply (triple_bind _ (λ _ t, (kb_consistent t ∧ num_contexts t ds = m ∧
                                     len (answer_vocab t) ≤ na) ∧ len (vocab t) ≤ nv)).
      { apply triple_assert; [done |]. intros Hb.
        apply Z.ltb_ge in Hb. destruct spans_; [done |].
        unfold len in Hb. simpl in Hb. lia. }
      intros _.
      eapply (triple_bind _ (λ _ t, ready ds m na t ∧ len (vocab t) ≤ nv)).
      { intros t [Ht Hv].
        pose proof (ensure_partition_returns m na t Ht) as H.
        assert (Hvoc : vocab (snd (ensure_partition ds t)) = vocab t).
        { unfold ensure_partition, bind, get_state.
          by destruct (contexts t !! ds). }
        destruct (ensure_partition ds t) as [[e | []] t']; [done |].
        simpl in Hvoc. by rewrite Hvoc. }
      intros _.
      eapply (triple_bind _ (λ _ t, ready ds (m + 1) na t ∧ len (vocab t) ≤ nv)).
      { intros t [Ht Hv].
        pose proof (record_offsets_returns m na t Ht) as H.
        pose proof (record_offsets_frame ds (λ u, vocab u = vocab t)
                      ltac:(done) ltac:(done) t eq_refl) as Hvoc.
        destruct (record_offsets ds t) as [[e | []] t']; [done |].
        simpl in Hvoc. by rewrite Hvoc. }
      intros _.
      eapply (triple_bind _ (λ _, ready ds (m + 1) na));
        [by apply (extend_contexts_returns tokens (m + 1) na nv) |].
      intros _.
      eapply (triple_bind _ (λ _, ready ds (m + 1) na));
        [by apply append_spans_returns |].
      intros _.
      eapply (triple_bind _ (λ _ t, ∃ na', ready ds (m + 1) na' t));
        [by apply append_answers_returns |].
      intros _. apply triple_get_bind. intros t0 H0.
      apply triple_modify. intros t ->. destruct H0 as [na' H0]. exists na'. exact H0.
    - intros _. apply triple_get_bind. intros t0 [na' H0].
      apply triple_ret. intros t ->.
      destruct H0 as (_ & _ & _ & _ & _ & _ & _ & (offs & Ho & Hm) & _).
      unfold num_contexts. rewrite Ho. simpl. lia. }
  specialize (Hadd s eq_refl).
  destruct (add tokens spans_ answers ds s) as [[e | n] s']; [done |].
  destruct Hadd as [-> Hn]. by exists s'.
Qed.

End Returns.

(** X8. On a store built by [add] and [order_vocab_by_freq], [add]
    returns whenever its input is well formed: at least one span, span
    positions that fit a slot of an [array('I')], as many answers as
    spans when answers are given, and room for the new ids (the
    vocabulary and the tokens, and the answer vocabulary and the
    answers, number at most [UINT_MAX + 1] together). It then returns
    the former [num_contexts(dataset)], which has grown by one. *)
Theorem add_returns (argsort : list Z → list nat) (s : KB) (tokens : list string)
    (spans_ : list (Z * Z)) (answers : option (list string)) (dataset : string) :
  argsort_contract argsort →
  reachable argsort s →
  spans_ ≠ [] →
  Forall (λ sp, fits sp.1 ∧ fits sp.2) spans_ →
  len (vocab s) + len tokens ≤ UINT_MAX + 1 →
  match answers with
  | Some a => length a = length spans_ ∧
              len (answer_vocab s) + len a ≤ UINT_MAX + 1
  | None => True
  end →
  ∃ s', add tokens spans_ answers dataset s = (inr (num_contexts s dataset), s') ∧
        num_contexts s' dataset = num_contexts s dataset + 1.
Proof.
  intros Hok Hreach. apply add_returns_spec.
  by apply (reachable_consistent argsort).
Qed.

Lemma add_returns_witness :
  ∃ s', add ["x"; "a"] [(0, 1); (1, 2)] (Some ["p"; "q"]) "valid" sample
        = (inr 1, s') ∧
        num_contexts s' "valid" = 2.
Proof.
  destruct (add_returns stable_argsort sample ["x"; "a"] [(0, 1); (1, 2)]
              (Some ["p"; "q"]) "valid" stable_argsort_contract sample_reachable)
    as (s' & Hadd & Hn).
  - discriminate.
  - repeat constructor; unfold fits; vm_compute; discriminate.
  - vm_compute. discriminate.
  - split; [reflexivity |]. vm_compute. discriminate.
  - exists s'. split; [exact Hadd | exact Hn].
Defined.

(** ** The counts *)

Lemma occurrences_snoc w l x :
  occurrences w (l ++ [x]) = occurrences w l + (if decide (x = w) then 1 else 0).
Proof.
  unfold occurrences, len. rewrite filter_app, length_app.
  rewrite filter_cons, filter_nil. destruct (decide (x = w)); simpl; lia.
Qed.

(** Interning [key] adds one to its count and leaves the other counts. *)
Lemma count_of_add_to_vocab key s w :
  wf_words (vocab s) (count s) (ids s) →
  count_of (snd (add_to_vocab key s)) w
  = count_of s w + (if decide (key = w) then 1 else 0).
Proof.
  intros Hw. rewrite (add_to_vocab_exact key s Hw). unfold count_of.
  destruct Hw as [Hl Hb].
  destruct (ids s !! key) as [k |] eqn:Hk; simpl.
  - pose proof (proj1 (Hb key k) Hk) as [Hk0 Hkv].
    pose proof (lookup_lt_Some _ _ _ Hkv) as Hlt.
    destruct (decide (key = w)) as [<- | Hne].
    + rewrite Hk. rewrite !getitem_nonneg by lia.
      rewrite list_lookup_insert_eq by lia. simpl. done.
    + destruct (ids s !! w) as [k' |] eqn:Hk'; [| lia].
      pose proof (proj1 (Hb w k') Hk') as [Hk0' Hkv'].
      rewrite !getitem_nonneg by lia.
      rewrite list_lookup_insert_ne; [lia |]. intros Heq.
      rewrite Heq in Hkv. congruence.
  - destruct (decide (key = w)) as [<- | Hne].
    + rewrite lookup_insert_eq, Hk. unfold len. rewrite getitem_of_nat.
      rewrite Hl, list_lookup_middle by done. simpl. lia.
    + rewrite lookup_insert_ne by done.
      destruct (ids s !! w) as [k' |] eqn:Hk'; [| lia].
      pose proof (proj1 (Hb w k') Hk') as [Hk0' Hkv'].
      pose proof (lookup_lt_Some _ _ _ Hkv') as Hlt.
      rewrite !getitem_nonneg by lia.
      rewrite lookup_app_l by lia. lia.
Qed.

Section Counts.
Variable ds : string.
Local Abbreviation anything := (λ _ : KB, True).

Lemma counted_intern key f :
  triple (counted ds f) (add_to_vocab key)
    (λ _, counted ds (λ w, f w + (if decide (key = w) then 1 else 0))) anything.
Proof.
  intros s (Hw & Ha & Hf).
  pose proof (count_of_add_to_vocab key s) as Hc.
  destruct (add_to_vocab_spec key s Hw) as (i & v' & c' & m' & Heq & Hw' & _).
  rewrite Heq in *. simpl in Hc.
  split; [done |]. split; [done |]. intros w. by rewrite Hc, Hf.
Qed.

Lemma counted_ext f g s : (∀ w, f w = g w) → counted ds f s → counted ds g s.
Proof.
  intros H (Hw & Ha & Hf). split; [done |]. split; [done |].
  intros w. by rewrite Hf, H.
Qed.

Lemma add_counted tokens spans_ answers s0 :
  kb_consistent s0 →
  triple (λ s, s = s0) (add tokens spans_ answers ds)
    (λ _ s, ∀ w, count_of s w
                 = count_of s0 w + occurrences w tokens
                   + match answers with Some a => occurrences w a | None => 0 end)
    anything.
Proof.
  intros ([Hw _] & _ & Hp & _).
  set (f0 := count_of s0).
  set (f1 := λ w, f0 w + occurrences w tokens).
  unfold add.
  eapply (triple_bind _ (λ _ s, wf_words (vocab s) (count s) (ids s) ∧
            (is_Some (contexts s !! ds) → is_Some (answers_ s !! ds)) ∧
            ∀ w, count_of s w = f0 w)).
  { apply triple_modify. intros s ->. split; [done |]. split; [| done].
    apply (Hp ds). }
  intros _.
  eapply (triple_bind _ (λ _ s, ∀ w, count_of s w
            = f1 w + match answers with Some a => occurrences w a | None => 0 end));
    [| intros _; apply triple_get_bind; intros s1 H1; apply triple_ret; by intros s ->].
  unfold add_body.
  eapply (triple_bind _ (λ _ s, wf_words (vocab s) (count s) (ids s) ∧
            (is_Some (contexts s !! ds) → is_Some (answers_ s !! ds)) ∧
            ∀ w, count_of s w = f0 w)); [by apply triple_assert |].
  intros _.
  eapply (triple_bind _ (λ _, counted ds f0)).
  { apply triple_get_bind. intros s1 (H1 & H2 & H3).
    destruct (contexts s1 !! ds) as [cs |] eqn:Hc.
    - apply triple_ret. intros s ->. split; [done |]. split; [| done].
      apply H2. eauto.
    - intros s ->. simpl. split; [done |]. split; [| done].
      simpl. rewrite lookup_insert_eq. eauto. }
  intros _.
  eapply (triple_bind _ (λ _, counted ds f0)).
  { eapply triple_conseq; [apply (record_offsets_frame ds (counted ds f0)) | | | ];
      try done; intros s x Hs; exact Hs. }
  intros _.
  eapply (triple_bind _ (λ _, counted ds f1)).
  { apply triple_get_bind. intros s1 H1.
    eapply (triple_bind _ (λ _, counted ds f0)).
    { apply triple_lift; [by intros; subst | done]. }
    intros _.
    eapply triple_conseq.
    - apply (triple_for_each
               (λ done, counted ds (λ w, f0 w + occurrences w done)) anything).
      intros done x rest _.
      eapply (triple_bind _ (λ _, counted ds (λ w, f0 w + occurrences w (done ++ [x])))).
      + eapply triple_conseq; [apply counted_intern | done | | done].
        intros i s. apply counted_ext. intros w. rewrite occurrences_snoc. lia.
      + intros i. apply triple_array_append_in; [done |].
        intros s a Hs _ _. exact Hs.
    - intros s. apply counted_ext. intros w. unfold occurrences, len. simpl. lia.
    - done.
    - done. }
  intros _.
  eapply (triple_bind _ (λ _, counted ds f1)).
  { eapply triple_conseq; [apply (append_spans_frame ds (counted ds f1)) | | | ];
      try done; intros s x Hs; exact Hs. }
  intros _.
  eapply (triple_bind _ (λ _ s, ∀ w, count_of s w
            = f1 w + match answers with Some a => occurrences w a | None => 0 end)).
  { apply triple_get_bind. intros s1 H1.
    destruct answers as [answers |].
    2:{ apply triple_ret. intros s -> w. destruct H1 as (_ & _ & H1).
        rewrite H1. lia. }
    destruct (decide (answers_ s1 = ∅)) as [Hempty |].
    { destruct H1 as (_ & [x Hx] & _). by rewrite Hempty, lookup_empty in Hx. }
    eapply (triple_bind _ (λ _, counted ds f1)).
    { apply triple_assert; [by intros _ s -> | done]. }
    intros _.
    eapply triple_conseq.
    - apply (triple_for_each
               (λ done, counted ds (λ w, f1 w + occurrences w done)) anything).
      intros done x rest _.
      apply triple_get_bind. intros s2 H2.
      eapply (triple_bind _ (λ _, counted ds (λ w, f1 w + occurrences w done))).
      { apply triple_lift; [by intros; subst | done]. }
      intros _.
      eapply (triple_bind _ (λ _, counted ds (λ w, f1 w + occurrences w done))).
      { apply triple_add_to_answer_vocab. intros s v c m Hs.
        split; [intros _; exact Hs | done]. }
      intros i.
      eapply (triple_bind _ (λ _, counted ds (λ w, f1 w + occurrences w done))).
      { apply triple_array_append_in; [done |].
        intros s a (Hs1 & Hs2 & Hs3) Ha _. split; [done |]. split; [| done].
        simpl. rewrite lookup_insert_eq. eauto. }
      intros _.
      eapply (triple_bind _ (λ _, counted ds (λ w, f1 w + occurrences w (done ++ [x]))));
        [| intros _; by apply triple_ret].
      eapply triple_conseq; [apply counted_intern | done | | done].
      intros j s. apply counted_ext. intros w. rewrite occurrences_snoc. lia.
    - intros s. apply counted_ext. intros w. unfold occurrences, len. simpl. lia.
    - intros u s (_ & _ & Hs) w. by rewrite Hs.
    - done. }
  intros _. apply triple_get_bind. intros s1 H1.
  apply triple_modify. intros s ->. exact H1.
Qed.

End Counts.

(** X9. On a store built by [add] and [order_vocab_by_freq], a call of
    [add] that returns has added to the count of every symbol the
    number of its occurrences in the context, and in the answers when
    answers are given; [count_of s w] is [count[id(w)]], 0 for a
    string without id. *)
Theorem add_counts_occurrences (argsort : list Z → list nat) (s s' : KB)
    (tokens : list string) (spans_ : list (Z * Z))
    (answers : option (list string)) (dataset : string) (n : Z) :
  argsort_contract argsort →
  reachable argsort s →
  add tokens spans_ answers dataset s = (inr n, s') →
  ∀ w, count_of s' w
       = count_of s w + occurrences w tokens
         + match answers with Some a => occurrences w a | None => 0 end.
Proof.
  intros Hok Hreach Hadd.
  pose proof (add_counted dataset tokens spans_ answers s
                (reachable_consistent argsort Hok s Hreach) s eq_refl) as H.
  by rewrite Hadd in H.
Qed.

Lemma add_counts_occurrences_witness :
  ∃ s', add ["a"; "x"; "a"] [(0, 1)] (Some ["a"]) "valid" sample = (inr 1, s') ∧
        count_of sample "a" = 3 ∧ count_of s' "a" = 6 ∧
        count_of sample "x" = 0 ∧ count_of s' "x" = 1.
Proof.
  destruct (add ["a"; "x"; "a"] [(0, 1)] (Some ["a"]) "valid" sample)
    as [r s'] eqn:Hadd.
  assert (Hr : r = inr 1).
  { apply (f_equal fst) in Hadd. simpl in Hadd. rewrite <- Hadd.
    vm_compute. reflexivity. }
  subst r. exists s'. split; [reflexivity |].
  pose proof (add_counts_occurrences stable_argsort sample s' ["a"; "x"; "a"]
                [(0, 1)] (Some ["a"]) "valid" 1 stable_argsort_contract
                sample_reachable Hadd) as H.
  split; [vm_compute; reflexivity |].
  split; [rewrite (H "a"); vm_compute; reflexivity |].
  split; [vm_compute; reflexivity |].
  rewrite (H "x"). vm_compute. reflexivity.
Defined.


(** ** What [order_vocab_by_freq] does to the symbols *)

Section Renumbering.
Variable argsort : list Z → list nat.
Hypothesis argsort_ok : argsort_contract argsort.

Lemma omap_lookup_list {A} (v : list A) (ks : list nat) (ws : list A) :
  Forall2 (λ k w, v !! k = Some w) ks ws → omap (v !!.) ks = ws.
Proof.
  induction 1 as [| k w ks ws Hk _ IH]; [done |].
  simpl. rewrite Hk. f_equal. exact IH.
Qed.

Lemma omap_lookup_seq {A} (v : list A) : omap (v !!.) (seq 0 (length v)) = v.
Proof.
  apply omap_lookup_list. apply Forall2_same_length_lookup_2.
  - by rewrite length_seq.
  - intros i k w Hk Hw. apply lookup_seq in Hk as [-> _]. done.
Qed.

Lemma renumbered_vocab_perm s s' mapping :
  wf_vocab s →
  renumbered (reverse (argsort (count s))) mapping s s' →
  vocab s' ≡ₚ vocab s.
Proof.
  intros [[Hl _] _] [Hv _ _ _ _].
  apply omap_lookup_list in Hv. rewrite <- Hv.
  transitivity (omap (vocab s !!.) (seq 0 (length (vocab s))));
    [| by rewrite omap_lookup_seq].
  apply omap_Permutation. rewrite reverse_Permutation, Hl. apply argsort_ok.
Qed.

Lemma renumbered_count_of s s' mapping w :
  wf_vocab s →
  renumbered (reverse (argsort (count s))) mapping s s' →
  count_of s' w = count_of s w.
Proof.
  intros Hwf Hr. pose proof Hwf as [[Hl Hids] _].
  pose proof Hr as [_ Hc _ Hi _].
  unfold count_of. rewrite Hi.
  destruct (ids s !! w) as [k |] eqn:Hk; [| done]. simpl.
  apply Hids in Hk as [Hk0 Hkw].
  assert (Hin : 0 ≤ k < len (vocab s)).
  { apply lookup_lt_Some in Hkw. unfold len. lia. }
  destruct (renumbered_rank argsort argsort_ok s s' mapping k Hwf Hr Hin)
    as (p & Hp & Hm & _).
  rewrite Hm. rewrite getitem_of_nat.
  destruct (Forall2_lookup_l _ _ _ _ _ Hc Hp) as (x & Hx & Hkx).
  rewrite Hx, getitem_nonneg by lia. by rewrite Hkx.
Qed.

Lemma order_keeps_counts s s' :
  wf_vocab s → order_vocab_by_freq argsort s = Some s' →
  vocab s' ≡ₚ vocab s ∧ ∀ w, count_of s' w = count_of s w.
Proof.
  intros Hwf H. destruct (ordered s) eqn:Hord.
  - unfold order_vocab_by_freq in H. rewrite Hord in H. by injection H as <-.
  - destruct (order_vocab_by_freq_renumbered argsort argsort_ok s s' Hord H)
      as [mapping Hr].
    split; [by eapply renumbered_vocab_perm |].
    intros w. by eapply renumbered_count_of.
Qed.

(** In a well-formed store whose flag is set, a symbol with a larger
    count has the smaller id. *)
Lemma ordered_frequent_first s w1 w2 k1 k2 :
  kb_wf s → ordered s = true →
  ids s !! w1 = Some k1 → ids s !! w2 = Some k2 →
  count_of s w2 < count_of s w1 → k1 < k2.
Proof.
  intros [[[Hl Hids] _] Hsorted] Hord H1 H2 Hlt.
  specialize (Hsorted Hord). unfold count_of in Hlt. rewrite H1, H2 in Hlt.
  apply Hids in H1 as [H10 H1w]. apply Hids in H2 as [H20 H2w].
  destruct (Z.lt_trichotomy k1 k2) as [Hk | [-> | Hk]]; [done | lia |].
  exfalso.
  destruct (lookup_lt_is_Some_2 (count s) (Z.to_nat k1)) as [x1 Hx1].
  { rewrite <- Hl. by eapply lookup_lt_Some. }
  destruct (lookup_lt_is_Some_2 (count s) (Z.to_nat k2)) as [x2 Hx2].
  { rewrite <- Hl. by eapply lookup_lt_Some. }
  rewrite !getitem_nonneg in Hlt by lia. rewrite Hx1, Hx2 in Hlt. simpl in Hlt.
  assert (Hn : (Z.to_nat k2 < Z.to_nat k1)%nat) by lia.
  pose proof (Hsorted _ _ _ _ Hn Hx2 Hx1). lia.
Qed.

(** X10. A call of [order_vocab_by_freq] that returns, on a store built
    by [add] and [order_vocab_by_freq], keeps the symbols and their
    counts: the new vocabulary is a permutation of the old one, and
    every string has the count it had, [count[id(w)]] read with its
    new id. *)
Theorem order_vocab_by_freq_keeps_counts (s s' : KB) :
  reachable argsort s →
  order_vocab_by_freq argsort s = Some s' →
  vocab s' ≡ₚ vocab s ∧ ∀ w, count_of s' w = count_of s w.
Proof.
  intros Hreach. apply order_keeps_counts.
  by apply (reachable_wf argsort argsort_ok).
Qed.

(** X11. After a call of [order_vocab_by_freq] that returns, on a store
    built by [add] and [order_vocab_by_freq], of two symbols of the
    old vocabulary the one that had the larger count has the smaller
    id. *)
Theorem order_vocab_by_freq_frequent_first (s s' : KB) (w1 w2 : string) :
  reachable argsort s →
  order_vocab_by_freq argsort s = Some s' →
  is_Some (ids s !! w1) → is_Some (ids s !! w2) →
  count_of s w2 < count_of s w1 →
  kb_id s' w1 (-1) < kb_id s' w2 (-1).
Proof.
  intros Hreach H Hw1 Hw2 Hlt.
  pose proof (reachable_wf argsort argsort_ok s Hreach) as Hwf.
  pose proof (order_vocab_by_freq_wf argsort argsort_ok s s' Hwf H) as Hwf'.
  destruct (order_keeps_counts s s' (proj1 Hwf) H) as [_ Hc].
  destruct (order_vocab_by_freq_domains argsort s s' H) as (_ & _ & Hdom).
  apply Hdom in Hw1 as [k1 Hk1]. apply Hdom in Hw2 as [k2 Hk2].
  unfold kb_id. rewrite Hk1, Hk2. simpl.
  apply (ordered_frequent_first s' w1 w2 k1 k2 Hwf'); try done.
  - by destruct (order_vocab_by_freq_frame argsort s s' H)
      as (_ & _ & _ & _ & _ & _ & _ & _ & Hord).
  - by rewrite !Hc.
Qed.

End Renumbering.

Lemma order_vocab_by_freq_keeps_counts_witness :
  ∃ s', order_vocab_by_freq stable_argsort sample = Some s' ∧
        vocab sample = ["a"; "b"; "c"; "d"] ∧
        vocab s' = ["c"; "a"; "b"; "d"] ∧
        vocab s' ≡ₚ vocab sample ∧
        count_of sample "b" = 2 ∧ count_of s' "b" = count_of sample "b".
Proof.
  destruct (order_vocab_by_freq stable_argsort sample) as [s' |] eqn:Hs';
    [| by vm_compute in Hs'].
  exists s'. split; [reflexivity |].
  pose proof (order_vocab_by_freq_keeps_counts stable_argsort
                stable_argsort_contract sample s' sample_reachable Hs') as [Hp Hc].
  split; [vm_compute; reflexivity |].
  split; [vm_compute in Hs'; injection Hs' as <-; vm_compute; reflexivity |].
  split; [exact Hp |].
  split; [vm_compute; reflexivity | apply Hc].
Defined.

Lemma order_vocab_by_freq_frequent_first_witness :
  ∃ s', order_vocab_by_freq stable_argsort sample = Some s' ∧
        count_of sample "b" = 2 ∧ count_of sample "c" = 3 ∧
        kb_id sample "b" (-1) = 1 ∧ kb_id sample "c" (-1) = 2 ∧
        kb_id s' "c" (-1) < kb_id s' "b" (-1).
Proof.
  destruct (order_vocab_by_freq stable_argsort sample) as [s' |] eqn:Hs';
    [| by vm_compute in Hs'].
  exists s'. split; [reflexivity |].
  split; [vm_compute; reflexivity |].
  split; [vm_compute; reflexivity |].
  split; [vm_compute; reflexivity |].
  split; [vm_compute; reflexivity |].
  apply (order_vocab_by_freq_frequent_first stable_argsort
           stable_argsort_contract sample s' "c" "b" sample_reachable Hs').
  - vm_compute. eauto.
  - vm_compute. eauto.
  - vm_compute. reflexivity.
Defined.


(** ** Reading back the answers [add] stored *)

Lemma add_to_answer_vocab_spec key s :
  wf_words (answer_vocab s) (answer_count s) (answer_ids s) →
  ∃ i v' c' m',
    add_to_answer_vocab key s = (inr i, set_answer_words v' c' m' s) ∧
    wf_words v' c' m' ∧ answer_vocab s `prefix_of` v' ∧
    0 ≤ i ∧ v' !! Z.to_nat i = Some key.
Proof.
  intros Hwf. rewrite (add_to_answer_vocab_exact key s Hwf).
  destruct (answer_ids s !! key) as [k |] eqn:Hk.
  - eexists _, _, _, _. split; [done |].
    split; [by apply wf_words_count |]. split; [done |].
    destruct Hwf as [_ Hb]. by apply Hb.
  - eexists _, _, _, _. split; [done |]. split.
    { pose proof (wf_words_snoc _ _ _ key 0 Hwf Hk) as Hs.
      pose proof (wf_words_count _ _ _ (length (answer_count s)) 1 Hs) as Hs'.
      replace (length (answer_count s)) with (length (answer_count s) + 0)%nat
        in Hs' by lia.
      by rewrite insert_app_r in Hs'. }
    split; [by apply prefix_app_r |]. unfold len. split; [lia |].
    rewrite Nat2Z.id. by apply list_lookup_middle.
Qed.

Ltac answer_arrays_split :=
  unfold answer_arrays;
  split; [| split; [| split; [| split; [| split]]]];
  simpl; rewrite ?lookup_insert_eq; try done.

Section Answers.
Variable ds : string.
Local Abbreviation anything := (λ _ : KB, True).

Lemma answers_ensure_partition anss :
  triple (answers_stored ds anss) (ensure_partition ds)
    (λ _ s, ∃ as_ sts, answer_arrays ds as_ (concat anss) sts (offsets anss) s ∧
                       length sts = length as_)
    anything.
Proof.
  apply triple_get_bind. intros s0 H0.
  destruct (contexts s0 !! ds) eqn:Hc.
  - apply triple_ret. intros s ->.
    destruct H0 as [(_ & Hn & _) | H]; [congruence | done].
  - destruct H0 as [(-> & _ & Hw) | (as_ & sts & (_ & [x Hx] & _) & _)];
      [| congruence].
    intros s ->. simpl. exists [], []. split; [| done].
    answer_arrays_split.
Qed.

Lemma answers_record_offsets as_ ws sts soffs :
  triple (answer_arrays ds as_ ws sts soffs) (record_offsets ds)
    (λ _, answer_arrays ds as_ ws sts (soffs ++ [len sts])) anything.
Proof.
  unfold record_offsets.
  eapply (triple_bind _ (λ _, answer_arrays ds as_ ws sts soffs));
    [by apply triple_len_in |].
  intros n.
  eapply (triple_bind _ (λ _, answer_arrays ds as_ ws sts soffs)).
  { apply triple_list_append_in; [done |]. intros s a Hs _. exact Hs. }
  intros _.
  eapply (triple_bind _ (λ n s, answer_arrays ds as_ ws sts soffs s ∧ n = len sts)).
  { apply triple_len_in; [done |]. intros s a H Ha. split; [done |].
    destruct H as (_ & _ & _ & _ & Hst & _). congruence. }
  intros n'. apply triple_list_append_in; [done |].
  intros s a [(Hw & Hc & Ha & Hdec & Hst & Hso) ->] Hso'. rewrite Hso in Hso'.
  injection Hso' as <-. answer_arrays_split.
Qed.

Lemma answers_extend_contexts context as_ ws sts soffs :
  triple (answer_arrays ds as_ ws sts soffs) (extend_contexts context ds)
    (λ _, answer_arrays ds as_ ws sts soffs) anything.
Proof.
  eapply triple_conseq;
    [apply (extend_contexts_frame ds (answer_arrays ds as_ ws sts soffs)) | | | ];
    try done.
  intros s x (Hw & Hc & H). answer_arrays_split; apply H.
Qed.

Lemma answers_append_spans spans as_ ws sts soffs :
  triple (answer_arrays ds as_ ws sts soffs) (append_spans spans ds)
    (λ _, answer_arrays ds as_ ws (sts ++ spans.*1) soffs) anything.
Proof.
  eapply triple_conseq.
  - apply (triple_for_each
             (λ done, answer_arrays ds as_ ws (sts ++ done.*1) soffs) anything).
    intros done span rest _.
    eapply (triple_bind _ (λ _, answer_arrays ds as_ ws (sts ++ (done ++ [span]).*1)
                                  soffs)).
    + apply triple_array_append_in; [done |].
      intros s a (Hw & Hc & Ha & Hdec & Hst & Hso) Hst' _.
      rewrite Hst in Hst'. injection Hst' as <-.
      answer_arrays_split. by rewrite fmap_app, app_assoc.
    + intros _. apply triple_array_append_in; [done |].
      intros s a Hs _ _. exact Hs.
  - intros s H. by rewrite app_nil_r.
  - done.
  - done.
Qed.

Lemma answer_arrays_prefix as_ ws sts soffs s v' c' m' :
  answer_arrays ds as_ ws sts soffs s →
  wf_words v' c' m' → answer_vocab s `prefix_of` v' →
  answer_arrays ds as_ ws sts soffs (set_answer_words v' c' m' s).
Proof.
  intros (Hw & Hc & Ha & Hdec & Hst & Hso) Hw' Hp.
  answer_arrays_split.
  eapply Forall2_impl; [exact Hdec |]. intros k w [Hk Hkw].
  split; [done |]. by eapply prefix_lookup_Some.
Qed.

Lemma answers_append_answers answers spans as_ ws sts soffs :
  triple (answer_arrays ds as_ ws sts soffs)
    (append_answers (Some answers) spans ds)
    (λ _ s, ∃ new, answer_arrays ds (as_ ++ new) (ws ++ answers) sts soffs s ∧
                   length answers = length spans)
    anything.
Proof.
  apply triple_get_bind. intros s0 H0.
  destruct (decide (answers_ s0 = ∅)) as [Hempty |].
  { destruct H0 as (_ & _ & Ha & _). by rewrite Hempty, lookup_empty in Ha. }
  eapply (triple_bind _ (λ _ s, answer_arrays ds as_ ws sts soffs s ∧
                                length answers = length spans)).
  { apply triple_assert; [| done]. intros Hlen s ->. split; [done |].
    apply Z.eqb_eq in Hlen. unfold len in Hlen. lia. }
  intros _.
  eapply triple_conseq.
  - apply (triple_for_each
             (λ done s, ∃ new, answer_arrays ds (as_ ++ new) (ws ++ done) sts soffs s ∧
                               length answers = length spans)
             anything).
    intros done answer rest _.
    apply triple_get_bind. intros s1 H1.
    eapply (triple_bind _ (λ _ s, s = s1)).
    { apply triple_lift; by intros; subst. }
    intros _.
    eapply (triple_bind _ (λ i s,
              ∃ new, answer_arrays ds (as_ ++ new) (ws ++ done) sts soffs s ∧
                     length answers = length spans ∧
                     0 ≤ i ∧ answer_vocab s !! Z.to_nat i = Some answer)).
    { intros s ->. destruct H1 as (new & H1 & Hlen).
      destruct (add_to_answer_vocab_spec answer s1 (proj1 H1))
        as (i & v' & c' & m' & -> & Hw' & Hp & Hi & Hv).
      exists new. split; [by apply answer_arrays_prefix | done]. }
    intros i.
    eapply (triple_bind _ (λ _ s,
              ∃ new, answer_arrays ds (as_ ++ new) (ws ++ (done ++ [answer]))
                       sts soffs s ∧ length answers = length spans)).
    { apply triple_array_append_in; [done |].
      intros s a (new & (Hw & Hc & Ha & Hdec & Hst & Hso) & Hlen & Hi & Hv) Ha' _.
      rewrite Ha in Ha'. injection Ha' as <-. exists (new ++ [i]).
      split; [| done]. rewrite !app_assoc. answer_arrays_split.
      apply Forall2_app; [done |]. by constructor. }
    intros _.
    eapply (triple_bind _ (λ _ s,
              ∃ new, answer_arrays ds (as_ ++ new) (ws ++ (done ++ [answer]))
                       sts soffs s ∧ length answers = length spans));
      [| intros _; by apply triple_ret].
    apply triple_add_to_vocab_frame. intros s v c m Hs. split; [| done].
    intros _. exact Hs.
  - intros s [H Hlen]. exists []. by rewrite !app_nil_r.
  - done.
  - done.
Qed.

(** A call of [add] with answers that returns has stored them behind
    those already there. *)
Lemma add_stores_answers context spans answers anss :
  triple (answers_stored ds anss) (add context spans (Some answers) ds)
    (λ _, answers_stored ds (anss ++ [answers])) anything.
Proof.
  unfold add.
  eapply (triple_bind _ (λ _, answers_stored ds anss)).
  { apply triple_modify. intros s Hs. exact Hs. }
  intros _.
  eapply (triple_bind _ (λ _, answers_stored ds (anss ++ [answers])));
    [| intros _; apply triple_get_bind; intros s0 H0; apply triple_ret;
       by intros s ->].
  unfold add_body.
  eapply (triple_bind _ (λ _, answers_stored ds anss)); [by apply triple_assert |].
  intros _.
  eapply triple_bind; [apply answers_ensure_partition |].
  intros u. apply triple_at. intros s0 (as_ & sts & H0 & Hlen).
  assert (Hcat : len sts = len (concat anss)).
  { destruct H0 as (_ & _ & _ & Hdec & _). unfold len. f_equal.
    rewrite Hlen. by eapply Forall2_length. }
  eapply (triple_bind _ (λ _, answer_arrays ds as_ (concat anss) sts
                                (offsets (anss ++ [answers])))).
  { eapply triple_conseq; [apply answers_record_offsets | | | done].
    - intros s ->. exact H0.
    - intros u0 s H. by rewrite offsets_snoc, <- Hcat. }
  intros _.
  eapply triple_bind; [apply answers_extend_contexts |].
  intros u1.
  eapply triple_bind; [apply answers_append_spans |].
  intros u2.
  eapply (triple_bind _ (λ _, answers_stored ds (anss ++ [answers]))).
  { eapply triple_conseq; [apply answers_append_answers | done | | done].
    intros u3 s (new & H & Hl). right. exists (as_ ++ new), (sts ++ spans.*1).
    rewrite concat_snoc. split; [done |].
    destruct H as (_ & _ & _ & Hdec & _).
    apply Forall2_length in Hdec. rewrite !length_app in Hdec.
    rewrite !length_app, length_fmap.
    destruct H0 as (_ & _ & _ & Hdec0 & _). apply Forall2_length in Hdec0.
    lia. }
  intros _. apply triple_get_bind. intros s1 H1.
  apply triple_modify. intros s ->.
  destruct H1 as [(Hnil & _) | (as1 & sts1 & H1 & Hl1)].
  { by destruct anss. }
  right. exists as1, sts1. split; [| done]. exact H1.
Qed.

End Answers.

Lemma run_adds_answers ds calls :
  ∀ s anss trace s',
    answers_stored ds anss s →
    run_adds ds calls s = (trace, s') →
    Forall (λ r, succeeded r.1) trace →
    Forall (λ c : call, is_Some c.2) calls →
    answers_stored ds (anss ++ given_answers calls) s'.
Proof.
  induction calls as [| [[c sp] a] rest IH]; intros s anss trace s' Hs; simpl.
  - intros [= <- <-] _ _. by rewrite app_nil_r.
  - intros Hrun Hok Hall. apply Forall_cons in Hall as [Ha Hall].
    simpl in Ha. destruct Ha as [a' ->].
    pose proof (add_stores_answers ds c sp a' anss s Hs) as Hadd.
    destruct (add c sp (Some a') ds s) as [r s1].
    destruct (run_adds ds rest s1) as [rs s2] eqn:Hrest.
    injection Hrun as <- <-. apply Forall_cons in Hok as [Hr Hok]. simpl in Hr.
    destruct r as [e | n0]; [done |].
    pose proof (IH s1 (anss ++ [a']) rs s2 Hadd Hrest Hok Hall) as H.
    by rewrite <- app_assoc in H.
Qed.

Lemma answers_stored_answers ds anss s i a :
  answers_stored ds anss s → anss !! i = Some a →
  ∃ ks, answers s (Z.of_nat i) ds = inr ks ∧ decode_answers s ks = Some a.
Proof.
  intros [(-> & _) | (as_ & sts & (Hw & Hc & Ha & Hdec & Hst & Hso) & Hl)] Hi;
    [by rewrite lookup_nil in Hi |].
  pose proof (Forall2_length _ _ _ Hdec) as Hlen.
  destruct (block_bounds anss as_ i a Hi Hlen) as [Hb1 Hb2].
  exists (slice as_ (len (concat (take i anss))) (len (concat (take (S i) anss)))).
  split.
  - unfold answers. rewrite Hso, Ha, Hb1.
    assert (Hne : answers_ s ≠ ∅).
    { intros Hempty. by rewrite Hempty, lookup_empty in Ha. }
    destruct (Z.of_nat i + 1 <? len (offsets anss)).
    + rewrite Hb2. by destruct (decide (answers_ s = ∅)).
    + injection Hb2 as ->. by destruct (decide (answers_ s = ∅)).
  - unfold decode_answers. apply mapM_Some.
    rewrite (block_slice anss as_ i a Hi Hlen).
    rewrite <- (block_cut anss i a Hi) at 1.
    apply Forall2_take, Forall2_drop.
    eapply Forall2_impl; [exact Hdec |]. intros k w [Hk Hkw].
    by rewrite getitem_nonneg.
Qed.

(** X12. A run of [add] calls into one partition of a fresh store, all
    of which return and all of which are given answers: for every
    call [i], [answers(i)] read through [answer_vocab] gives the
    answers of call [i]. *)
Theorem add_answers_round_trip (dataset : string) (calls : list call)
    (trace : list ((exn + Z) * Z)) (s' : KB) :
  run_adds dataset calls KB_init = (trace, s') →
  Forall (λ r, succeeded r.1) trace →
  Forall (λ c : call, is_Some c.2) calls →
  ∀ i c sp a, calls !! i = Some (c, sp, Some a) →
    ∃ ks, answers s' (Z.of_nat i) dataset = inr ks ∧
          decode_answers s' ks = Some a.
Proof.
  intros Hrun Hok Hall i c sp a Hi.
  assert (Hinit : answers_stored dataset [] KB_init).
  { left. split; [done |]. split; [done |]. apply KB_init_consistent. }
  pose proof (run_adds_answers dataset calls KB_init [] trace s' Hinit Hrun Hok Hall)
    as Hst.
  simpl in Hst. apply (answers_stored_answers dataset _ s' i a Hst).
  unfold given_answers. unfold call in *. by rewrite list_lookup_fmap, Hi.
Qed.

Lemma add_answers_round_trip_witness :
  ∃ s', run_adds "train" [(["a"; "b"], [(0, 1)], Some ["x"]);
                            (["b"; "c"; "a"], [(1, 2); (2, 3)], Some ["y"; "x"])]
           KB_init
        = ([(inr 0, 1); (inr 1, 2)], s') ∧
        (∃ ks, answers s' 1 "train" = inr ks ∧
               decode_answers s' ks = Some ["y"; "x"]).
Proof.
  eexists. split; [vm_compute; reflexivity |].
  match goal with
  | |- context [answers ?s _ _] =>
      apply (add_answers_round_trip "train"
               [(["a"; "b"], [(0, 1)], Some ["x"]);
                (["b"; "c"; "a"], [(1, 2); (2, 3)], Some ["y"; "x"])]
               [(inr 0, 1); (inr 1, 2)] s) with (i := 1%nat)
             (c := ["b"; "c"; "a"]) (sp := [(1, 2); (2, 3)])
  end.
  - vm_compute. reflexivity.
  - repeat constructor.
  - repeat constructor; simpl; eauto.
  - reflexivity.
Defined.


(** ** Reading back the context a call of [add] stored *)

Section NewBlock.
Variables (ds : string) (cs offs : list Z).
Local Abbreviation anything := (λ _ : KB, True).

Lemma new_block_words new ws s v' c' m' :
  new_block ds cs offs new ws s →
  wf_words v' c' m' → vocab s `prefix_of` v' →
  new_block ds cs offs new ws (set_words v' c' m' s).
Proof.
  intros (Hw & Hc & Ho & Hdec) Hw' Hp.
  split; [done |]. split; [done |]. split; [done |].
  eapply Forall2_impl; [exact Hdec |]. intros k w [Hk Hkw].
  split; [done |]. by eapply prefix_lookup_Some.
Qed.

Lemma new_block_record_offsets :
  triple (λ s, wf_words (vocab s) (count s) (ids s) ∧
               contexts s !! ds = Some cs ∧ context_offsets s !! ds = Some offs)
    (record_offsets ds) (λ _, new_block ds cs offs [] []) anything.
Proof.
  unfold record_offsets.
  eapply (triple_bind _ (λ n s, (wf_words (vocab s) (count s) (ids s) ∧
             contexts s !! ds = Some cs ∧ context_offsets s !! ds = Some offs) ∧
             n = len cs)).
  { apply triple_len_in; [done |]. intros s a H Ha. split; [done |].
    destruct H as (_ & Hc & _). congruence. }
  intros n.
  eapply (triple_bind _ (λ _, new_block ds cs offs [] [])).
  { apply triple_list_append_in; [done |].
    intros s a [(Hw & Hc & Ho) ->] Ha. rewrite Ho in Ha. injection Ha as <-.
    split; [done |]. simpl. rewrite app_nil_r, lookup_insert_eq.
    split; [done |]. split; [done | constructor]. }
  intros _.
  eapply (triple_bind _ (λ _, new_block ds cs offs [] []));
    [by apply triple_len_in |].
  intros n'. apply triple_list_append_in; [done |].
  intros s a Hs _. exact Hs.
Qed.

Lemma new_block_extend_contexts tokens :
  triple (new_block ds cs offs [] []) (extend_contexts tokens ds)
    (λ _ s, ∃ new, new_block ds cs offs new tokens s) anything.
Proof.
  apply triple_get_bind. intros s0 H0.
  eapply (triple_bind _ (λ _, new_block ds cs offs [] [])).
  { apply triple_lift; by intros; subst. }
  intros _.
  eapply triple_conseq.
  - apply (triple_for_each (λ done s, ∃ new, new_block ds cs offs new done s)
             anything).
    intros done w rest _.
    eapply (triple_bind _ (λ i s, ∃ new, new_block ds cs offs new done s ∧
                                   0 ≤ i ∧ vocab s !! Z.to_nat i = Some w)).
    + apply triple_add_to_vocab.
      { intros s (new & Hw & _). exact Hw. }
      intros s i v' c' m' (new & H) Hw' Hp Hi Hv. exists new.
      split; [by apply new_block_words |]. split; [lia | done].
    + intros i. apply triple_array_append_in; [done |].
      intros s a (new & (Hw & Hc & Ho & Hdec) & Hi & Hv) Ha _.
      rewrite Hc in Ha. injection Ha as <-. exists (new ++ [i]).
      split; [done |]. simpl. rewrite lookup_insert_eq, app_assoc.
      split; [done |]. split; [done |].
      apply Forall2_app; [done |]. by constructor.
  - intros s H. by exists [].
  - done.
  - done.
Qed.

Lemma new_block_append_spans spans_ new ws :
  triple (new_block ds cs offs new ws) (append_spans spans_ ds)
    (λ _, new_block ds cs offs new ws) anything.
Proof.
  eapply triple_conseq;
    [apply (append_spans_frame ds (new_block ds cs offs new ws)) | | | ];
    try done; intros s x Hs; exact Hs.
Qed.

Lemma new_block_append_answers answers spans_ new ws :
  triple (new_block ds cs offs new ws) (append_answers answers spans_ ds)
    (λ _, new_block ds cs offs new ws) anything.
Proof.
  apply triple_get_bind. intros s0 H0.
  destruct answers as [answers |]; [| apply triple_ret; by intros s ->].
  destruct (decide (answers_ s0 = ∅)); [apply triple_ret; by intros s -> |].
  eapply (triple_bind _ (λ _, new_block ds cs offs new ws)).
  { apply triple_assert; [by intros _ s -> | done]. }
  intros _.
  apply (triple_for_each (λ _, new_block ds cs offs new ws) anything).
  intros _ answer _ _.
  apply triple_get_bind. intros s1 H1.
  eapply (triple_bind _ (λ _, new_block ds cs offs new ws)).
  { apply triple_lift; by intros; subst. }
  intros _.
  eapply (triple_bind _ (λ _, new_block ds cs offs new ws)).
  { apply triple_add_to_answer_vocab. intros s v c m Hs. split; [| done].
    intros _. exact Hs. }
  intros i.
  eapply (triple_bind _ (λ _, new_block ds cs offs new ws)).
  { apply triple_array_append_in; [done |]. intros s a Hs _ _. exact Hs. }
  intros _.
  eapply (triple_bind _ (λ _, new_block ds cs offs new ws)).
  - apply triple_add_to_vocab; [by intros s [H _] |].
    intros s j v' c' m' H Hw' Hp _ _. by apply new_block_words.
  - intros _. by apply triple_ret.
Qed.

End NewBlock.

Lemma new_block_context ds cs offs new ws s :
  new_block ds cs offs new ws s →
  num_contexts s ds = len offs + 1 ∧
  context s (len offs) ds = inr new ∧ decode s new = Some ws.
Proof.
  intros (Hw & Hc & Ho & Hdec).
  assert (Hl : len (offs ++ [len cs]) = len offs + 1).
  { unfold len. rewrite length_app. simpl. lia. }
  split; [unfold num_contexts; by rewrite Ho |]. split.
  - assert (Hg : getitem (offs ++ [len cs]) (len offs) = Some (len cs)).
    { unfold len at 2. by rewrite getitem_of_nat, list_lookup_middle. }
    unfold context. rewrite Ho, Hc, Hl, Hg.
    destruct (Z.ltb_spec (len offs + 1) (len offs + 1)); [lia |].
    f_equal. unfold len. rewrite slice_nonneg by (rewrite length_app; lia).
    rewrite drop_app_length, length_app.
    replace (length cs + length new - length cs)%nat with (length new) by lia.
    by rewrite firstn_all.
  - unfold decode. apply mapM_Some.
    eapply Forall2_impl; [exact Hdec |]. intros k w [Hk Hkw].
    by rewrite getitem_nonneg.
Qed.

(** What [add] returns and stores, on a consistent store. *)
Lemma add_reads_back tokens spans_ answers ds s0 :
  kb_consistent s0 →
  triple (λ s, s = s0) (add tokens spans_ answers ds)
    (λ n s, n = num_contexts s0 ds ∧ num_contexts s ds = n + 1 ∧
            ∃ ks, context s n ds = inr ks ∧ decode s ks = Some tokens)
    (λ _, True).
Proof.
  intros ([Hw _] & _ & Hp & _).
  set (P := λ cs offs (s : KB),
         wf_words (vocab s) (count s) (ids s) ∧
         contexts s !! ds = Some cs ∧ context_offsets s !! ds = Some offs).
  assert (Hstart : ∃ cs offs, num_contexts s0 ds = len offs ∧
            triple (λ s, s = set_ordered false s0) (ensure_partition ds)
              (λ _, P cs offs) (λ _, True)).
  { destruct (contexts s0 !! ds) as [cs |] eqn:Hc.
    - destruct (proj1 (proj1 (proj2 (proj2 (proj2 (Hp ds))))) (ex_intro _ cs Hc))
        as [offs Ho].
      exists cs, offs. split; [unfold num_contexts; by rewrite Ho |].
      apply triple_get_bind. intros s1 ->. simpl. rewrite Hc.
      apply triple_ret. by intros s ->.
    - assert (Ho : context_offsets s0 !! ds = None).
      { destruct (context_offsets s0 !! ds) as [offs |] eqn:Ho; [| done].
        destruct (proj2 (proj1 (proj2 (proj2 (proj2 (Hp ds)))))
                    (ex_intro _ offs Ho)) as [cs Hcs].
        congruence. }
      exists [], []. split; [unfold num_contexts; by rewrite Ho |].
      apply triple_get_bind. intros s1 ->. simpl. rewrite Hc.
      intros s ->. unfold P. simpl. by rewrite !lookup_insert_eq. }
  destruct Hstart as (cs & offs & Hn & Hensure).
  unfold add.
  eapply (triple_bind _ (λ _ s, s = set_ordered false s0)).
  { apply triple_modify. by intros s ->. }
  intros _.
  eapply (triple_bind _ (λ _ s, ∃ new, new_block ds cs offs new tokens s)).
  - unfold add_body.
    eapply (triple_bind _ (λ _ s, s = set_ordered false s0));
      [by apply triple_assert |].
    intros _.
    eapply triple_bind; [exact Hensure |].
    intros u0.
    eapply triple_bind; [apply new_block_record_offsets |].
    intros u1.
    eapply triple_bind; [apply new_block_extend_contexts |].
    intros u2. apply triple_at. intros s1 (new & H1).
    eapply (triple_bind _ (λ _, new_block ds cs offs new tokens)).
    { eapply triple_conseq; [apply new_block_append_spans | | | done].
      - intros s ->. exact H1.
      - intros u s Hs. exact Hs. }
    intros _.
    eapply triple_bind; [apply new_block_append_answers |].
    intros u3. apply triple_get_bind. intros s2 H2.
    apply triple_modify. intros s ->. exists new. exact H2.
  - intros _. apply triple_get_bind. intros s1 (new & H1).
    apply triple_ret. intros s ->.
    destruct (new_block_context ds cs offs new tokens s1 H1) as (Hn1 & Hctx & Hdec).
    rewrite Hn1, Hn. split; [lia |]. split; [lia |].
    exists new. replace (len offs + 1 - 1) with (len offs) by lia. done.
Qed.

(** X13. On a store built by [add] and [order_vocab_by_freq], a call of
    [add] that returns has returned the number of contexts the
    partition had, which is the index of the new context:
    [num_contexts] has grown by one and [context] at the returned
    index, read through [vocab], gives the tokens of the call. *)
Theorem add_then_context (argsort : list Z → list nat) (s s' : KB)
    (tokens : list string) (spans_ : list (Z * Z))
    (answers : option (list string)) (dataset : string) (n : Z) :
  argsort_contract argsort →
  reachable argsort s →
  add tokens spans_ answers dataset s = (inr n, s') →
  n = num_contexts s dataset ∧
  num_contexts s' dataset = n + 1 ∧
  ∃ ks, context s' n dataset = inr ks ∧ decode s' ks = Some tokens.
Proof.
  intros Hok Hreach Hadd.
  pose proof (add_reads_back tokens spans_ answers dataset s
                (reachable_consistent argsort Hok s Hreach) s eq_refl) as H.
  by rewrite Hadd in H.
Qed.

Lemma add_then_context_witness :
  ∃ s', add ["d"; "x"; "a"] [(0, 1)] None "valid" sample = (inr 1, s') ∧
        num_contexts sample "valid" = 1 ∧
        num_contexts s' "valid" = 2 ∧
        context s' 1 "valid" = inr [3; 4; 0] ∧
        ∃ ks, context s' 1 "valid" = inr ks ∧ decode s' ks = Some ["d"; "x"; "a"].
Proof.
  destruct (add ["d"; "x"; "a"] [(0, 1)] None "valid" sample) as [r s'] eqn:Hadd.
  assert (Hr : r = inr 1).
  { apply (f_equal fst) in Hadd. simpl in Hadd. rewrite <- Hadd.
    vm_compute. reflexivity. }
  subst r. exists s'. split; [reflexivity |].
  destruct (add_then_context stable_argsort sample s' ["d"; "x"; "a"] [(0, 1)]
              None "valid" 1 stable_argsort_contract sample_reachable Hadd)
    as (Hn & Hn' & Hctx).
  split; [by rewrite <- Hn |]. split; [exact Hn' |]. split; [| exact Hctx].
  apply (f_equal snd) in Hadd. simpl in Hadd. rewrite <- Hadd.
  vm_compute. reflexivity.
Defined.


(** * Further properties of the fact store *)

(** ** The entity vocabulary and [FactKB.id] *)

Lemma entities_wf_snoc s e :
  entities_wf s → entity_ids s !! e = None →
  entities_wf (set_entities (entity_vocab s ++ [e])
                 (<[e := len (entity_vocab s)]> (entity_ids s)) s).
Proof.
  intros H He.
  assert (Hw : wf_words (entity_vocab s) (replicate (length (entity_vocab s)) 0)
                 (entity_ids s)).
  { split; [by rewrite length_replicate | exact H]. }
  destruct (wf_words_snoc _ _ _ e 0 Hw He) as [_ H']. exact H'.
Qed.

Section EntityVocabulary.
Variable s0 : FactKB.
Local Abbreviation V :=
  (λ s : FactKB, entities_wf s ∧ entity_vocab s0 `prefix_of` entity_vocab s).

Lemma index_fact_entities fact_id entities entity_spans dataset :
  triple V (index_fact fact_id entities entity_spans dataset) (λ _, V) V.
Proof.
  unfold index_fact. apply triple_get_bind. intros s1 H1.
  eapply (triple_bind _ (λ _, V)).
  { destruct (facts s1 !! dataset).
    - apply triple_ret. by intros s ->.
    - intros s ->. simpl. exact H1. }
  intros _. apply triple_for_each_inv. intros [e span] _. simpl.
  apply triple_get_bind. intros s2 H2.
  eapply (triple_bind _ (λ _, V)).
  { destruct (entity_ids s2 !! e) eqn:He.
    - apply triple_ret. by intros s ->.
    - eapply (triple_bind _ (λ _, V)).
      + apply triple_modify. intros s ->. destruct H2 as [Hwf Hp].
        split; [by apply entities_wf_snoc |]. simpl.
        etrans; [exact Hp | by apply prefix_app_r].
      + intros _. apply triple_for_each_inv. intros ds _.
        eapply (triple_bind _ (λ _, V)).
        * apply triple_append_in; [done |]. intros s l Hs _. exact Hs.
        * intros _. apply triple_append_in; [done |]. intros s l Hs _. exact Hs. }
  intros _. apply triple_get_bind. intros s3 H3.
  eapply (triple_bind _ (λ _, V)).
  { apply triple_lift; by intros; subst. }
  intros id.
  eapply (triple_bind _ (λ _, V)).
  { apply triple_append_at; [done |]. intros s l l' Hs _ _. exact Hs. }
  intros _.
  eapply (triple_bind _ (λ _, V)).
  { apply triple_append_at; [done |]. intros s l l' Hs _ _. exact Hs. }
  intros _. apply triple_append_in; [done |]. intros s l Hs _. exact Hs.
Qed.

Lemma fact_add_entities fact entity_spans entities dataset :
  triple V (fact_add fact entity_spans entities dataset) (λ _, V) V.
Proof.
  unfold fact_add.
  eapply (triple_bind _ (λ _, V)); [by apply triple_assert |].
  intros _.
  eapply (triple_bind _ (λ _, V)).
  { intros s Hs. unfold on_kb. by destruct (add _ _ _ _ (kb s)) as [[e | x] k]. }
  intros fact_id.
  eapply (triple_bind _ (λ _, V)); [apply index_fact_entities |].
  intros _. by apply triple_ret.
Qed.

End EntityVocabulary.

Lemma fact_add_entity_vocab fact entity_spans entities dataset s :
  entities_wf s →
  let s' := snd (fact_add fact entity_spans entities dataset s) in
  entities_wf s' ∧ entity_vocab s `prefix_of` entity_vocab s'.
Proof.
  intros Hwf s'.
  pose proof (triple_run _ _ _ _ s
                (fact_add_entities s fact entity_spans entities dataset)
                (conj Hwf (reflexivity _))) as H.
  unfold s'. by destruct (fst (fact_add fact entity_spans entities dataset s)).
Qed.

Lemma fkb_reachable_entities_wf s : fkb_reachable s → entities_wf s.
Proof.
  induction 1 as [k | s fact entity_spans entities dataset _ IH].
  - intros e k'. simpl. rewrite lookup_empty. split; [done |].
    intros [_ H]. by rewrite lookup_nil in H.
  - by apply fact_add_entity_vocab.
Qed.

(** X14. In every store reached from [FactKB(kb)] by calls of [add],
    the entity vocabulary has no name twice, and [id] and
    [entity_vocab] are inverse of each other: [id(entity_vocab[k]) = k],
    [entity_vocab[id(e)] = e] for every name of the vocabulary, and
    [id(e, fallback) = fallback] for every other string. *)
Theorem entity_id_inverse (s : FactKB) (fallback : Z) :
  fkb_reachable s →
  NoDup (entity_vocab s) ∧
  (∀ (k : nat) e, entity_vocab s !! k = Some e →
     entity_id s e fallback = Z.of_nat k) ∧
  (∀ e, e ∈ entity_vocab s →
     getitem (entity_vocab s) (entity_id s e fallback) = Some e) ∧
  (∀ e, e ∉ entity_vocab s → entity_id s e fallback = fallback).
Proof.
  intros Hreach. pose proof (fkb_reachable_entities_wf s Hreach) as Hb.
  assert (Hw : wf_words (entity_vocab s) (replicate (length (entity_vocab s)) 0)
                 (entity_ids s)).
  { split; [by rewrite length_replicate | exact Hb]. }
  split; [by eapply wf_words_NoDup |]. unfold entity_id. split; [| split].
  - intros k e Hk.
    assert (entity_ids s !! e = Some (Z.of_nat k)) as ->; [| done].
    apply Hb. split; [lia |]. by rewrite Nat2Z.id.
  - intros e Hin. apply list_elem_of_lookup in Hin as [k Hk].
    assert (entity_ids s !! e = Some (Z.of_nat k)) as ->.
    { apply Hb. split; [lia |]. by rewrite Nat2Z.id. }
    simpl. by rewrite getitem_of_nat.
  - intros e Hnin. destruct (entity_ids s !! e) as [k |] eqn:Hk; [| done].
    destruct Hnin. apply Hb in Hk as [_ Hk]. by eapply list_elem_of_lookup_2.
Qed.

Lemma entity_id_inverse_witness :
  entity_vocab two_partitions = ["Paris"; "France"; "Rome"; "Italy"] ∧
  entity_id two_partitions "Rome" (-1) = 2 ∧
  entity_id two_partitions "Berlin" (-1) = -1 ∧
  NoDup (entity_vocab two_partitions).
Proof.
  destruct (entity_id_inverse two_partitions (-1) two_partitions_reachable)
    as (Hnd & Hk & _ & Hn).
  split; [vm_compute; reflexivity |].
  split; [apply (Hk 2%nat); vm_compute; reflexivity |].
  split; [| exact Hnd].
  apply Hn. vm_compute. intros H. repeat (apply elem_of_cons in H as [H | H]; [done |]).
  by apply elem_of_nil in H.
Defined.

(** X15. On a store reached from [FactKB(kb)] by calls of [add], a
    further [add], whether it returns or raises, only appends to the
    entity vocabulary: the old vocabulary is a prefix of the new one,
    and every entity keeps its id. *)
Theorem fact_add_keeps_entity_ids (s : FactKB) (fact : list string)
    (entity_spans : list (Z * Z)) (entities : option (list string))
    (dataset : string) :
  fkb_reachable s →
  let s' := snd (fact_add fact entity_spans entities dataset s) in
  entity_vocab s `prefix_of` entity_vocab s' ∧
  ∀ e k, entity_ids s !! e = Some k → ∀ fallback, entity_id s' e fallback = k.
Proof.
  intros Hreach s'. pose proof (fkb_reachable_entities_wf s Hreach) as Hwf.
  destruct (fact_add_entity_vocab fact entity_spans entities dataset s Hwf)
    as [Hwf' Hp].
  split; [exact Hp |]. intros e k Hk fallback. unfold entity_id, s'.
  apply Hwf in Hk as [Hk0 Hk].
  assert (entity_ids (snd (fact_add fact entity_spans entities dataset s)) !! e
          = Some k) as ->; [| done].
  apply Hwf'. split; [done |]. by eapply prefix_lookup_Some.
Qed.

Lemma fact_add_keeps_entity_ids_witness :
  let s' := snd (fact_add ["Rome"; "and"; "Oslo"] [(0, 1); (2, 3)] None "train"
                   two_partitions) in
  entity_vocab two_partitions `prefix_of` entity_vocab s' ∧
  entity_vocab s' = ["Paris"; "France"; "Rome"; "Italy"; "Oslo"] ∧
  entity_id two_partitions "Rome" (-1) = 2 ∧
  entity_id s' "Rome" (-1) = 2.
Proof.
  intros s'.
  destruct (fact_add_keeps_entity_ids two_partitions ["Rome"; "and"; "Oslo"]
              [(0, 1); (2, 3)] None "train" two_partitions_reachable)
    as [Hp Hid].
  split; [exact Hp |].
  split; [vm_compute; reflexivity |].
  split; [vm_compute; reflexivity |].
  apply (Hid "Rome" 2). vm_compute. reflexivity.
Defined.

(** ** What [FactKB.add] records in the entity index *)

Lemma slot_has_backfill {A} (tbl : gmap string (list (list A))) ds ds' l id x :
  tbl !! ds' = Some l →
  slot_has tbl ds id x → slot_has (<[ds' := l ++ [[]]]> tbl) ds id x.
Proof.
  intros Hl (l0 & m & Hl0 & Hm & Hx).
  destruct (decide (ds' = ds)) as [-> | Hne].
  - rewrite Hl in Hl0. injection Hl0 as <-. exists (l ++ [[]]), m.
    rewrite lookup_insert_eq. split; [done |]. split; [| done].
    by apply lookup_app_l_Some.
  - exists l0, m. by rewrite lookup_insert_ne.
Qed.

Lemma slot_has_append {A} (tbl : gmap string (list (list A))) ds ds' l i m' y id x :
  tbl !! ds' = Some l → l !! i = Some m' →
  slot_has tbl ds id x →
  slot_has (<[ds' := <[i := m' ++ [y]]> l]> tbl) ds id x.
Proof.
  intros Hl Hi (l0 & m & Hl0 & Hm & Hx).
  destruct (decide (ds' = ds)) as [-> | Hne]; [| exists l0, m; by rewrite lookup_insert_ne].
  rewrite Hl in Hl0. injection Hl0 as <-.
  destruct (decide (i = Z.to_nat id)) as [-> | Hni].
  - exists (<[Z.to_nat id := m' ++ [y]]> l), (m' ++ [y]).
    rewrite lookup_insert_eq. split; [done |]. split.
    + apply list_lookup_insert_eq. by eapply lookup_lt_Some.
    + rewrite Hi in Hm. injection Hm as <-. apply elem_of_app. by left.
  - exists (<[i := m' ++ [y]]> l), m.
    rewrite lookup_insert_eq. split; [done |]. split; [| done].
    by rewrite list_lookup_insert_ne.
Qed.

Lemma slot_has_new {A} (tbl : gmap string (list (list A))) ds l id m' y :
  0 ≤ id → l !! Z.to_nat id = Some m' →
  slot_has (<[ds := <[Z.to_nat id := m' ++ [y]]> l]> tbl) ds id y.
Proof.
  intros Hid Hi. exists (<[Z.to_nat id := m' ++ [y]]> l), (m' ++ [y]).
  rewrite lookup_insert_eq. split; [done |]. split.
  - apply list_lookup_insert_eq. by eapply lookup_lt_Some.
  - apply elem_of_app. right. by left.
Qed.

Section FactAppendsExact.
Context {A : Type}.
Variables (P E : FactKB → Prop) (Q : unit → FactKB → Prop).
Variables (dataset : string) (x : A).

(** [d[dataset][id].append(x)] with an id that is not negative. *)
Lemma triple_append_at_nonneg (rd : FactKB → gmap string (list (list A))) wr id :
  0 ≤ id →
  (∀ s, P s → E s) →
  (∀ s l m, P s → rd s !! dataset = Some l → l !! Z.to_nat id = Some m →
     Q tt (wr (<[dataset := <[Z.to_nat id := m ++ [x]]> l]>) s)) →
  triple P (append_at rd wr dataset id x) Q E.
Proof.
  intros Hid HE HQ s HP. unfold append_at, bind, get_state.
  destruct (rd s !! dataset) as [l |] eqn:Hl; simpl; [| by apply HE].
  destruct (getitem l id) as [m |] eqn:Hm; simpl; [| by apply HE].
  rewrite getitem_nonneg in Hm by done.
  rewrite setitem_nonneg.
  - simpl. by eapply HQ.
  - apply lookup_lt_Some in Hm. unfold len. lia.
Qed.

End FactAppendsExact.

Section Indexing.
Variables (dataset : string) (fact_id : Z).
Local Abbreviation anything := (λ _ : FactKB, True).

(** The entities in [done] are indexed, and no id is negative. *)
Local Abbreviation I :=
  (λ (done : list (string * (Z * Z))) (s : FactKB),
     ids_nonneg s ∧
     ∀ e sp, (e, sp) ∈ done → indexed dataset fact_id e sp s).

Lemma I_backfill_ctxt done s ds l :
  entity_ctxt s !! ds = Some l → I done s →
  I done (set_entity_ctxt (<[ds := l ++ [[]]]>) s).
Proof.
  intros Hl [Hn Hd]. split; [exact Hn |]. intros e sp Hin.
  destruct (Hd e sp Hin) as (id & Hid & H0 & Hc & Hs).
  exists id. split; [done |]. split; [done |]. split; [| done].
  simpl. by apply slot_has_backfill.
Qed.

Lemma I_backfill_span done s ds l :
  entity_ctxt_span s !! ds = Some l → I done s →
  I done (set_entity_ctxt_span (<[ds := l ++ [[]]]>) s).
Proof.
  intros Hl [Hn Hd]. split; [exact Hn |]. intros e sp Hin.
  destruct (Hd e sp Hin) as (id & Hid & H0 & Hc & Hs).
  exists id. split; [done |]. split; [done |]. split; [done |].
  simpl. by apply slot_has_backfill.
Qed.

Lemma I_new_entity done s e :
  entity_ids s !! e = None → I done s →
  I done (set_entities (entity_vocab s ++ [e])
            (<[e := len (entity_vocab s)]> (entity_ids s)) s).
Proof.
  intros He [Hn Hd]. split.
  - intros e' id. simpl. destruct (decide (e = e')) as [<- | Hne].
    + rewrite lookup_insert_eq. intros [= <-]. unfold len. lia.
    + rewrite lookup_insert_ne by done. apply Hn.
  - intros e' sp Hin. destruct (Hd e' sp Hin) as (id & Hid & H0 & Hc & Hs).
    exists id. split; [| done]. simpl.
    rewrite lookup_insert_ne; [done |]. intros <-. congruence.
Qed.

Lemma index_fact_indexes entities entity_spans :
  triple ids_nonneg (index_fact fact_id entities entity_spans dataset)
    (λ _ s, ∀ e sp, (e, sp) ∈ zip entities entity_spans →
                    indexed dataset fact_id e sp s)
    anything.
Proof.
  unfold index_fact. apply triple_get_bind. intros s1 H1.
  eapply (triple_bind _ (λ _, I [])).
  { assert (Hnil : ∀ s, ids_nonneg s → I [] s).
    { intros s Hs. split; [done |]. intros e sp Hin. by apply elem_of_nil in Hin. }
    destruct (facts s1 !! dataset).
    - apply triple_ret. intros s ->. by apply Hnil.
    - intros s ->. simpl. apply Hnil. exact H1. }
  intros _.
  eapply triple_conseq.
  - apply (triple_for_each I anything).
    intros done [e span] rest _. simpl.
    apply triple_get_bind. intros s2 H2.
    eapply (triple_bind _ (λ _, I done)).
    { destruct (entity_ids s2 !! e) eqn:He.
      - apply triple_ret. by intros s ->.
      - eapply (triple_bind _ (λ _, I done)).
        + apply triple_modify. intros s ->. by apply I_new_entity.
        + intros _.
          eapply triple_conseq;
            [apply (triple_for_each_inv (I done)) | done | done | done].
          intros ds _.
          eapply (triple_bind _ (λ _, I done)).
          * apply triple_append_in; [done |]. intros s l Hs Hl.
            by apply I_backfill_ctxt.
          * intros _. apply triple_append_in; [done |]. intros s l Hs Hl.
            by apply I_backfill_span. }
    intros _. apply triple_get_bind. intros s3 H3.
    eapply (triple_bind _ (λ id s, I done s ∧ entity_ids s !! e = Some id ∧ 0 ≤ id)).
    { apply triple_lift; [| done]. intros id Hid s ->.
      split; [done |]. split; [done |]. by apply (proj1 H3 e). }
    intros id.
    destruct (decide (0 ≤ id)) as [Hid | Hneg];
      [| intros s (_ & _ & H); lia].
    eapply (triple_bind _ (λ _ s, I done s ∧ entity_ids s !! e = Some id ∧
                                  slot_has (entity_ctxt s) dataset id fact_id)).
    { apply triple_append_at_nonneg; [done | done |].
      intros s l m ([Hn Hd] & He & _) Hl Hm. split; [split |].
      - exact Hn.
      - intros e' sp Hin. destruct (Hd e' sp Hin) as (id' & Hid' & H0 & Hc & Hs).
        exists id'. split; [done |]. split; [done |]. split; [| done].
        simpl. by eapply slot_has_append.
      - split; [done |]. simpl. by apply slot_has_new. }
    intros _.
    eapply (triple_bind _ (λ _, I (done ++ [(e, span)]))).
    { apply triple_append_at_nonneg; [done | done |].
      intros s l m ([Hn Hd] & He & Hc0) Hl Hm. split; [exact Hn |].
      intros e' sp Hin. apply elem_of_app in Hin as [Hin | Hin].
      - destruct (Hd e' sp Hin) as (id' & Hid' & H0 & Hc & Hs).
        exists id'. split; [done |]. split; [done |]. split; [done |].
        simpl. by eapply slot_has_append.
      - apply list_elem_of_singleton in Hin. injection Hin as -> ->.
        exists id. split; [done |]. split; [done |]. split; [done |].
        simpl. by apply slot_has_new. }
    intros _. apply triple_append_in; [done |]. intros s l Hs _. exact Hs.
  - done.
  - intros u s [_ H]. exact H.
  - done.
Qed.

End Indexing.

Lemma indexed_reads ds fact_id e sp s :
  indexed ds fact_id e sp s →
  ∃ id fs sps,
    entity_id s e (-1) = id ∧ 0 ≤ id ∧
    facts_about s (inl e) ds = inr fs ∧ fact_id ∈ fs ∧
    fact_entities s id ds = inr (fs, sps) ∧ sp ∈ sps.
Proof.
  intros (id & Hid & H0 & (l & fs & Hl & Hfs & Hin) & (l' & sps & Hl' & Hsps & Hin')).
  exists id, fs, sps. unfold entity_id, facts_about, fact_entities.
  rewrite Hid, Hl, Hl', !getitem_nonneg by done. rewrite Hfs, Hsps. done.
Qed.

Lemma fact_add_indexed fact entity_spans entities dataset :
  triple ids_nonneg (fact_add fact entity_spans entities dataset)
    (λ fact_id s,
       ∀ e sp, (e, sp) ∈ zip (entity_names fact entity_spans entities) entity_spans →
               indexed dataset fact_id e sp s)
    (λ _, True).
Proof.
  unfold fact_add.
  eapply (triple_bind _ (λ _, ids_nonneg)); [by apply triple_assert |].
  intros _.
  eapply (triple_bind _ (λ _, ids_nonneg)).
  { intros s Hs. unfold on_kb. by destruct (add _ _ _ _ (kb s)) as [[e | x] k]. }
  intros fact_id.
  eapply triple_bind; [apply index_fact_indexes |].
  intros u. apply triple_ret. intros s Hs. exact Hs.
Qed.

(** X16. A call of [FactKB.add] that returns, on a store reached from
    [FactKB(kb)] by calls of [add], has indexed the fact under every
    entity it names: for every pair of an entity name and its span,
    the name has an id that is not negative, [facts_about(name)]
    contains the returned fact id, and the lists that [fact_entities]
    returns for that id are this fact list and a span list that
    contains the span. *)
Theorem fact_add_indexes (s s' : FactKB) (fact : list string)
    (entity_spans : list (Z * Z)) (entities : option (list string))
    (dataset : string) (fact_id : Z) :
  fkb_reachable s →
  fact_add fact entity_spans entities dataset s = (inr fact_id, s') →
  ∀ e sp, (e, sp) ∈ zip (entity_names fact entity_spans entities) entity_spans →
    ∃ id fs sps,
      entity_id s' e (-1) = id ∧ 0 ≤ id ∧
      facts_about s' (inl e) dataset = inr fs ∧ fact_id ∈ fs ∧
      fact_entities s' id dataset = inr (fs, sps) ∧ sp ∈ sps.
Proof.
  intros Hreach Hadd e sp Hin.
  assert (Hn : ids_nonneg s).
  { intros e' id Hid.
    destruct (fkb_reachable_inv s Hreach) as (_ & Hr & _).
    apply Hr in Hid. lia. }
  pose proof (fact_add_indexed fact entity_spans entities dataset s Hn) as H.
  rewrite Hadd in H. by apply indexed_reads, H.
Qed.

Lemma fact_add_indexes_witness :
  ∃ s', fact_add ["Rome"; "and"; "Paris"] [(0, 1); (2, 3)] None "train"
          two_partitions = (inr 1, s') ∧
        entity_names ["Rome"; "and"; "Paris"] [(0, 1); (2, 3)] None
          = ["Rome"; "Paris"] ∧
        facts_about s' (inl "Paris") "train" = inr [0; 1] ∧
        ∃ id fs sps,
          entity_id s' "Paris" (-1) = id ∧ 0 ≤ id ∧
          facts_about s' (inl "Paris") "train" = inr fs ∧ 1 ∈ fs ∧
          fact_entities s' id "train" = inr (fs, sps) ∧ (2, 3) ∈ sps.
Proof.
  destruct (fact_add ["Rome"; "and"; "Paris"] [(0, 1); (2, 3)] None "train"
              two_partitions) as [r s'] eqn:Hadd.
  assert (Hr : r = inr 1).
  { apply (f_equal fst) in Hadd. simpl in Hadd. rewrite <- Hadd.
    vm_compute. reflexivity. }
  subst r. exists s'. split; [reflexivity |].
  split; [vm_compute; reflexivity |].
  split.
  { apply (f_equal snd) in Hadd. simpl in Hadd. rewrite <- Hadd.
    vm_compute. reflexivity. }
  apply (fact_add_indexes two_partitions s' ["Rome"; "and"; "Paris"]
           [(0, 1); (2, 3)] None "train" 1 two_partitions_reachable Hadd).
  vm_compute. apply list_elem_of_further, list_elem_of_here.
Defined.

(** ** [FactKB.add] and the store of facts *)

(** The index is kept beside the [KB]: indexing a fact leaves the [KB]
    as it is. *)
Lemma index_fact_kb fact_id entities entity_spans dataset k :
  triple (λ s, kb s = k) (index_fact fact_id entities entity_spans dataset)
    (λ _ s, kb s = k) (λ s, kb s = k).
Proof.
  unfold index_fact. apply triple_get_bind. intros s1 H1.
  eapply (triple_bind _ (λ _ s, kb s = k)).
  { destruct (facts s1 !! dataset).
    - apply triple_ret. by intros s ->.
    - intros s ->. simpl. exact H1. }
  intros _. apply triple_for_each_inv. intros [e span] _. simpl.
  apply triple_get_bind. intros s2 H2.
  eapply (triple_bind _ (λ _ s, kb s = k)).
  { destruct (entity_ids s2 !! e) eqn:He.
    - apply triple_ret. by intros s ->.
    - eapply (triple_bind _ (λ _ s, kb s = k)).
      + apply triple_modify. by intros s ->.
      + intros _. apply triple_for_each_inv. intros ds _.
        eapply (triple_bind _ (λ _ s, kb s = k)).
        * apply triple_append_in; [done |]. intros s l Hs _. exact Hs.
        * intros _. apply triple_append_in; [done |]. intros s l Hs _. exact Hs. }
  intros _. apply triple_get_bind. intros s3 H3.
  eapply (triple_bind _ (λ _ s, kb s = k)).
  { apply triple_lift; by intros; subst. }
  intros id.
  eapply (triple_bind _ (λ _ s, kb s = k)).
  { apply triple_append_at; [done |]. intros s l l' Hs _ _. exact Hs. }
  intros _.
  eapply (triple_bind _ (λ _ s, kb s = k)).
  { apply triple_append_at; [done |]. intros s l l' Hs _ _. exact Hs. }
  intros _. apply triple_append_in; [done |]. intros s l Hs _. exact Hs.
Qed.

(** A call of [FactKB.add] that returns has made one call of [KB.add],
    with the fact as context, the entity spans as spans and the entity
    names as answers; it returns what that call returned. *)
Lemma fact_add_on_kb fact entity_spans entities dataset s fact_id s' :
  fact_add fact entity_spans entities dataset s = (inr fact_id, s') →
  add fact entity_spans (Some (entity_names fact entity_spans entities)) dataset
      (kb s)
  = (inr fact_id, kb s').
Proof.
  unfold fact_add, bind, entity_names.
  destruct (assert _ s) as [[e | u] s1] eqn:Hassert; [done |].
  assert (s1 = s) as ->.
  { unfold assert in Hassert. destruct entities as [es |]; simpl in Hassert.
    - destruct (len es =? len entity_spans); simpl in Hassert;
        [by injection Hassert as _ <- | discriminate].
    - by injection Hassert as _ <-. }
  unfold on_kb.
  destruct (add fact entity_spans _ dataset (kb s)) as [[e | n] k] eqn:Hadd; [done |].
  pose proof (index_fact_kb n
                (match entities with
                 | Some es => es
                 | None => map (λ span, join "_" (slice fact span.1 span.2))
                             entity_spans
                 end) entity_spans dataset k (set_kb k s) eq_refl) as Hkb.
  destruct (index_fact _ _ _ _ (set_kb k s)) as [[e | u'] s2]; [done |].
  simpl. intros [= <- <-]. by rewrite Hkb.
Qed.

(** X17. A call of [FactKB.add] that returns, on a [FactKB] whose [KB]
    was built by [add] and [order_vocab_by_freq], returns the number
    of contexts the partition of the [KB] had, and [fact_from_id] at
    the returned id, read through the vocabulary of the [KB], gives
    the tokens of the fact. *)
Theorem fact_add_then_fact_from_id (argsort : list Z → list nat)
    (s s' : FactKB) (fact : list string) (entity_spans : list (Z * Z))
    (entities : option (list string)) (dataset : string) (fact_id : Z) :
  argsort_contract argsort →
  reachable argsort (kb s) →
  fact_add fact entity_spans entities dataset s = (inr fact_id, s') →
  fact_id = num_contexts (kb s) dataset ∧
  ∃ ks, fact_from_id s' fact_id dataset = inr ks ∧ decode (kb s') ks = Some fact.
Proof.
  intros Hok Hreach Hadd. apply fact_add_on_kb in Hadd.
  pose proof (add_reads_back fact entity_spans
                (Some (entity_names fact entity_spans entities)) dataset (kb s)
                (reachable_consistent argsort Hok (kb s) Hreach) (kb s) eq_refl) as H.
  rewrite Hadd in H. destruct H as (Hn & _ & Hctx). by split.
Qed.

Lemma fact_add_then_fact_from_id_witness :
  ∃ s', fact_add ["Rome"; "and"; "Paris"] [(0, 1); (2, 3)] None "train"
          two_partitions = (inr 1, s') ∧
        num_contexts (kb two_partitions) "train" = 1 ∧
        ∃ ks, fact_from_id s' 1 "train" = inr ks ∧
              decode (kb s') ks = Some ["Rome"; "and"; "Paris"].
Proof.
  destruct (fact_add ["Rome"; "and"; "Paris"] [(0, 1); (2, 3)] None "train"
              two_partitions) as [r s'] eqn:Hadd.
  assert (Hr : r = inr 1).
  { apply (f_equal fst) in Hadd. simpl in Hadd. rewrite <- Hadd.
    vm_compute. reflexivity. }
  subst r. exists s'. split; [reflexivity |].
  assert (Hreach : reachable stable_argsort (kb two_partitions)).
  { assert (Hkb : kb two_partitions
                  = snd (add ["Rome"; "in"; "Italy"] [(0, 1); (2, 3)]
                           (Some ["Rome"; "Italy"]) "valid"
                           (snd (add ["Paris"; "in"; "France"] [(0, 1); (2, 3)]
                                   (Some ["Paris"; "France"]) "train" KB_init))))
      by (vm_compute; reflexivity).
    rewrite Hkb. apply reach_add, reach_add, reach_init. }
  destruct (fact_add_then_fact_from_id stable_argsort two_partitions s'
              ["Rome"; "and"; "Paris"] [(0, 1); (2, 3)] None "train" 1
              stable_argsort_contract Hreach Hadd) as [Hn Hctx].
  split; [by rewrite <- Hn | exact Hctx].
Defined.

(** X18. [FactKB.add] with entity names whose number differs from the
    number of entity spans raises [AssertionError] and leaves the
    whole store, the [KB] included, as it was. *)
Theorem fact_add_entities_mismatch_rejected (s : FactKB) (fact : list string)
    (entity_spans : list (Z * Z)) (entities : list string) (dataset : string) :
  length entities ≠ length entity_spans →
  fact_add fact entity_spans (Some entities) dataset s = (inl AssertionError, s).
Proof.
  intros Hne. unfold fact_add, bind.
  destruct (Z.eqb_spec (len entities) (len entity_spans)) as [Heq | _]; [| done].
  unfold len in Heq. lia.
Qed.

Lemma fact_add_entities_mismatch_rejected_witness :
  fact_add ["Rome"; "in"; "Italy"] [(0, 1); (2, 3)] (Some ["Rome"]) "train"
    two_partitions
  = (inl AssertionError, two_partitions).
Proof.
  apply fact_add_entities_mismatch_rejected. simpl. lia.
Defined.

(** ** [values] and [load_values] *)

(** X19. [load_values] puts every item of the list that [values]
    returns back into the field it came from: loading the values of a
    store gives a store with the same fifteen fields, and the values
    of a store loaded from a list are that list. *)
Theorem load_values_values (s : KB) (v : KB_values) :
  load_values (values s) = s ∧ values (load_values v) = v.
Proof.
  split.
  - by destruct s.
  - by destruct v as [[[[[[[[[[[[[[v1 v2] v3] v4] v5] v6] v7] v8] v9] v10] v11]
                         v12] v13] v14] v15].
Qed.

(** X20. [FactKB.load_values] puts the first five items of the list
    that [FactKB.values] returns back into the fields of the entity
    index, and hands the rest to [KB.load_values]: loading the values
    of a store gives the same store, and the values of a store loaded
    from a list are that list. *)
Theorem fact_load_values_values (s : FactKB) (v : FactKB_values) :
  fact_load_values (fact_values s) = s ∧ fact_values (fact_load_values v) = v.
Proof.
  split.
  - destruct s as [k v1 v2 v3 v4 v5]. unfold fact_values, fact_load_values. simpl.
    by destruct k.
  - destruct v as [[[[[v1 v2] v3] v4] v5] kbv]. unfold fact_load_values, fact_values.
    simpl. f_equal.
    by destruct kbv as [[[[[[[[[[[[[[w1 w2] w3] w4] w5] w6] w7] w8] w9] w10] w11]
                           w12] w13] w14] w15].
Qed.


(** ** Indexing a fact does not raise *)

Section IndexReturns.
Variable dataset : string.
Local Abbreviation never := (λ _ : FactKB, False).

Lemma backfill_returns keys e :
  NoDup keys →
  triple (λ s, backfilling keys [] [] s ∧
               is_Some (facts s !! dataset) ∧ is_Some (entity_ids s !! e))
    (for_each keys (fun ds =>
       append_in entity_ctxt set_entity_ctxt ds [] ;;
       append_in entity_ctxt_span set_entity_ctxt_span ds []))
    (λ _ s, fkb_inv s ∧ is_Some (facts s !! dataset) ∧ is_Some (entity_ids s !! e))
    never.
Proof.
  intros Hnd. eapply triple_conseq.
  - apply (triple_for_each
             (λ done s, backfilling keys done done s ∧
                        is_Some (facts s !! dataset) ∧ is_Some (entity_ids s !! e))
             never).
    intros done ds rest Hkeys.
    assert (Hin : ds ∈ keys).
    { rewrite Hkeys. apply elem_of_app. right. by left. }
    assert (Hnot : ds ∉ done).
    { rewrite Hkeys in Hnd. apply NoDup_app in Hnd as (_ & Hnd & _).
      intros Hd. apply (Hnd ds Hd). by left. }
    eapply (triple_bind _ (λ _ s, backfilling keys (done ++ [ds]) done s ∧
              is_Some (facts s !! dataset) ∧ is_Some (entity_ids s !! e))).
    + apply triple_append_in.
      * intros s [(_ & _ & _ & _ & Hk & _) _] Hnone. apply Hk in Hin.
        rewrite Hnone in Hin. by destruct Hin.
      * intros s l [(Hsz & Hr & Hf & Hc & Hk & Hlc & Hls) HR] Hl.
        split; [| exact HR].
        split; [| split; [| split; [| split; [| split; [| split]]]]]; simpl;
          try done.
        -- intros ds'. rewrite (is_Some_insert_existing _ _ _ _ _ Hl). apply Hf.
        -- intros ds'. rewrite (is_Some_insert_existing _ _ _ _ _ Hl). apply Hc.
        -- intros ds'. rewrite (is_Some_insert_existing _ _ _ _ _ Hl). apply Hk.
        -- intros ds' l'. destruct (decide (ds = ds')) as [<- | Hne].
           ++ rewrite lookup_insert_eq. intros [= <-].
              specialize (Hlc ds l Hl).
              destruct (decide (ds ∈ done)); [done |].
              rewrite pending_snoc_eq, length_app. simpl. lia.
           ++ rewrite lookup_insert_ne by done. intros Hl'.
              rewrite pending_snoc_ne by done. by apply Hlc.
    + intros _. apply triple_append_in.
      * intros s [(_ & _ & _ & Hc & Hk & _) _] Hnone. apply Hk, Hc in Hin.
        rewrite Hnone in Hin. by destruct Hin.
      * intros s l [(Hsz & Hr & Hf & Hc & Hk & Hlc & Hls) HR] Hl.
        split; [| exact HR].
        split; [| split; [| split; [| split; [| split; [| split]]]]]; simpl;
          try done.
        -- intros ds'. rewrite (is_Some_insert_existing _ _ _ _ _ Hl). apply Hc.
        -- intros ds' l'. destruct (decide (ds = ds')) as [<- | Hne].
           ++ rewrite lookup_insert_eq. intros [= <-].
              specialize (Hls ds l Hl).
              destruct (decide (ds ∈ done)); [done |].
              rewrite pending_snoc_eq, length_app. simpl. lia.
           ++ rewrite lookup_insert_ne by done. intros Hl'.
              rewrite pending_snoc_ne by done. by apply Hls.
  - done.
  - intros u s [H HR]. split; [by apply (backfilling_end keys) | exact HR].
  - done.
Qed.

(** [d[dataset][id].append(x)] when the slot exists. *)
Lemma triple_append_at_returns {A} (P : FactKB → Prop) (Q : unit → FactKB → Prop)
    (rd : FactKB → gmap string (list (list A))) wr id (x : A) :
  (∀ s, P s → ∃ l, rd s !! dataset = Some l ∧ 0 ≤ id < len l) →
  (∀ s l l', P s → rd s !! dataset = Some l → length l' = length l →
     Q tt (wr (<[dataset := l']>) s)) →
  triple P (append_at rd wr dataset id x) Q never.
Proof.
  intros Hin HQ s HP. unfold append_at, bind, get_state.
  destruct (Hin s HP) as (l & Hl & Hid). rewrite Hl. simpl.
  destruct (getitem_in_range l id) as [m Hm]; [lia |]. rewrite Hm. simpl.
  destruct (getitem_setitem l id (m ++ [x])) as [l' Hl']; [by rewrite Hm |].
  rewrite Hl'. simpl. eapply HQ; [done | done |]. by eapply setitem_length.
Qed.

(** On an aligned index the body of [add] after the call of
    [self.__kb.add] returns. *)
Lemma index_fact_returns fact_id entities entity_spans :
  triple fkb_inv (index_fact fact_id entities entity_spans dataset)
    (λ _, fkb_inv) never.
Proof.
  set (J := λ s : FactKB, fkb_inv s ∧ is_Some (facts s !! dataset)).
  unfold index_fact. apply triple_get_bind. intros s0 H0.
  eapply (triple_bind _ (λ _, J)).
  { destruct (facts s0 !! dataset) eqn:Hf.
    - apply triple_ret. intros s ->. split; [done |]. by rewrite Hf.
    - intros s ->. simpl. split; [by apply fkb_inv_new_partition |].
      simpl. rewrite lookup_insert_eq. eauto. }
  intros _.
  eapply triple_conseq;
    [apply (triple_for_each (λ _, J) never) | done | by intros u s [H _] | done].
  intros _ [e span] _ _. simpl.
  apply triple_get_bind. intros s1 [H1 H1f].
  eapply (triple_bind _ (λ _ s, fkb_inv s ∧ is_Some (facts s !! dataset) ∧
                                is_Some (entity_ids s !! e))).
  { destruct (entity_ids s1 !! e) eqn:He.
    - apply triple_ret. intros s ->. split; [done |]. split; [done |].
      by rewrite He.
    - eapply (triple_bind _ (λ _ s, backfilling (datasets_of s1) [] [] s ∧
                is_Some (facts s !! dataset) ∧ is_Some (entity_ids s !! e))).
      + apply triple_modify. intros s ->.
        split; [by apply backfilling_start |]. split; [done |].
        simpl. rewrite lookup_insert_eq. eauto.
      + intros _. apply backfill_returns. apply NoDup_fst_map_to_list. }
  intros _. apply triple_get_bind. intros s2 (H2 & H2f & H2e).
  eapply (triple_bind _ (λ id s, s = s2 ∧ entity_ids s2 !! e = Some id)).
  { apply triple_lift.
    - intros id Hid s ->. by split.
    - intros Hnone s ->. rewrite Hnone in H2e. by destruct H2e. }
  intros id. apply triple_at. intros s3 [-> Hid].
  assert (Hrange : 0 ≤ id < len (entity_vocab s2)).
  { destruct H2 as (_ & Hr & _). by eapply Hr. }
  eapply (triple_bind _ (λ _ s, J s ∧ 0 ≤ id < len (entity_vocab s))).
  { apply triple_append_at_returns.
    - intros s ->. destruct H2 as (_ & _ & Hf & _ & Hal).
      destruct (proj1 (Hf dataset) H2f) as [l Hl]. exists l. split; [done |].
      destruct (Hal dataset) as [Hlen _]. unfold len in *.
      rewrite (Hlen l Hl). lia.
    - intros s l l' -> Hl Hlen. split; [| done].
      split; [by eapply fkb_inv_insert_ctxt | done]. }
  intros _.
  eapply (triple_bind _ (λ _, J)).
  { apply triple_at. intros s4 [[H4 H4f] Hrange4]. apply triple_append_at_returns.
    - intros s ->. destruct H4 as (_ & Hr4 & Hf & Hc & Hal).
      destruct (proj1 (Hc dataset) (proj1 (Hf dataset) H4f)) as [l Hl].
      exists l. split; [done |].
      destruct (Hal dataset) as [_ Hlen]. unfold len in *.
      rewrite (Hlen l Hl). lia.
    - intros s l l' -> Hl Hlen. split; [by eapply fkb_inv_insert_span |].
      done. }
  intros _. apply triple_append_in.
  - intros s [_ [l Hl]] Hnone. congruence.
  - intros s l [Hs _] Hl. split; [by eapply fkb_inv_insert_facts |].
    simpl. rewrite lookup_insert_eq. eauto.
Qed.

End IndexReturns.

(** X21. On a store reached from [FactKB(kb)] by calls of [add],
    [FactKB.add] raises only in its assertion or in its call of
    [KB.add]: when the number of entity names is the number of spans
    and [KB.add] returns for the fact, its spans and the entity
    names, [FactKB.add] returns what [KB.add] returned, with the [KB]
    that [KB.add] left. *)
Theorem fact_add_returns (s : FactKB) (fact : list string)
    (entity_spans : list (Z * Z)) (entities : option (list string))
    (dataset : string) (fact_id : Z) (k' : KB) :
  fkb_reachable s →
  match entities with
  | Some es => length es = length entity_spans
  | None => True
  end →
  add fact entity_spans (Some (entity_names fact entity_spans entities)) dataset
      (kb s) = (inr fact_id, k') →
  ∃ s', fact_add fact entity_spans entities dataset s = (inr fact_id, s') ∧
        kb s' = k'.
Proof.
  intros Hreach Hlen Hadd. unfold entity_names in Hadd.
  unfold fact_add, bind.
  assert (Hassert : assert (match entities with
                            | Some es => len es =? len entity_spans
                            | None => true
                            end) s = (inr tt, s)).
  { destruct entities as [es |]; [| done].
    unfold len. rewrite Hlen. by rewrite Z.eqb_refl. }
  rewrite Hassert. unfold on_kb. rewrite Hadd.
  pose proof (fkb_reachable_inv s Hreach) as Hinv.
  assert (Hinv' : fkb_inv (set_kb k' s)) by exact Hinv.
  pose proof (index_fact_returns dataset fact_id
                (match entities with
                 | Some es => es
                 | None => map (λ span, join "_" (slice fact span.1 span.2))
                             entity_spans
                 end) entity_spans (set_kb k' s) Hinv') as Hidx.
  pose proof (index_fact_kb fact_id
                (match entities with
                 | Some es => es
                 | None => map (λ span, join "_" (slice fact span.1 span.2))
                             entity_spans
                 end) entity_spans dataset k' (set_kb k' s) eq_refl) as Hkb.
  destruct (index_fact _ _ _ _ (set_kb k' s)) as [[e | u] s2]; [done |].
  simpl. by exists s2.
Qed.

Lemma fact_add_returns_witness :
  ∃ s', fact_add ["Rome"; "and"; "Paris"] [(0, 1); (2, 3)] (Some ["Rome"; "Paris"])
          "test" two_partitions = (inr 0, s') ∧
        kb s' = snd (add ["Rome"; "and"; "Paris"] [(0, 1); (2, 3)]
                       (Some ["Rome"; "Paris"]) "test" (kb two_partitions)).
Proof.
  apply (fact_add_returns two_partitions ["Rome"; "and"; "Paris"] [(0, 1); (2, 3)]
           (Some ["Rome"; "Paris"]) "test" 0 _ two_partitions_reachable).
  - reflexivity.
  - vm_compute. reflexivity.
Defined.


(** ** [FactKB.add] only appends to the entity index *)

Lemma slots_grow_refl {A} (l : list (list A)) : slots_grow l l.
Proof. intros i m Hm. by exists m. Qed.

Lemma slots_grow_snoc {A} (l : list (list A)) x : slots_grow l (l ++ [x]).
Proof. intros i m Hm. exists m. split; [by apply lookup_app_l_Some | done]. Qed.

Lemma slots_grow_append {A} (l : list (list A)) j m x :
  l !! j = Some m → slots_grow l (<[j := m ++ [x]]> l).
Proof.
  intros Hj i m0 Hi. destruct (decide (i = j)) as [-> | Hne].
  - exists (m ++ [x]). rewrite Hj in Hi. injection Hi as <-. split.
    + apply list_lookup_insert_eq. by eapply lookup_lt_Some.
    + by apply prefix_app_r.
  - exists m0. by rewrite list_lookup_insert_ne.
Qed.

Lemma table_grows_refl {A} (T : gmap string (list (list A))) : table_grows T T.
Proof. intros p l Hl. exists l. split; [done | apply slots_grow_refl]. Qed.

Lemma table_grows_insert {A} (T0 T : gmap string (list (list A))) q lq lq' :
  table_grows T0 T → T !! q = Some lq → slots_grow lq lq' →
  table_grows T0 (<[q := lq']> T).
Proof.
  intros HT Hq Hg p l Hl. destruct (HT p l Hl) as (l' & Hl' & Hgl).
  destruct (decide (q = p)) as [-> | Hne].
  - exists lq'. rewrite lookup_insert_eq. split; [done |].
    rewrite Hq in Hl'. injection Hl' as <-.
    intros i m Hm. destruct (Hgl i m Hm) as (m1 & Hm1 & Hp1).
    destruct (Hg i m1 Hm1) as (m2 & Hm2 & Hp2).
    exists m2. split; [done | by etrans].
  - exists l'. by rewrite lookup_insert_ne.
Qed.

Lemma table_grows_new {A} (T0 T : gmap string (list (list A))) q lq :
  table_grows T0 T → T !! q = None → table_grows T0 (<[q := lq]> T).
Proof.
  intros HT Hq p l Hl. destruct (HT p l Hl) as (l' & Hl' & Hgl).
  exists l'. split; [| done]. rewrite lookup_insert_ne; [done |].
  intros <-. congruence.
Qed.

Lemma getitem_setitem_slot {A} (l l' : list A) i m x :
  getitem l i = Some m → setitem l i x = Some l' →
  ∃ j, l !! j = Some m ∧ l' = <[j := x]> l.
Proof.
  unfold getitem, setitem. destruct (0 <=? i).
  - intros Hm. destruct (i <? len l); [| done]. intros [= <-]. eauto.
  - destruct (- len l <=? i); [| done]. intros Hm [= <-]. eauto.
Qed.

Section FactAppendsSlot.
Context {A : Type}.
Variables (P E : FactKB → Prop) (Q : unit → FactKB → Prop).
Variables (dataset : string) (x : A).

(** [d[dataset][id].append(x)]: one slot gets [x] behind its
    mentions. *)
Lemma triple_append_at_slot (rd : FactKB → gmap string (list (list A))) wr id :
  (∀ s, P s → E s) →
  (∀ s l j m, P s → rd s !! dataset = Some l → l !! j = Some m →
     Q tt (wr (<[dataset := <[j := m ++ [x]]> l]>) s)) →
  triple P (append_at rd wr dataset id x) Q E.
Proof.
  intros HE HQ s HP. unfold append_at, bind, get_state.
  destruct (rd s !! dataset) as [l |] eqn:Hl; simpl; [| by apply HE].
  destruct (getitem l id) as [m |] eqn:Hm; simpl; [| by apply HE].
  destruct (setitem l id (m ++ [x])) as [l' |] eqn:Hl'; simpl; [| by apply HE].
  destruct (getitem_setitem_slot l l' id m _ Hm Hl') as (j & Hj & ->).
  by eapply HQ.
Qed.

End FactAppendsSlot.

Section IndexGrows.
Variable s0 : FactKB.
Local Abbreviation G := (index_grows s0).

Lemma index_fact_grows fact_id entities entity_spans dataset :
  triple (λ s, fkb_inv s ∧ G s)
    (index_fact fact_id entities entity_spans dataset) (λ _, G) G.
Proof.
  unfold index_fact. apply triple_get_bind. intros s1 [H1 H1g].
  eapply (triple_bind _ (λ _, G)).
  { destruct (facts s1 !! dataset) eqn:Hf.
    - apply triple_ret. by intros s ->.
    - intros s ->. simpl.
      destruct H1 as (_ & _ & Hfc & Hcs & _).
      assert (Hc : entity_ctxt s1 !! dataset = None).
      { destruct (entity_ctxt s1 !! dataset) eqn:Hc; [| done].
        destruct (proj2 (Hfc dataset) (ex_intro _ _ Hc)) as [x Hx]. congruence. }
      assert (Hs : entity_ctxt_span s1 !! dataset = None).
      { destruct (entity_ctxt_span s1 !! dataset) eqn:Hs; [| done].
        destruct (proj2 (Hcs dataset) (ex_intro _ _ Hs)) as [x Hx]. congruence. }
      destruct H1g as (Hi & Hgc & Hgs).
      split; [done |]. split; simpl; by apply table_grows_new. }
  intros _. apply triple_for_each_inv. intros [e span] _. simpl.
  apply triple_get_bind. intros s2 H2.
  eapply (triple_bind _ (λ _, G)).
  { destruct (entity_ids s2 !! e) eqn:He.
    - apply triple_ret. by intros s ->.
    - eapply (triple_bind _ (λ _, G)).
      + apply triple_modify. intros s ->. destruct H2 as (Hi & Hgc & Hgs).
        split; [| done]. simpl. etrans; [exact Hi |]. by apply insert_subseteq.
      + intros _. apply triple_for_each_inv. intros ds _.
        eapply (triple_bind _ (λ _, G)).
        * apply triple_append_in; [done |]. intros s l (Hi & Hgc & Hgs) Hl.
          split; [done |]. split; [| done]. simpl.
          eapply table_grows_insert; [done | done | apply slots_grow_snoc].
        * intros _. apply triple_append_in; [done |].
          intros s l (Hi & Hgc & Hgs) Hl.
          split; [done |]. split; [done |]. simpl.
          eapply table_grows_insert; [done | done | apply slots_grow_snoc]. }
  intros _. apply triple_get_bind. intros s3 H3.
  eapply (triple_bind _ (λ _, G)).
  { apply triple_lift; by intros; subst. }
  intros id.
  eapply (triple_bind _ (λ _, G)).
  { apply triple_append_at_slot; [done |]. intros s l j m (Hi & Hgc & Hgs) Hl Hj.
    split; [done |]. split; [| done]. simpl.
    eapply table_grows_insert; [done | done | by apply slots_grow_append]. }
  intros _.
  eapply (triple_bind _ (λ _, G)).
  { apply triple_append_at_slot; [done |]. intros s l j m (Hi & Hgc & Hgs) Hl Hj.
    split; [done |]. split; [done |]. simpl.
    eapply table_grows_insert; [done | done | by apply slots_grow_append]. }
  intros _. apply triple_append_in; [done |]. intros s l Hs _. exact Hs.
Qed.

Lemma fact_add_grows fact entity_spans entities dataset :
  triple (λ s, fkb_inv s ∧ G s) (fact_add fact entity_spans entities dataset)
    (λ _, G) G.
Proof.
  unfold fact_add.
  eapply (triple_bind _ (λ _ s, fkb_inv s ∧ G s));
    [apply triple_assert; [done | by intros _ s [_ H]] |].
  intros _.
  eapply (triple_bind _ (λ _ s, fkb_inv s ∧ G s)).
  { intros s Hs. unfold on_kb.
    destruct (add _ _ _ _ (kb s)) as [[e | x] k]; [by destruct Hs | exact Hs]. }
  intros fact_id.
  eapply (triple_bind _ (λ _, G)); [apply index_fact_grows |].
  intros _. by apply triple_ret.
Qed.

End IndexGrows.

Lemma fact_add_index_grows s fact entity_spans entities dataset :
  fkb_reachable s →
  index_grows s (snd (fact_add fact entity_spans entities dataset s)).
Proof.
  intros Hreach.
  assert (H0 : index_grows s s).
  { split; [done |]. split; apply table_grows_refl. }
  pose proof (triple_run _ _ _ _ s
                (fact_add_grows s fact entity_spans entities dataset)
                (conj (fkb_reachable_inv s Hreach) H0)) as H.
  by destruct (fst (fact_add fact entity_spans entities dataset s)).
Qed.

(** X22. On a store reached from [FactKB(kb)] by calls of [add], a
    further [add] into any partition, whether it returns or raises,
    keeps what the index holds: for every entity that had an id and
    every partition, the fact list that [facts_about] returned is a
    prefix of the one it returns after the call, and so are, for every
    id that is not negative, the two lists that [fact_entities]
    returned. *)
Theorem fact_add_keeps_facts (s : FactKB) (fact : list string)
    (entity_spans : list (Z * Z)) (entities : option (list string))
    (dataset other : string) :
  fkb_reachable s →
  let s' := snd (fact_add fact entity_spans entities dataset s) in
  (∀ e fs, is_Some (entity_ids s !! e) →
     facts_about s (inl e) other = inr fs →
     ∃ fs', facts_about s' (inl e) other = inr fs' ∧ fs `prefix_of` fs') ∧
  (∀ id fs sps, 0 ≤ id →
     fact_entities s id other = inr (fs, sps) →
     ∃ fs' sps', fact_entities s' id other = inr (fs', sps') ∧
                 fs `prefix_of` fs' ∧ sps `prefix_of` sps').
Proof.
  intros Hreach s'.
  destruct (fact_add_index_grows s fact entity_spans entities dataset Hreach)
    as (Hi & Hgc & Hgs).
  fold s' in Hi, Hgc, Hgs. split.
  - intros e fs [id Hid] Hfs.
    assert (H0 : 0 ≤ id).
    { destruct (fkb_reachable_inv s Hreach) as (_ & Hr & _).
      apply Hr in Hid. lia. }
    unfold facts_about in *. rewrite Hid in Hfs.
    rewrite (lookup_weaken _ _ _ _ Hid Hi).
    destruct (entity_ctxt s !! other) as [l |] eqn:Hl; [| done].
    destruct (Hgc other l Hl) as (l' & Hl' & Hg). rewrite Hl'.
    rewrite getitem_nonneg in * by done.
    destruct (l !! Z.to_nat id) as [m |] eqn:Hm; [| done].
    injection Hfs as <-. destruct (Hg _ _ Hm) as (m' & Hm' & Hp).
    rewrite Hm'. eauto.
  - intros id fs sps H0 Hfs. unfold fact_entities in *.
    destruct (entity_ctxt s !! other) as [l |] eqn:Hl; [| done].
    destruct (Hgc other l Hl) as (l' & Hl' & Hg). rewrite Hl'.
    rewrite getitem_nonneg in * by done.
    destruct (l !! Z.to_nat id) as [m |] eqn:Hm; [| done].
    destruct (Hg _ _ Hm) as (m' & Hm' & Hp). rewrite Hm'.
    destruct (entity_ctxt_span s !! other) as [k |] eqn:Hk; [| done].
    destruct (Hgs other k Hk) as (k' & Hk' & Hg'). rewrite Hk'.
    rewrite getitem_nonneg in * by done.
    destruct (k !! Z.to_nat id) as [n |] eqn:Hn; [| done].
    destruct (Hg' _ _ Hn) as (n' & Hn' & Hp'). rewrite Hn'.
    injection Hfs as <- <-. eauto.
Qed.

Lemma fact_add_keeps_facts_witness :
  let s' := snd (fact_add ["Rome"; "and"; "Paris"] [(0, 1); (2, 3)] None "train"
                   two_partitions) in
  facts_about two_partitions (inl "Paris") "train" = inr [0] ∧
  facts_about s' (inl "Paris") "train" = inr [0; 1] ∧
  ∃ fs', facts_about s' (inl "Paris") "train" = inr fs' ∧ [0] `prefix_of` fs'.
Proof.
  intros s'.
  split; [vm_compute; reflexivity |].
  split; [vm_compute; reflexivity |].
  destruct (fact_add_keeps_facts two_partitions ["Rome"; "and"; "Paris"]
              [(0, 1); (2, 3)] None "train" "train" two_partitions_reachable)
    as [Hf _].
  apply (Hf "Paris" [0]).
  - vm_compute. eauto.
  - vm_compute. reflexivity.
Defined.


(** ** When [add] returns, its arguments were valid *)

Section ReturnedValid.
Variable ds : string.
Local Abbreviation anything := (λ _ : KB, True).
Local Abbreviation A := (λ s : KB, is_Some (answers_ s !! ds)).

Lemma append_spans_fit spans_ :
  triple A (append_spans spans_ ds)
    (λ _ s, A s ∧ Forall (λ sp, fits sp.1 ∧ fits sp.2) spans_) anything.
Proof.
  eapply triple_conseq.
  - apply (triple_for_each
             (λ done s, A s ∧ Forall (λ sp, fits sp.1 ∧ fits sp.2) done) anything).
    intros done span rest _.
    eapply (triple_bind _ (λ _ s, (A s ∧ Forall (λ sp, fits sp.1 ∧ fits sp.2) done) ∧
                                  fits span.1)).
    + apply triple_array_append_in_cases; [done | done |].
      intros s a Hs _ Hfit. by split.
    + intros _. apply triple_array_append_in_cases; [done | done |].
      intros s a [[Hs Hdone] Hfit1] _ Hfit2. split; [exact Hs |].
      apply Forall_app. split; [done |]. by apply Forall_singleton.
  - intros s Hs. split; [done | constructor].
  - done.
  - done.
Qed.

Lemma append_answers_aligned answers spans_ :
  triple A (append_answers answers spans_ ds)
    (λ _ _, match answers with
            | Some a => length a = length spans_
            | None => True
            end) anything.
Proof.
  apply triple_get_bind. intros s0 H0.
  destruct answers as [answers |]; [| by apply triple_ret].
  destruct (decide (answers_ s0 = ∅)) as [Hempty |].
  { destruct H0 as [x Hx]. by rewrite Hempty, lookup_empty in Hx. }
  eapply (triple_bind _ (λ _ _, length answers = length spans_)).
  { apply triple_assert; [| done]. intros Hlen s _.
    apply Z.eqb_eq in Hlen. unfold len in Hlen. lia. }
  intros _. apply triple_at. intros s1 Hlen.
  eapply triple_conseq;
    [apply (triple_for_each_inv anything) | done | by intros u s _ | done].
  intros answer _ s _. by destruct (bind _ _ s) as [[e | u] s'].
Qed.

Lemma add_returned_valid tokens spans_ answers s0 :
  same_partitions s0 →
  triple (λ s, s = s0) (add tokens spans_ answers ds)
    (λ _ _, spans_ ≠ [] ∧
            Forall (λ sp, fits sp.1 ∧ fits sp.2) spans_ ∧
            match answers with
            | Some a => length a = length spans_
            | None => True
            end)
    anything.
Proof.
  intros Hp.
  set (V := spans_ ≠ [] ∧
            Forall (λ sp, fits sp.1 ∧ fits sp.2) spans_ ∧
            match answers with
            | Some a => length a = length spans_
            | None => True
            end).
  unfold add.
  eapply (triple_bind _ (λ _ s, same_partitions s)).
  { apply triple_modify. intros s ->. exact Hp. }
  intros _.
  eapply (triple_bind _ (λ _ _, V)); [| intros _; apply triple_get_bind;
                                        intros s1 H1; by apply triple_ret].
  unfold add_body.
  eapply (triple_bind _ (λ _ s, same_partitions s ∧ spans_ ≠ [])).
  { apply triple_assert; [| done]. intros Hlen s Hs. split; [done |].
    intros ->. by apply Z.ltb_lt in Hlen. }
  intros _. apply triple_at. intros s1 [Hp1 Hne].
  eapply (triple_bind _ (λ _, A)).
  { apply triple_get_bind. intros s2 ->.
    destruct (contexts s1 !! ds) as [cs |] eqn:Hc.
    - apply triple_ret. intros s ->.
      apply (proj1 (proj2 (proj2 (Hp1 ds)))). eauto.
    - intros s ->. simpl. rewrite lookup_insert_eq. eauto. }
  intros _.
  eapply (triple_bind _ (λ _, A)).
  { eapply triple_conseq; [apply (record_offsets_frame ds A) | | | ];
      try done; intros s x Hs; exact Hs. }
  intros _.
  eapply (triple_bind _ (λ _, A)).
  { eapply triple_conseq; [apply (extend_contexts_frame ds A) | | | ];
      try done; intros s x Hs; exact Hs. }
  intros _.
  eapply triple_bind; [apply append_spans_fit |].
  intros u. apply triple_at. intros s3 [H3 Hfit].
  eapply (triple_bind _ (λ _ _, V)).
  { eapply triple_conseq; [apply append_answers_aligned | | | done].
    - by intros s ->.
    - intros u' s Hlen. by split. }
  intros _. apply triple_get_bind. intros s4 H4.
  by apply triple_modify.
Qed.

End ReturnedValid.

(** X23. On a store built by [add] and [order_vocab_by_freq], [add]
    returns only for valid arguments: there is at least one span,
    every span start and span end fits a slot of an [array('I')] (is
    in 0..[UINT_MAX]), and answers, when given, are as many as the
    spans. *)
Theorem add_returns_only_valid (argsort : list Z → list nat) (s s' : KB)
    (tokens : list string) (spans_ : list (Z * Z))
    (answers : option (list string)) (dataset : string) (n : Z) :
  argsort_contract argsort →
  reachable argsort s →
  add tokens spans_ answers dataset s = (inr n, s') →
  spans_ ≠ [] ∧
  Forall (λ sp, fits sp.1 ∧ fits sp.2) spans_ ∧
  match answers with
  | Some a => length a = length spans_
  | None => True
  end.
Proof.
  intros Hok Hreach Hadd.
  destruct (reachable_consistent argsort Hok s Hreach) as (_ & _ & Hp & _).
  pose proof (add_returned_valid dataset tokens spans_ answers s Hp s eq_refl) as H.
  by rewrite Hadd in H.
Qed.

Lemma add_returns_only_valid_witness :
  ∃ s', add ["x"; "a"] [(0, 1); (1, 2)] (Some ["p"; "q"]) "valid" sample
        = (inr 1, s') ∧
        Forall (λ sp : Z * Z, fits sp.1 ∧ fits sp.2) [(0, 1); (1, 2)].
Proof.
  destruct (add ["x"; "a"] [(0, 1); (1, 2)] (Some ["p"; "q"]) "valid" sample)
    as [r s'] eqn:Hadd.
  assert (Hr : r = inr 1).
  { apply (f_equal fst) in Hadd. simpl in Hadd. rewrite <- Hadd.
    vm_compute. reflexivity. }
  subst r. exists s'. split; [reflexivity |].
  destruct (add_returns_only_valid stable_argsort sample s' ["x"; "a"]
              [(0, 1); (1, 2)] (Some ["p"; "q"]) "valid" 1
              stable_argsort_contract sample_reachable Hadd) as (_ & Hfit & _).
  exact Hfit.
Defined.


(** ** [order_vocab_by_freq] returns *)

(** X24. On a store built by [add] and [order_vocab_by_freq] whose
    vocabulary has at most [UINT_MAX + 1] symbols,
    [order_vocab_by_freq] returns: no index of its loops is out of
    range and every new id fits its slot of an [array('I')]. The
    store it leaves has the flag set and as many symbols as before. *)
Theorem order_vocab_by_freq_never_raises (argsort : list Z → list nat) (s : KB) :
  argsort_contract argsort →
  reachable argsort s →
  len (vocab s) ≤ UINT_MAX + 1 →
  ∃ s', order_vocab_by_freq argsort s = Some s' ∧
        ordered s' = true ∧
        length (vocab s') = length (vocab s).
Proof.
  intros Hok Hreach Hsmall.
  pose proof (reachable_wf argsort Hok s Hreach) as Hwf.
  destruct (order_vocab_by_freq_total argsort Hok s Hwf Hsmall) as [s' Hs'].
  exists s'. split; [done |]. split.
  - by destruct (order_vocab_by_freq_frame argsort s s' Hs')
      as (_ & _ & _ & _ & _ & _ & _ & _ & Hord).
  - destruct (order_keeps_counts argsort Hok s s' (proj1 Hwf) Hs') as [Hperm _].
    by rewrite Hperm.
Qed.

Lemma order_vocab_by_freq_never_raises_witness :
  len (vocab sample) = 4 ∧ ordered sample = false ∧
  ∃ s', order_vocab_by_freq stable_argsort sample = Some s' ∧
        ordered s' = true ∧
        length (vocab s') = length (vocab sample).
Proof.
  split; [vm_compute; reflexivity |].
  split; [vm_compute; reflexivity |].
  apply (order_vocab_by_freq_never_raises stable_argsort sample
           stable_argsort_contract sample_reachable).
  vm_compute. discriminate.
Defined.


(** ** [FactKB.add] and the other partitions *)

Lemma slots_kept_refl {A} p (T : gmap string (list (list A))) : slots_kept p T T.
Proof. unfold slots_kept. destruct (T !! p) as [l |]; [| done]. by exists l. Qed.

Lemma slots_kept_other {A} p q (T0 T : gmap string (list (list A))) l :
  q ≠ p → slots_kept p T0 T → slots_kept p T0 (<[q := l]> T).
Proof. intros Hne H. unfold slots_kept in *. by rewrite lookup_insert_ne. Qed.

Lemma slots_kept_snoc {A} p q (T0 T : gmap string (list (list A))) l x :
  T !! q = Some l → slots_kept p T0 T → slots_kept p T0 (<[q := l ++ [x]]> T).
Proof.
  intros Hl H. destruct (decide (q = p)) as [-> | Hne];
    [| by apply slots_kept_other].
  unfold slots_kept in *. rewrite lookup_insert_eq.
  destruct (T0 !! p) as [l0 |]; [| congruence].
  destruct H as (l1 & Hl1 & Hp). rewrite Hl in Hl1. injection Hl1 as <-.
  exists (l ++ [x]). split; [done |]. by apply prefix_app_r.
Qed.

Section OtherPartition.
Variables (dataset other : string) (s0 : FactKB).
Hypothesis different : dataset ≠ other.
Local Abbreviation O := (partition_kept other s0).

Lemma index_fact_other fact_id entities entity_spans :
  triple O (index_fact fact_id entities entity_spans dataset) (λ _, O) O.
Proof.
  unfold index_fact. apply triple_get_bind. intros s1 H1.
  eapply (triple_bind _ (λ _, O)).
  { destruct (facts s1 !! dataset).
    - apply triple_ret. by intros s ->.
    - intros s ->. simpl. destruct H1 as (Hi & Hc & Hs & Hk).
      split; [done |]. split; [| split; [| done]]; simpl;
        by apply slots_kept_other. }
  intros _. apply triple_for_each_inv. intros [e span] _. simpl.
  apply triple_get_bind. intros s2 H2.
  eapply (triple_bind _ (λ _, O)).
  { destruct (entity_ids s2 !! e) eqn:He.
    - apply triple_ret. by intros s ->.
    - eapply (triple_bind _ (λ _, O)).
      + apply triple_modify. intros s ->. destruct H2 as (Hi & Hc & Hs & Hk).
        split; [| done]. simpl. etrans; [exact Hi |]. by apply insert_subseteq.
      + intros _. apply triple_for_each_inv. intros ds _.
        eapply (triple_bind _ (λ _, O)).
        * apply triple_append_in; [done |]. intros s l (Hi & Hc & Hs & Hk) Hl.
          split; [done |]. split; [| done]. simpl. by apply slots_kept_snoc.
        * intros _. apply triple_append_in; [done |].
          intros s l (Hi & Hc & Hs & Hk) Hl.
          split; [done |]. split; [done |]. split; [| done]. simpl.
          by apply slots_kept_snoc. }
  intros _. apply triple_get_bind. intros s3 H3.
  eapply (triple_bind _ (λ _, O)).
  { apply triple_lift; by intros; subst. }
  intros id.
  eapply (triple_bind _ (λ _, O)).
  { apply triple_append_at; [done |]. intros s l l' (Hi & Hc & Hs & Hk) _ _.
    split; [done |]. split; [| done]. simpl. by apply slots_kept_other. }
  intros _.
  eapply (triple_bind _ (λ _, O)).
  { apply triple_append_at; [done |]. intros s l l' (Hi & Hc & Hs & Hk) _ _.
    split; [done |]. split; [done |]. split; [| done]. simpl.
    by apply slots_kept_other. }
  intros _. apply triple_append_in; [done |]. intros s l Hs _. exact Hs.
Qed.

Lemma fact_add_other fact entity_spans entities :
  triple O (fact_add fact entity_spans entities dataset) (λ _, O) O.
Proof.
  unfold fact_add.
  eapply (triple_bind _ (λ _, O)); [by apply triple_assert |].
  intros _.
  eapply (triple_bind _ (λ _, O)).
  { intros s (Hi & Hc & Hs & Hk). unfold on_kb.
    match goal with
    | |- context [add ?c ?sp ?a dataset (kb s)] =>
        destruct (add_other_partition (kb s) c sp a dataset other different)
          as (_ & _ & _ & _ & _ & _ & _ & Hctx & _);
        destruct (add c sp a dataset (kb s)) as [[e | x] k]
    end; simpl in Hctx;
      (split; [done |]; split; [done |]; split; [done |]; simpl;
       intros i; by rewrite Hctx). }
  intros fact_id.
  eapply (triple_bind _ (λ _, O)); [apply index_fact_other |].
  intros _. by apply triple_ret.
Qed.

End OtherPartition.

Lemma fact_add_partition_kept s fact entity_spans entities dataset other :
  dataset ≠ other →
  partition_kept other s (snd (fact_add fact entity_spans entities dataset s)).
Proof.
  intros Hne.
  assert (H0 : partition_kept other s s).
  { split; [done |]. split; [apply slots_kept_refl |].
    split; [apply slots_kept_refl | done]. }
  pose proof (triple_run _ _ _ _ s
                (fact_add_other dataset other s Hne fact entity_spans entities) H0)
    as H.
  by destruct (fst (fact_add fact entity_spans entities dataset s)).
Qed.

(** X25. On a store reached from [FactKB(kb)] by calls of [add], a
    call of [add] into one partition, whether it returns or raises,
    leaves what is read from every other partition as it is:
    [facts_about] for every entity that had an id, [fact_entities] for
    every id of an entity, and [fact_from_id] for every index return
    what they returned before. *)
Theorem fact_add_other_partition_untouched (s : FactKB) (fact : list string)
    (entity_spans : list (Z * Z)) (entities : option (list string))
    (dataset other : string) :
  fkb_reachable s →
  dataset ≠ other →
  let s' := snd (fact_add fact entity_spans entities dataset s) in
  (∀ e, is_Some (entity_ids s !! e) →
     facts_about s' (inl e) other = facts_about s (inl e) other) ∧
  (∀ id, 0 ≤ id < len (entity_vocab s) →
     fact_entities s' id other = fact_entities s id other) ∧
  (∀ i, fact_from_id s' i other = fact_from_id s i other).
Proof.
  intros Hreach Hne s'.
  destruct (fact_add_partition_kept s fact entity_spans entities dataset other Hne)
    as (Hi & Hc & Hs & Hk).
  fold s' in Hi, Hc, Hs, Hk.
  destruct (fkb_reachable_inv s Hreach) as (_ & Hr & _ & Hcs & Hal).
  assert (Hslot : ∀ A (T0 T : gmap string (list (list A))) id,
            slots_kept other T0 T →
            (∀ l, T0 !! other = Some l → length l = length (entity_vocab s)) →
            0 ≤ id < len (entity_vocab s) →
            (T !! other ≫= λ l, getitem l id) = (T0 !! other ≫= λ l, getitem l id)).
  { intros A T0 T id HT Hlen Hid. unfold slots_kept in HT.
    destruct (T0 !! other) as [l0 |] eqn:Hl0; [| by rewrite HT].
    destruct HT as (l & -> & Hp). simpl. specialize (Hlen l0 eq_refl).
    rewrite !getitem_nonneg by lia.
    destruct (lookup_lt_is_Some_2 l0 (Z.to_nat id)) as [m Hm];
      [unfold len in Hid; lia |].
    rewrite Hm. by eapply prefix_lookup_Some. }
  destruct (Hal other) as [Hlc Hls].
  split; [| split].
  - intros e [id Hid]. pose proof (Hr e id Hid) as Hrange.
    pose proof (Hslot _ _ _ id Hc Hlc Hrange) as H.
    unfold facts_about. rewrite Hid, (lookup_weaken _ _ _ _ Hid Hi).
    unfold slots_kept in Hc.
    destruct (entity_ctxt s !! other) as [l |] eqn:Hl.
    + destruct Hc as (l' & Hl' & _). rewrite Hl' in *. simpl in H. by rewrite H.
    + by rewrite Hc.
  - intros id Hrange.
    pose proof (Hslot _ _ _ id Hc Hlc Hrange) as H.
    pose proof (Hslot _ _ _ id Hs Hls Hrange) as H'.
    unfold fact_entities.
    unfold slots_kept in Hc, Hs.
    destruct (entity_ctxt s !! other) as [l |] eqn:Hl.
    + destruct Hc as (l' & Hl' & _). rewrite Hl' in *. simpl in H. rewrite H.
      destruct (proj1 (Hcs other) (ex_intro _ l Hl)) as [k Hk'].
      rewrite Hk' in *. destruct Hs as (k' & Hk'' & _). rewrite Hk'' in *.
      simpl in H'. by rewrite H'.
    + by rewrite Hc.
  - intros i. unfold fact_from_id. apply Hk.
Qed.

Lemma fact_add_other_partition_untouched_witness :
  let s' := snd (fact_add ["Oslo"; "and"; "Paris"] [(0, 1); (2, 3)] None "train"
                   two_partitions) in
  facts_about two_partitions (inl "Rome") "valid" = inr [0] ∧
  facts_about s' (inl "Rome") "valid" = facts_about two_partitions (inl "Rome") "valid" ∧
  entity_vocab s' = ["Paris"; "France"; "Rome"; "Italy"; "Oslo"] ∧
  fact_from_id s' 0 "valid" = fact_from_id two_partitions 0 "valid".
Proof.
  intros s'.
  assert (Hne : "train" ≠ "valid") by discriminate.
  destruct (fact_add_other_partition_untouched two_partitions
              ["Oslo"; "and"; "Paris"] [(0, 1); (2, 3)] None "train" "valid"
              two_partitions_reachable Hne) as (Hf & _ & Hc).
  split; [vm_compute; reflexivity |].
  split; [apply Hf; vm_compute; eauto |].
  split; [vm_compute; reflexivity | apply Hc].
Defined.


(** ** [add] raises after it has stored the context *)

Lemma bind_returns {S A B} (m : M S A) (k : A → M S B) s x s1 :
  m s = (inr x, s1) → bind m k s = k x s1.
Proof. intros H. unfold bind. by rewrite H. Qed.

Lemma triple_returns {S A} (P : S → Prop) (m : M S A) Q s :
  triple P m Q (λ _, False) → P s → ∃ x s', m s = (inr x, s') ∧ Q x s'.
Proof.
  intros H HP. specialize (H s HP). destruct (m s) as [[e | x] s']; [done |].
  by exists x, s'.
Qed.

Lemma triple_result {S A} (P : S → Prop) (m : M S A) Q E s x s' :
  triple P m Q E → P s → m s = (inr x, s') → Q x s'.
Proof. intros H HP Hm. specialize (H s HP). by rewrite Hm in H. Qed.

(** The statements of [add] up to the loop over the spans return on a
    consistent store and leave the new context stored. *)
Lemma add_prefix_stores ds tokens spans_ s :
  kb_consistent s →
  Forall (λ sp, fits sp.1 ∧ fits sp.2) spans_ →
  len (vocab s) + len tokens ≤ UINT_MAX + 1 →
  ∃ s4 cs offs new na,
    (∀ B (k : M KB B),
       (ensure_partition ds ;; record_offsets ds ;; extend_contexts tokens ds ;;
        append_spans spans_ ds ;; k) (set_ordered false s) = k s4) ∧
    ready ds (num_contexts s ds + 1) na s4 ∧
    len offs = num_contexts s ds ∧
    new_block ds cs offs new tokens s4.
Proof.
  intros Hk Hfits Hbound.
  set (m := num_contexts s ds). set (na := len (answer_vocab s)).
  set (nv := len (vocab s)). set (t0 := set_ordered false s).
  assert (H0 : kb_consistent t0 ∧ num_contexts t0 ds = m ∧ len (answer_vocab t0) ≤ na).
  { split; [exact Hk |]. split; [done |]. unfold na, t0. simpl. lia. }
  destruct (triple_returns _ _ _ t0 (ensure_partition_returns ds m na) H0)
    as ([] & t1 & E1 & R1).
  assert (V1 : vocab t1 = vocab s).
  { pose proof (f_equal snd E1) as H. simpl in H. rewrite <- H.
    unfold ensure_partition, bind, get_state. by destruct (contexts t0 !! ds). }
  destruct (triple_returns _ _ _ t1 (record_offsets_returns ds m na) R1)
    as ([] & t2 & E2 & R2).
  assert (V2 : vocab t2 = vocab s).
  { pose proof (record_offsets_frame ds (λ u, vocab u = vocab s)
                  ltac:(done) ltac:(done) t1 V1) as H.
    by rewrite E2 in H. }
  assert (H2 : ready ds (m + 1) na t2 ∧ len (vocab t2) ≤ nv).
  { split; [done |]. rewrite V2. unfold nv. lia. }
  destruct (triple_returns _ _ _ t2
              (extend_contexts_returns ds tokens (m + 1) na nv Hbound) H2)
    as ([] & t3 & E3 & R3).
  destruct (triple_returns _ _ _ t3
              (append_spans_returns ds spans_ (m + 1) na Hfits) R3)
    as ([] & t4 & E4 & R4).
  destruct R1 as (Hw1 & _ & [cs Hcs] & _ & _ & _ & _ & (offs & Hoffs & Hm) & _).
  pose proof (triple_result _ _ _ _ t1 tt t2
                (new_block_record_offsets ds cs offs)
                (conj Hw1 (conj Hcs Hoffs)) E2) as B2.
  destruct (triple_result _ _ _ _ t2 tt t3
              (new_block_extend_contexts ds cs offs tokens) B2 E3) as [new B3].
  pose proof (triple_result _ _ _ _ t3 tt t4
                (new_block_append_spans ds cs offs spans_ new tokens) B3 E4) as B4.
  exists t4, cs, offs, new, na.
  split; [| by split].
  intros B k.
  by rewrite (bind_returns _ _ _ _ _ E1), (bind_returns _ _ _ _ _ E2),
    (bind_returns _ _ _ _ _ E3), (bind_returns _ _ _ _ _ E4).
Qed.

(** X26. On a store built by [add] and [order_vocab_by_freq], [add]
    with answers that are not as many as the spans, and otherwise
    valid arguments, raises [AssertionError] only after it has stored
    the context: [num_contexts(dataset)] has grown by one, and
    [context] at the new index, read through [vocab], gives the tokens
    of the call. *)
Theorem add_answers_mismatch_stores_context (argsort : list Z → list nat)
    (s : KB) (tokens : list string) (spans_ : list (Z * Z))
    (answers : list string) (dataset : string) :
  argsort_contract argsort →
  reachable argsort s →
  spans_ ≠ [] →
  Forall (λ sp, fits sp.1 ∧ fits sp.2) spans_ →
  len (vocab s) + len tokens ≤ UINT_MAX + 1 →
  length answers ≠ length spans_ →
  ∃ s', add tokens spans_ (Some answers) dataset s = (inl AssertionError, s') ∧
        num_contexts s' dataset = num_contexts s dataset + 1 ∧
        ∃ ks, context s' (num_contexts s dataset) dataset = inr ks ∧
              decode s' ks = Some tokens.
Proof.
  intros Hok Hreach Hne Hfits Hbound Hlen.
  pose proof (reachable_consistent argsort Hok s Hreach) as Hk.
  destruct (add_prefix_stores dataset tokens spans_ s Hk Hfits Hbound)
    as (s4 & cs & offs & new & na & Hrun & Hready & Hoffs & Hblock).
  exists s4.
  destruct (new_block_context dataset cs offs new tokens s4 Hblock)
    as (Hn & Hctx & Hdec).
  split; [| split; [lia | exists new; by rewrite <- Hoffs]].
  unfold add, add_body.
  rewrite (bind_returns _ _ s tt (set_ordered false s) eq_refl).
  assert (Hassert : assert (S := KB) (0 <? len spans_) (set_ordered false s)
                    = (inr tt, set_ordered false s)).
  { destruct spans_; [done |]. done. }
  unfold bind at 1. unfold bind at 1. rewrite Hassert, Hrun.
  assert (Hraise : append_answers (Some answers) spans_ dataset s4
                   = (inl AssertionError, s4)).
  { unfold append_answers, bind, get_state.
    destruct (decide (answers_ s4 = ∅)) as [Hempty |].
    { destruct Hready as (_ & _ & _ & _ & _ & [x Hx] & _).
      by rewrite Hempty, lookup_empty in Hx. }
    destruct (Z.eqb_spec (len answers) (len spans_)) as [Heq | _]; [| done].
    unfold len in Heq. lia. }
  unfold bind. by rewrite Hraise.
Qed.

Lemma add_answers_mismatch_stores_context_witness :
  ∃ s', add ["x"; "a"] [(0, 1)] (Some ["p"; "q"]) "valid" sample
        = (inl AssertionError, s') ∧
        num_contexts sample "valid" = 1 ∧
        num_contexts s' "valid" = 2 ∧
        ∃ ks, context s' 1 "valid" = inr ks ∧ decode s' ks = Some ["x"; "a"].
Proof.
  destruct (add_answers_mismatch_stores_context stable_argsort sample ["x"; "a"]
              [(0, 1)] ["p"; "q"] "valid" stable_argsort_contract sample_reachable)
    as (s' & Hadd & Hn & Hctx).
  - discriminate.
  - repeat constructor; unfold fits; vm_compute; discriminate.
  - vm_compute. discriminate.
  - simpl. lia.
  - exists s'. split; [exact Hadd |].
    assert (H1 : num_contexts sample "valid" = 1) by (vm_compute; reflexivity).
    split; [exact H1 |]. rewrite H1 in Hn, Hctx. split; [exact Hn | exact Hctx].
Defined.
